(** * EMRenderer: iso-contours, flow particles and the scientific colour map

    A shallow embedding of the algorithmic parts of [EMRenderer]
    (src/js/ui/mode-transition.js): [drawContourSegment],
    [drawPotentialContours], [initFlowParticles], [updateFlowParticles],
    [drawFlowParticles] and [getScientificColor]; then [tick], [drawWave2D],
    [drawChargeSystem], [drawCharge], [drawIndicatorGlow], [drawArrow],
    [drawElectricFieldIndicator] and [drawEnergyGraph]; and the numeric core
    of [DialSlider] (src/js/ui/dial-slider.js).

    Numbers.  A JavaScript Number is modelled by [num]: a finite value is an
    exact rational, and [Infinity], [-Infinity] and [NaN] are kept because the
    source tests for them ([isFinite], the [Infinity] initialisers of the
    running minimum and maximum, [d || 1]).  Binary64 rounding, overflow of
    finite results and the sign of zero are not modelled: arithmetic on finite
    values is exact.  Where rounding or overflow decides what the code does,
    the source lines concerned are embedded once more on binary64 numbers
    (module [Binary64], on Rocq's primitive floats), and the properties proved
    on [num] are stated so that rounding does not change them in kind.

    Effects.  The 2D context is a log of the calls made on it, in order; the
    renderer's mutable fields are a record passed from call to call;
    [Math.random] is a stream of which the renderer state holds the cursor. *)

From Stdlib Require Import Floats.
From Stdlib Require Import QArith Qround Qabs ZArith List String Bool Lia Lqa.
Import ListNotations.

Open Scope Q_scope.

(** ** JavaScript numbers *)

Module Num.

Inductive num : Type :=
| Fin (q : Q)
| PInf
| NInf
| NaN.

Definition zero : num := Fin 0.
Definition one : num := Fin 1.
Definition of_nat (n : nat) : num := Fin (inject_Z (Z.of_nat n)).

Definition isFinite (a : num) : bool :=
  match a with Fin _ => true | _ => false end.

(** Sign of a number as a [comparison] with zero; [Eq] also stands for NaN. *)
Definition sign (a : num) : comparison :=
  match a with
  | Fin q => q ?= 0
  | PInf => Gt
  | NInf => Lt
  | NaN => Eq
  end.

Definition sign_mul (c d : comparison) : comparison :=
  match c, d with
  | Eq, _ | _, Eq => Eq
  | Gt, Gt | Lt, Lt => Gt
  | _, _ => Lt
  end.

(** The infinity of a given sign; a zero sign gives NaN (0 * Infinity, 0 / 0). *)
Definition inf_of_sign (c : comparison) : num :=
  match c with Gt => PInf | Lt => NInf | Eq => NaN end.

Definition neg (a : num) : num :=
  match a with
  | Fin q => Fin (- q)
  | PInf => NInf
  | NInf => PInf
  | NaN => NaN
  end.

Definition add (a b : num) : num :=
  match a, b with
  | NaN, _ | _, NaN => NaN
  | Fin p, Fin q => Fin (p + q)
  | PInf, NInf | NInf, PInf => NaN
  | PInf, _ | _, PInf => PInf
  | NInf, _ | _, NInf => NInf
  end.

Definition sub (a b : num) : num := add a (neg b).

Definition mul (a b : num) : num :=
  match a, b with
  | NaN, _ | _, NaN => NaN
  | Fin p, Fin q => Fin (p * q)
  | _, _ => inf_of_sign (sign_mul (sign a) (sign b))
  end.

(** Division.  A finite non-zero value over zero is an infinity (the zero is
    taken as +0), zero over zero is NaN. *)
Definition div (a b : num) : num :=
  match a, b with
  | NaN, _ | _, NaN => NaN
  | Fin p, Fin q =>
      if Qeq_bool q 0 then inf_of_sign (p ?= 0) else Fin (p / q)
  | Fin _, _ => Fin 0
  | _, Fin q => inf_of_sign (sign_mul (sign a) (if Qeq_bool q 0 then Gt else q ?= 0))
  | _, _ => NaN
  end.

(** Three-way comparison; [None] when either side is NaN. *)
Definition cmp (a b : num) : option comparison :=
  match a, b with
  | NaN, _ | _, NaN => None
  | Fin p, Fin q => Some (p ?= q)
  | PInf, PInf | NInf, NInf => Some Eq
  | PInf, _ | _, NInf => Some Gt
  | NInf, _ | _, PInf => Some Lt
  end.

Definition lt (a b : num) : bool :=
  match cmp a b with Some Lt => true | _ => false end.
Definition gt (a b : num) : bool := lt b a.
Definition ge (a b : num) : bool :=
  match cmp a b with Some Gt | Some Eq => true | _ => false end.
Definition le (a b : num) : bool := ge b a.
(** [a === b] on numbers. *)
Definition strict_eq (a b : num) : bool :=
  match cmp a b with Some Eq => true | _ => false end.

(** [a || b] on numbers: [a] unless it is falsy (zero or NaN). *)
Definition truthy (a : num) : bool :=
  match a with
  | Fin q => negb (Qeq_bool q 0)
  | NaN => false
  | _ => true
  end.
Definition or_else (a b : num) : num := if truthy a then a else b.

Definition Math_max (a b : num) : num :=
  match cmp a b with
  | None => NaN
  | Some Lt => b
  | Some _ => a
  end.
Definition Math_min (a b : num) : num :=
  match cmp a b with
  | None => NaN
  | Some Gt => b
  | Some _ => a
  end.

Definition Math_floor (a : num) : num :=
  match a with Fin q => Fin (inject_Z (Qfloor q)) | _ => a end.
Definition Math_ceil (a : num) : num :=
  match a with Fin q => Fin (inject_Z (Qceiling q)) | _ => a end.
(** [Math.round]: nearest integer, ties towards +Infinity. *)
Definition Math_round (a : num) : num :=
  match a with Fin q => Fin (inject_Z (Qfloor (q + (1 # 2)))) | _ => a end.

(** [a % b] for the one divisor the source uses, [b = 1]: the result has the
    sign of the dividend, so the integer part is truncated towards zero. *)
Definition rem1 (a : num) : num :=
  match a with
  | Fin q => Fin (q - inject_Z (if Qle_bool 0 q then Qfloor q else Qceiling q))
  | _ => NaN
  end.

(** Numeric equality of two modelled numbers (rationals up to [Qeq]). *)
Definition eqv (a b : num) : Prop :=
  match a, b with
  | Fin p, Fin q => p == q
  | PInf, PInf | NInf, NInf | NaN, NaN => True
  | _, _ => False
  end.

(** How often the body of [for (let k = 0; k < n; k++)] runs: [None] when the
    loop does not end ([n] is [Infinity]). *)
Definition iterations (n : num) : option nat :=
  match n with
  | Fin q => Some (Z.to_nat (Qceiling q))
  | PInf => None
  | NInf | NaN => Some O
  end.

End Num.

Import Num.

Declare Scope num_scope.
Delimit Scope num_scope with num.
Bind Scope num_scope with num.
Infix "+" := add : num_scope.
Infix "-" := sub : num_scope.
Infix "*" := mul : num_scope.
Infix "/" := div : num_scope.

(** ** The 2D context

    The calls the modelled methods make on [ctx], as data.  A stroke style is
    either the template literal [hsla(${hue}, 50%, 40%, 0.4)] with its hue, or
    a colour string. *)

Inductive style : Type :=
| Hsla (hue : num)
| Colour (s : string).

Inductive ctx_call : Type :=
| SetLineWidth (w : num)
| SetLineCap (s : string)
| SetStrokeStyle (s : style)
| BeginPath
| MoveTo (x y : num)
| LineTo (x y : num)
| Stroke.

Definition context := list ctx_call.

(** ** Marching squares: one cell *)

Definition segment : Type := (num * num * num * num)%type.

Definition lerp (a b t : num) : num := (a + (b - a) * t)%num.

(** The interpolation fraction along an edge from corner value [vA] to corner
    value [vB]: [(level - vA) / (vB - vA || 1)]. *)
Definition edgeDenominator (vA vB : num) : num := or_else (vB - vA) one.

Definition edgeFraction (level vA vB : num) : num :=
  ((level - vA) / edgeDenominator vA vB)%num.

(** The offset of the crossing along that edge:
    [lerp(0, size, (level - vA) / (vB - vA || 1))]. *)
Definition crossing (size level vA vB : num) : num :=
  lerp zero size (edgeFraction level vA vB).

(** The marching-squares index computed in [drawPotentialContours]. *)
Definition cellIndex (level v00 v10 v01 v11 : num) : Z :=
  let idx := 0%Z in
  let idx := if ge v00 level then Z.lor idx 1 else idx in
  let idx := if ge v10 level then Z.lor idx 2 else idx in
  let idx := if ge v11 level then Z.lor idx 4 else idx in
  let idx := if ge v01 level then Z.lor idx 8 else idx in
  idx.

(** [segments[idx]] of [drawContourSegment]; a missing key ([undefined]) is
    the empty list, since the source draws nothing for it. *)
Definition contourSegments (x y size : num) (idx : Z)
    (level v00 v10 v01 v11 : num) : list segment :=
  let top := crossing size level v00 v10 in
  let bottom := crossing size level v01 v11 in
  let left := crossing size level v00 v01 in
  let right := crossing size level v10 v11 in
  (match idx with
   | 1 => [(x, y + left, x + top, y)]
   | 2 => [(x + top, y, x + size, y + right)]
   | 3 => [(x, y + left, x + size, y + right)]
   | 4 => [(x + size, y + right, x + bottom, y + size)]
   | 5 => [(x, y + left, x + top, y); (x + size, y + right, x + bottom, y + size)]
   | 6 => [(x + top, y, x + bottom, y + size)]
   | 7 => [(x, y + left, x + bottom, y + size)]
   | 8 => [(x + bottom, y + size, x, y + left)]
   | 9 => [(x + bottom, y + size, x + top, y)]
   | 10 => [(x + top, y, x + size, y + right); (x + bottom, y + size, x, y + left)]
   | 11 => [(x + bottom, y + size, x + size, y + right)]
   | 12 => [(x + size, y + right, x, y + left)]
   | 13 => [(x + size, y + right, x + top, y)]
   | 14 => [(x + top, y, x, y + left)]
   | _ => []
   end)%num%Z.

Definition drawSegment (ctx : context) (seg : segment) : context :=
  let '(x1, y1, x2, y2) := seg in
  ctx ++ [MoveTo x1 y1; LineTo x2 y2].

Definition drawContourSegment (ctx : context) (x y size : num) (idx : Z)
    (level v00 v10 v01 v11 : num) : context :=
  fold_left drawSegment (contourSegments x y size idx level v00 v10 v01 v11) ctx.

(** ** Loops

    [for (let k = 0; k < n; k++) body], with a body that may itself fail to
    return; [None] stands for a loop that never ends. *)

Definition for_ {A : Type} (n : num) (body : nat -> A -> option A) (a : A)
  : option A :=
  match iterations n with
  | None => None
  | Some k =>
      fold_left
        (fun acc i => match acc with Some s => body i s | None => None end)
        (seq 0 k) (Some a)
  end.

(** ** Field lines and flow particles *)

Record point : Type := mkPoint { pt_x : num; pt_y : num }.

Record fieldLine : Type := mkLine {
  points : list point;
  fromPositive : bool
}.

(** The particle's own [fromPositive] field is [p_fromPositive] here. *)
Record particle : Type := mkParticle {
  line : fieldLine;
  position : num;
  speed : num;
  p_fromPositive : bool
}.

(** ** The renderer

    The fields of [EMRenderer] that the modelled methods read or write.
    [randomCalls] counts the calls made to [Math.random] so far. *)

Record EMRenderer : Type := mkRenderer {
  ctx : context;
  width : num;
  height : num;
  flowParticles : list particle;
  contourLevels : nat;
  randomCalls : nat
}.

Definition set_ctx (r : EMRenderer) (c : context) : EMRenderer :=
  mkRenderer c (width r) (height r) (flowParticles r) (contourLevels r)
    (randomCalls r).

Definition set_flowParticles (r : EMRenderer) (ps : list particle)
    (calls : nat) : EMRenderer :=
  mkRenderer (ctx r) (width r) (height r) ps (contourLevels r) calls.

(** [this.colors], the entries used below. *)
Definition phosphorGreen : string := "#4CAF50".
Definition cobaltBlue : string := "#1565C0".

Inductive outcome : Type :=
| Returned
| Threw.

(** ** Iso-contours: [drawPotentialContours] *)

Record sampling : Type := mkSampling {
  potentialGrid : list (list num);
  minV : num;
  maxV : num
}.

(** [if (!isFinite(V)) V = 0; V = Math.max(-1e6, Math.min(1e6, V))]. *)
Definition clampSample (V : num) : num :=
  let V := if isFinite V then V else zero in
  Math_max (Fin (-1000000)) (Math_min (Fin 1000000) V).

(** Assignment [row[i] = V] where [i] is the current length of [row]. *)
Definition setLast {A : Type} (l : list A) (v : A) : list A := l ++ [v].

(** [g[j][i]] for indices inside the grid; the loops below never leave it. *)
Definition gridAt (g : list (list num)) (j i : nat) : num :=
  nth i (nth j g []) NaN.

Definition defaultResolution : num := Fin 8.

Section Contours.

(** [chargeSystem.potentialAt], supplied by the caller. *)
Variable potentialAt : num -> num -> num.

(** Body of the inner sampling loop; the state is the row being filled and
    the running minimum and maximum. *)
Definition sampleCell (resolution : num) (j i : nat)
    (st : list num * num * num) : list num * num * num :=
  let '(row, mn, mx) := st in
  let x := (of_nat i * resolution)%num in
  let y := (of_nat j * resolution)%num in
  let V := clampSample (potentialAt x y) in
  (setLast row V, (if lt V mn then V else mn), (if gt V mx then V else mx)).

(** Body of the outer sampling loop. *)
Definition sampleRow (resolution cols : num) (j : nat) (s : sampling)
  : option sampling :=
  match for_ cols (fun i st => Some (sampleCell resolution j i st))
          ([], minV s, maxV s) with
  | None => None
  | Some (row, mn, mx) => Some (mkSampling (setLast (potentialGrid s) row) mn mx)
  end.

Definition samplePotential (resolution cols rows : num) : option sampling :=
  for_ rows (sampleRow resolution cols) (mkSampling [] PInf NInf).

(** The [levels] array. *)
Definition contourLevelList (mn mx : num) (n : nat) : list num :=
  let range := (mx - mn)%num in
  map (fun i => (mn + (range * of_nat i) / of_nat n)%num) (seq 1 (n - 1)).

(** Body of the two loops over the cells, for one level. *)
Definition marchCell (g : list (list num)) (resolution level : num)
    (j i : nat) (c : context) : context :=
  let x := (of_nat i * resolution)%num in
  let y := (of_nat j * resolution)%num in
  let v00 := gridAt g j i in
  let v10 := gridAt g j (i + 1) in
  let v01 := gridAt g (j + 1) i in
  let v11 := gridAt g (j + 1) (i + 1) in
  let idx := cellIndex level v00 v10 v01 v11 in
  drawContourSegment c x y resolution idx level v00 v10 v01 v11.

Definition marchLevel (g : list (list num)) (resolution cols rows : num)
    (level : num) (c : context) : option context :=
  for_ (rows - one)%num
    (fun j c => for_ (cols - one)%num
                  (fun i c => Some (marchCell g resolution level j i c)) c)
    c.

(** Body of the loop over [levels]. *)
Definition drawLevel (s : sampling) (resolution cols rows : num)
    (c : context) (level : num) : option context :=
  let range := (maxV s - minV s)%num in
  let normalizedLevel := ((level - minV s) / range)%num in
  let hue := (Fin 120 + (one - normalizedLevel) * Fin 100)%num in
  let c := c ++ [SetStrokeStyle (Hsla hue)] in
  let c := c ++ [BeginPath] in
  match marchLevel (potentialGrid s) resolution cols rows level c with
  | None => None
  | Some c => Some (c ++ [Stroke])
  end.

Definition drawLevels (s : sampling) (resolution cols rows : num)
    (levels : list num) (c : context) : option context :=
  fold_left
    (fun acc level =>
       match acc with
       | Some c => drawLevel s resolution cols rows c level
       | None => None
       end)
    levels (Some c).

(** What [drawPotentialContours] does once the loop bounds [cols] and [rows]
    are computed (lines 599 to 665): sampling, levels, marching. *)
Definition drawContoursOver (r : EMRenderer) (resolution cols rows : num)
  : option EMRenderer :=
  match samplePotential resolution cols rows with
  | None => None
  | Some s =>
      if strict_eq (maxV s) (minV s) then Some r
      else
        let levels := contourLevelList (minV s) (maxV s) (contourLevels r) in
        let c := ctx r ++ [SetLineWidth one] in
        let c := c ++ [SetLineCap "square"] in
        match drawLevels s resolution cols rows levels c with
        | None => None
        | Some c => Some (set_ctx r c)
        end
  end.

Definition drawPotentialContours (r : EMRenderer) (resolution : num)
  : option EMRenderer :=
  let cols := Math_ceil (width r / resolution) in
  let rows := Math_ceil (height r / resolution) in
  drawContoursOver r resolution cols rows.

(** Legacy entry point. *)
Definition drawPotentialField (r : EMRenderer) (resolution : num)
  : option EMRenderer :=
  drawPotentialContours r resolution.

End Contours.

(** ** Flow particles *)

(** [Math.min(8, Math.ceil(line.points.length / 15))], a loop bound. *)
Definition particleCount (len : nat) : nat :=
  Nat.min 8 (Z.to_nat (Qceiling (inject_Z (Z.of_nat len) / 15))).

(** [points[idx]] for a numeric index; [None] is [undefined], which the
    callers dereference (a TypeError). *)
Definition pointAt (pts : list point) (idx : num) : option point :=
  match idx with
  | Fin q =>
      if Qle_bool 0 q && Qeq_bool q (inject_Z (Qfloor q))
      then nth_error pts (Z.to_nat (Qfloor q))
      else None
  | _ => None
  end.

Definition lineColour (l : fieldLine) : string :=
  if fromPositive l then phosphorGreen else cobaltBlue.

Section FlowParticles.

(** The successive results of [Math.random()]. *)
Variable random : nat -> num.

(** [Math.atan2], [Math.cos] and [Math.sin], left uninterpreted. *)
Variable Math_atan2 : num -> num -> num.
Variable Math_cos : num -> num.
Variable Math_sin : num -> num.

(** The inner loop of [initFlowParticles]: [count] pushes for one line.
    Each object literal calls [Math.random] twice, for [position] first. *)
Fixpoint spawn (l : fieldLine) (count : nat) (ps : list particle)
    (calls : nat) : list particle * nat :=
  match count with
  | O => (ps, calls)
  | S count' =>
      let p := mkParticle l (random calls)
                 (Fin (3 # 10) + random (S calls) * Fin (4 # 10))%num
                 (fromPositive l) in
      spawn l count' (ps ++ [p]) (S (S calls))
  end.

(** Body of the loop over [fieldLines]. *)
Definition seedLine (st : list particle * nat) (l : fieldLine)
  : list particle * nat :=
  let '(ps, calls) := st in
  if (List.length (points l) <? 2)%nat then (ps, calls)
  else spawn l (particleCount (List.length (points l))) ps calls.

Definition initFlowParticles (r : EMRenderer) (fieldLines : list fieldLine)
  : EMRenderer :=
  let '(ps, calls) := fold_left seedLine fieldLines ([], randomCalls r) in
  set_flowParticles r ps calls.

Definition updateParticle (dt : num) (p : particle) : particle :=
  let pos := (position p + speed p * dt)%num in
  let pos := if gt pos one then zero else pos in
  mkParticle (line p) pos (speed p) (p_fromPositive p).

Definition updateFlowParticles (r : EMRenderer) (dt : num) : EMRenderer :=
  set_flowParticles r (map (updateParticle dt) (flowParticles r))
    (randomCalls r).

(** Body of the first loop of [drawFlowParticles]: the faint path of one
    line. *)
Definition drawPath (c : context) (l : fieldLine) : context :=
  if (List.length (points l) <? 2)%nat then c
  else
    match points l with
    | [] => c
    | p0 :: rest =>
        let c := c ++ [BeginPath] in
        let c := c ++ [MoveTo (pt_x p0) (pt_y p0)] in
        let c := fold_left (fun c p => c ++ [LineTo (pt_x p) (pt_y p)]) rest c in
        let c := c ++ [SetStrokeStyle (Colour (lineColour l ++ "15"))] in
        let c := c ++ [SetLineWidth one] in
        c ++ [Stroke]
    end.

(** The dash of one particle; [None] when [points[idx]] or
    [points[nextIdx]] is [undefined]. *)
Definition drawDash (c : context) (p : particle) : option context :=
  let pts := points (line p) in
  let n1 := (of_nat (List.length pts) - one)%num in
  let idx := Math_floor (position p * n1)%num in
  let nextIdx := Math_min (idx + one)%num n1 in
  let t := rem1 (position p * n1)%num in
  match pointAt pts idx, pointAt pts nextIdx with
  | Some a, Some b =>
      let x := (pt_x a + (pt_x b - pt_x a) * t)%num in
      let y := (pt_y a + (pt_y b - pt_y a) * t)%num in
      let angle := Math_atan2 (pt_y b - pt_y a)%num (pt_x b - pt_x a)%num in
      let dashLength := Fin 6 in
      let c := c ++ [BeginPath] in
      let c := c ++ [MoveTo (x - Math_cos angle * dashLength / Fin 2)%num
                            (y - Math_sin angle * dashLength / Fin 2)%num] in
      let c := c ++ [LineTo (x + Math_cos angle * dashLength / Fin 2)%num
                            (y + Math_sin angle * dashLength / Fin 2)%num] in
      let c := c ++ [SetStrokeStyle (Colour (lineColour (line p)))] in
      let c := c ++ [SetLineWidth (Fin 2)] in
      let c := c ++ [SetLineCap "round"] in
      Some (c ++ [Stroke])
  | _, _ => None
  end.

(** Last loop of [drawFlowParticles]; it stops at the first exception. *)
Fixpoint drawDashes (c : context) (ps : list particle) : context * outcome :=
  match ps with
  | [] => (c, Returned)
  | p :: ps' =>
      if (List.length (points (line p)) <? 2)%nat then drawDashes c ps'
      else match drawDash c p with
           | Some c' => drawDashes c' ps'
           | None => (c, Threw)
           end
  end.

Definition drawFlowParticles (r : EMRenderer) (fieldLines : list fieldLine)
  : EMRenderer * outcome :=
  let r := set_ctx r (fold_left drawPath fieldLines (ctx r)) in
  let r :=
    if (List.length (flowParticles r) =? 0)%nat
       && (0 <? List.length fieldLines)%nat
    then initFlowParticles r fieldLines
    else r in
  let '(c, o) := drawDashes (ctx r) (flowParticles r) in
  (set_ctx r c, o).

(** Legacy entry point. *)
Definition drawFieldLines (r : EMRenderer) (fieldLines : list fieldLine)
  : EMRenderer * outcome :=
  drawFlowParticles r fieldLines.

End FlowParticles.

(** ** The colour map *)

Inductive rgb : Type := Rgb (r g b : num).

Definition getScientificColor (t : num) : rgb :=
  if lt t (Fin (1 # 2)) then
    let s := (t * Fin 2)%num in
    let r := Math_round (Fin 10 + s * Fin 20)%num in
    let g := Math_round (Fin 10 + s * Fin 20)%num in
    let b := Math_round (Fin 60 + (one - s) * Fin 132)%num in
    Rgb r g b
  else
    let s := ((t - Fin (1 # 2)) * Fin 2)%num in
    let r := Math_round (Fin 30 - s * Fin 20)%num in
    let g := Math_round (Fin 30 + s * Fin 145)%num in
    let b := Math_round (Fin 30 - s * Fin 10)%num in
    Rgb r g b.

(** ** Predicates used in the statements *)

(** A segment whose two endpoints are the same point. *)
Definition degenerate (seg : segment) : Prop :=
  let '(x1, y1, x2, y2) := seg in eqv x1 x2 /\ eqv y1 y2.


(** A position in [0,1), a position in [0,1], a speed in [0.3,0.7). *)
Definition unit_half_open (a : num) : Prop :=
  exists q, a = Fin q /\ 0 <= q < 1.

Definition unit_closed (a : num) : Prop :=
  exists q, a = Fin q /\ 0 <= q <= 1.

Definition seed_speed (a : num) : Prop :=
  exists q, a = Fin q /\ 3 # 10 <= q < 7 # 10.

Definition particle_seeded (p : particle) : Prop :=
  unit_half_open (position p) /\ seed_speed (speed p).

Definition particle_ok (p : particle) : Prop :=
  unit_closed (position p) /\ seed_speed (speed p).

(** The particles seeding makes for one line, by the line they follow. *)
Definition seededLines (l : fieldLine) : list fieldLine :=
  if (List.length (points l) <? 2)%nat then []
  else repeat l (particleCount (List.length (points l))).

(** ** The contour computation as data

    What [drawPotentialContours] computes, read off its loops: the sample at
    a grid position, the running extrema, the segments of a cell and of a
    level, and the calls that draw them.  The lemmas below relate these to
    the loops. *)

Definition sampleAt (potentialAt : num -> num -> num) (resolution : num)
    (j i : nat) : num :=
  clampSample (potentialAt (of_nat i * resolution) (of_nat j * resolution))%num.

Definition sampledRow (potentialAt : num -> num -> num) (resolution : num)
    (nc j : nat) : list num :=
  map (sampleAt potentialAt resolution j) (seq 0 nc).

Definition sampledGrid (potentialAt : num -> num -> num) (resolution : num)
    (nc nr : nat) : list (list num) :=
  map (sampledRow potentialAt resolution nc) (seq 0 nr).

Definition runMin (mn : num) (vs : list num) : num :=
  fold_left (fun m V => if lt V m then V else m) vs mn.

Definition runMax (mx : num) (vs : list num) : num :=
  fold_left (fun m V => if gt V m then V else m) vs mx.

Definition cellSegments (g : list (list num)) (resolution level : num)
    (j i : nat) : list segment :=
  contourSegments (of_nat i * resolution)%num (of_nat j * resolution)%num
    resolution
    (cellIndex level (gridAt g j i) (gridAt g j (i + 1))
       (gridAt g (j + 1) i) (gridAt g (j + 1) (i + 1)))
    level (gridAt g j i) (gridAt g j (i + 1))
    (gridAt g (j + 1) i) (gridAt g (j + 1) (i + 1)).

(** The segments of one level, rows first, then columns. *)
Definition levelSegments (g : list (list num)) (resolution : num)
    (ncells_x ncells_y : nat) (level : num) : list segment :=
  flat_map (fun j => flat_map (cellSegments g resolution level j)
                       (seq 0 ncells_x))
    (seq 0 ncells_y).

Definition computeContours (g : list (list num)) (resolution : num)
    (ncells_x ncells_y : nat) (levels : list num)
  : list (num * list segment) :=
  map (fun level => (level, levelSegments g resolution ncells_x ncells_y level))
    levels.

Definition segmentCalls (segs : list segment) : list ctx_call :=
  flat_map (fun '(x1, y1, x2, y2) => [MoveTo x1 y1; LineTo x2 y2]) segs.

Definition levelHue (mn mx level : num) : num :=
  (Fin 120 + (one - (level - mn) / (mx - mn)) * Fin 100)%num.

Definition contourCalls (mn mx : num) (contours : list (num * list segment))
  : list ctx_call :=
  flat_map (fun '(level, segs) =>
              [SetStrokeStyle (Hsla (levelHue mn mx level)); BeginPath]
              ++ segmentCalls segs ++ [Stroke])
    contours.


(** ** Further predicates on samples, calls and segments *)

(** A sample after clamping: finite, between -1e6 and 1e6. *)
Definition sample_in_range (V : num) : Prop :=
  exists v, V = Fin v /\ - (1000000) <= v <= 1000000.

(** Order on finite numbers. *)
Definition num_le (a b : num) : Prop :=
  exists p q, a = Fin p /\ b = Fin q /\ p <= q.

(** [m] is the least ([M] the greatest) of the samples [l]; before the first
    sample the extrema are still [Infinity] and [-Infinity]. *)
Definition least_of (m : num) (l : list num) : Prop :=
  (l = [] /\ m = PInf) \/ (In m l /\ Forall (num_le m) l).

Definition greatest_of (M : num) (l : list num) : Prop :=
  (l = [] /\ M = NInf) \/ (In M l /\ Forall (fun V => num_le V M) l).

(** The calls that draw a segment. *)
Definition is_segment_call (c : ctx_call) : bool :=
  match c with
  | MoveTo _ _ | LineTo _ _ => true
  | _ => false
  end.

(** Both endpoints of a segment lie in the rectangle from [(x0, y0)] to
    [(x1, y1)]. *)
Definition in_box (x0 y0 x1 y1 : Q) (seg : segment) : Prop :=
  let '(a, b, c, d) := seg in
  exists qa qb qc qd,
    a = Fin qa /\ b = Fin qb /\ c = Fin qc /\ d = Fin qd
    /\ x0 <= qa <= x1 /\ y0 <= qb <= y1
    /\ x0 <= qc <= x1 /\ y0 <= qd <= y1.

(** A colour channel as CSS accepts it: an integer from 0 to 255. *)
Definition channel (lo hi : Z) (c : num) : Prop :=
  exists z, c = Fin (inject_Z z) /\ (0 <= lo <= z)%Z /\ (z <= hi <= 255)%Z.

(** ** The animation clock: [tick]

    [animTime] and [lastTime] are kept beside the renderer; the reading of
    [Date.now()] is an argument. *)

Record Animation : Type := mkAnimation {
  renderer : EMRenderer;
  animTime : num;
  lastTime : num
}.

Definition tick (a : Animation) (now : num) : Animation :=
  let dt := ((now - lastTime a) / Fin 1000)%num in
  mkAnimation (updateFlowParticles (renderer a) dt)
    (animTime a + dt)%num now.

(** Successive clock readings that never go back, starting from [t]. *)
Fixpoint nondecreasing_from (t : Q) (readings : list Q) : Prop :=
  match readings with
  | [] => True
  | q :: rest => t <= q /\ nondecreasing_from q rest
  end.

(** The two random numbers the particle number [j] of a pool is made from,
    when seeding starts at call number [c]. *)
Definition seededFrom (random : nat -> num) (c j : nat) (p : particle) : Prop :=
  position p = random (c + 2 * j)%nat
  /\ speed p = (Fin (3 # 10) + random (c + 2 * j + 1)%nat * Fin (4 # 10))%num.

(** Invariant of the seeding loops, on the pool built so far and the number
    of random calls made, when seeding started at call number [c0]. *)
Definition seeding_inv (random : nat -> num) (c0 : nat)
    (st : list particle * nat) : Prop :=
  snd st = (c0 + 2 * List.length (fst st))%nat
  /\ Forall2 (seededFrom random c0) (seq 0 (List.length (fst st))) (fst st)
  /\ Forall (fun p => (2 <= List.length (points (line p)))%nat
                      /\ p_fromPositive p = fromPositive (line p)) (fst st).

(** What seeding guarantees about the line of a particle. *)
Definition follows_a_path (p : particle) : Prop :=
  (2 <= List.length (points (line p)))%nat
  /\ p_fromPositive p = fromPositive (line p).

(** ** A richer context

    The methods below make calls that [ctx_call] does not have.  Their context
    is a log of [canvas_op]; [Op] holds the calls modelled before.  A fill
    style is a colour string, the [rgb(r,g,b)] string of
    [getScientificColor], or a gradient with its colour stops. *)

Inductive paint : Type :=
| PaintColour (s : string)
| PaintRgb (c : rgb)
| PaintRadial (x0 y0 r0 x1 y1 r1 : num) (stops : list (num * string))
| PaintLinear (x0 y0 x1 y1 : num) (stops : list (num * string)).

(** Fonts and texts that are template literals keep their number. *)
Inductive font : Type :=
| FontNamed (s : string)
| FontBoldMono (px : num).

Inductive label : Type :=
| LabelText (s : string)
| LabelExponential (prefix : string) (v : num) (suffix : string).

Inductive canvas_op : Type :=
| Op (c : ctx_call)
| SetFillStyle (p : paint)
| FillRect (x y w h : num)
| StrokeRect (x y w h : num)
| ClosePath
| Fill
| ArcCircle (x y radius : num)
| SetFont (f : font)
| SetTextAlign (s : string)
| SetTextBaseline (s : string)
| FillText (t : label) (x y : num)
| SetGlobalAlpha (a : num)
| SetGlobalCompositeOperation (s : string).

Definition canvas := list canvas_op.

Definition Math_abs (a : num) : num :=
  match a with
  | Fin q => Fin (Qabs q)
  | PInf | NInf => PInf
  | NaN => NaN
  end.

(** ** The 2D wave: [drawWave2D]

    [fdtd.nx], [fdtd.ny] and [fdtd.Ez].  Reading [Ez[i][j]] throws when
    [Ez[i]] is [undefined]; a missing [Ez[i][j]] is [undefined], which the
    arithmetic turns into NaN. *)

Record wave2D : Type := mkWave2D {
  nx : nat;
  ny : nat;
  Ez : list (list num)
}.

Definition readEz (f : wave2D) (i j : nat) : option num :=
  match nth_error (Ez f) i with
  | None => None
  | Some row => Some (nth j row NaN)
  end.

(** Loops whose body may throw: [None] is the exception. *)
Definition loop {A : Type} (n : nat) (body : nat -> A -> option A) (a : A)
  : option A :=
  fold_left (fun acc i => match acc with Some s => body i s | None => None end)
    (seq 0 n) (Some a).

Definition waveMax (f : wave2D) : option num :=
  match loop (nx f)
          (fun i maxE =>
             loop (ny f)
               (fun j maxE =>
                  match readEz f i j with
                  | None => None
                  | Some e => Some (Math_max maxE (Math_abs e))
                  end)
               maxE)
          zero with
  | None => None
  | Some maxE => Some (Math_max maxE (Fin (1 # 10000000000)))
  end.

Definition drawWave2D (c : canvas) (width height : num) (f : wave2D)
    (colormap : option (num -> string)) : option canvas :=
  let cellW := (width / of_nat (nx f))%num in
  let cellH := (height / of_nat (ny f))%num in
  match waveMax f with
  | None => None
  | Some maxE =>
      loop (nx f)
        (fun i c =>
           loop (ny f)
             (fun j c =>
                match readEz f i j with
                | None => None
                | Some e =>
                    let normalized := ((e / maxE + one) / Fin 2)%num in
                    let color :=
                      match colormap with
                      | Some cm => PaintColour (cm normalized)
                      | None => PaintRgb (getScientificColor normalized)
                      end in
                    let c := c ++ [SetFillStyle color] in
                    Some (c ++ [FillRect (of_nat i * cellW) (of_nat j * cellH)
                                  (cellW + one) (cellH + one)]%num)
                end)
             c)
        c
  end.

(** A fill style that CSS accepts as written by [getScientificColor]: three
    integer channels from 0 to 255. *)
Definition valid_fill (o : canvas_op) : Prop :=
  match o with
  | SetFillStyle (PaintRgb (Rgb r g b)) =>
      channel 10 30 r /\ channel 10 175 g /\ channel 20 192 b
  | SetFillStyle _ => False
  | _ => True
  end.

Definition is_fillRect (o : canvas_op) : bool :=
  match o with FillRect _ _ _ _ => true | _ => false end.

(** A well-formed field: [nx] rows of [ny] finite values. *)
Definition wave_ok (f : wave2D) : Prop :=
  List.length (Ez f) = nx f
  /\ Forall (fun row => List.length row = ny f
                        /\ Forall (fun e => isFinite e = true) row) (Ez f).

(** [Ez[i][j]] inside a well-formed field, and the calls of one cell. *)
Definition cellAt (f : wave2D) (i j : nat) : num :=
  nth j (nth i (Ez f) []) NaN.

Definition waveCellOps (width height maxE : num) (f : wave2D) (i j : nat)
  : list canvas_op :=
  [SetFillStyle
     (PaintRgb (getScientificColor ((cellAt f i j / maxE + one) / Fin 2)%num));
   FillRect (of_nat i * (width / of_nat (nx f)))%num
     (of_nat j * (height / of_nat (ny f)))%num
     (width / of_nat (nx f) + one)%num (height / of_nat (ny f) + one)%num].

(** The fill style left by a field that holds a NaN. *)
Definition nan_fill (o : canvas_op) : Prop :=
  match o with
  | SetFillStyle p => p = PaintRgb (Rgb NaN NaN NaN)
  | _ => True
  end.

(** ** Charges: [drawIndicatorGlow], [drawCharge], [drawChargeSystem] *)

(** More of [this.colors]. *)
Definition cadmiumOrange : string := "#E65100".
Definition surfaceDark : string := "#0A0A0F".
Definition gridMajor : string := "#1A1A22".
Definition colourPositive : string := "#E65100".
Definition colourNegative : string := "#1565C0".

Definition drawIndicatorGlow (c : canvas) (x y radius : num) (color : string)
    (intensity : num) : canvas :=
  let gradient :=
    PaintRadial x y zero x y radius
      [(Fin 0, color); (Fin (1 # 2), (color ++ "44")%string);
       (Fin 1, "transparent"%string)] in
  let c := c ++ [SetGlobalCompositeOperation "screen"] in
  let c := c ++ [SetGlobalAlpha (intensity * Fin (3 # 10))%num] in
  let c := c ++ [SetFillStyle gradient] in
  let c := c ++ [FillRect (x - radius) (y - radius)
                   (radius * Fin 2) (radius * Fin 2)]%num in
  let c := c ++ [SetGlobalCompositeOperation "source-over"] in
  c ++ [SetGlobalAlpha (Fin 1)].

Definition drawCharge (c : canvas) (x y charge radius : num) : canvas :=
  let isPositive := ge charge zero in
  let color := if isPositive then colourPositive else colourNegative in
  let c := drawIndicatorGlow c x y (radius * Fin 3)%num color (Fin (1 # 2)) in
  let c := c ++ [Op BeginPath] in
  let c := c ++ [ArcCircle x y (radius + Fin 4)%num] in
  let c := c ++ [Op (SetStrokeStyle (Colour (color ++ "40")))] in
  let c := c ++ [Op (SetLineWidth (Fin 1))] in
  let c := c ++ [Op Stroke] in
  let c := c ++ [Op BeginPath] in
  let c := c ++ [ArcCircle x y radius] in
  let gradient :=
    PaintLinear x (y - radius)%num x (y + radius)%num
      [(Fin 0, surfaceDark); (Fin (1 # 2), "#1E1E26"%string);
       (Fin 1, surfaceDark)] in
  let c := c ++ [SetFillStyle gradient] in
  let c := c ++ [Fill] in
  let c := c ++ [Op (SetStrokeStyle (Colour color))] in
  let c := c ++ [Op (SetLineWidth (Fin 2))] in
  let c := c ++ [Op Stroke] in
  let c := c ++ [Op BeginPath] in
  let c := c ++ [ArcCircle x (y - radius + Fin 4)%num (Fin 2)] in
  let c := c ++ [SetFillStyle (PaintColour color)] in
  let c := c ++ [Fill] in
  let c := c ++ [SetFillStyle (PaintColour color)] in
  let c := c ++ [SetFont (FontBoldMono (radius * Fin (9 # 10))%num)] in
  let c := c ++ [SetTextAlign "center"] in
  let c := c ++ [SetTextBaseline "middle"] in
  c ++ [FillText (LabelText (if isPositive then "+" else "−"))
          x (y + Fin 1)%num].

(** An entry of [chargeSystem.charges]. *)
Record pointCharge : Type := mkCharge {
  charge_x : num;
  charge_y : num;
  charge : num
}.

(** [Math.min(20, Math.max(10, Math.abs(charge.charge) * 1e9 * 4))]. *)
Definition chargeRadius (q : num) : num :=
  Math_min (Fin 20) (Math_max (Fin 10) (Math_abs q * Fin 1000000000 * Fin 4)%num).

Definition drawChargeSystem (c : canvas) (charges : list pointCharge) : canvas :=
  fold_left
    (fun c ch =>
       drawCharge c (charge_x ch) (charge_y ch) (charge ch)
         (chargeRadius (charge ch)))
    charges c.

(** The sizes of a charge glyph: circles of radius 2 to 24, a glow square
    of side 60 to 120, a font of 9 to 18 pixels. *)
Definition glyph_sized (o : canvas_op) : Prop :=
  match o with
  | ArcCircle _ _ radius => exists q, radius = Fin q /\ 2 <= q <= 24
  | FillRect _ _ w h => exists q, w = Fin q /\ h = Fin q /\ 60 <= q <= 120
  | SetFont (FontBoldMono px) => exists q, px = Fin q /\ 9 <= q <= 18
  | SetFont (FontNamed _) => False
  | _ => True
  end.

Definition is_fillText (o : canvas_op) : bool :=
  match o with FillText _ _ _ => true | _ => false end.

(** ** Arrows: [drawArrow], [drawElectricFieldIndicator] *)

Section Arrows.

(** [Math.sqrt], [Math.atan2], [Math.cos], [Math.sin] and [Math.PI], left
    uninterpreted; [this.arrowScale]. *)
Variable Math_sqrt : num -> num.
Variable Math_atan2 : num -> num -> num.
Variable Math_cos : num -> num.
Variable Math_sin : num -> num.
Variable Math_PI : num.
Variable arrowScale : num.

Definition drawArrow (c : canvas) (x y dx dy : num) (color : string)
    (maxLength : num) : canvas :=
  let length := Math_sqrt (dx * dx + dy * dy)%num in
  if lt length one then c
  else
    let scale := (Math_min maxLength (length * arrowScale) / length)%num in
    let endX := (x + dx * scale)%num in
    let endY := (y + dy * scale)%num in
    let angle := Math_atan2 dy dx in
    let c := c ++ [Op BeginPath] in
    let c := c ++ [Op (MoveTo x y)] in
    let c := c ++ [Op (LineTo endX endY)] in
    let c := c ++ [Op (SetStrokeStyle (Colour color))] in
    let c := c ++ [Op (SetLineWidth (Fin (3 # 2)))] in
    let c := c ++ [Op (SetLineCap "square")] in
    let c := c ++ [Op Stroke] in
    let headLength := Fin 5 in
    let c := c ++ [Op BeginPath] in
    let c := c ++ [Op (MoveTo endX endY)] in
    let c := c ++ [Op (LineTo
                         (endX - headLength
                                 * Math_cos (angle - Math_PI / Fin 6))%num
                         (endY - headLength
                                 * Math_sin (angle - Math_PI / Fin 6))%num)] in
    let c := c ++ [Op (LineTo
                         (endX - headLength
                                 * Math_cos (angle + Math_PI / Fin 6))%num
                         (endY - headLength
                                 * Math_sin (angle + Math_PI / Fin 6))%num)] in
    let c := c ++ [ClosePath] in
    let c := c ++ [SetFillStyle (PaintColour color)] in
    c ++ [Fill].

Definition drawElectricFieldIndicator (c : canvas) (Ex Ey x y : num) : canvas :=
  let mag := Math_sqrt (Ex * Ex + Ey * Ey)%num in
  if lt mag (Fin (1 # 10000000000)) then c
  else
    let c := drawIndicatorGlow c x y (Fin 35) phosphorGreen (Fin (3 # 10)) in
    let c := drawArrow c x y (Ex * Fin 25 / mag)%num (Ey * Fin 25 / mag)%num
               phosphorGreen (Fin 40) in
    let c := c ++ [SetFillStyle (PaintColour phosphorGreen)] in
    let c := c ++ [SetFont (FontNamed "600 11px 'JetBrains Mono', monospace")] in
    let c := c ++ [SetTextAlign "center"] in
    c ++ [FillText (LabelExponential "E = " mag " V/m") x (y + Fin 40)%num].

End Arrows.

(** The least of two rationals, as [Math.min] computes it. *)
Definition least (a b : Q) : Q := if Qle_bool a b then a else b.

(** ** The energy graph: [drawEnergyGraph] *)

Record energySample : Type := mkEnergy { total : num }.

(** [Math.max(...values)]: the greatest argument, NaN when one of them is
    NaN, [-Infinity] without arguments. *)
Definition Math_max_of (values : list num) : num :=
  fold_left Math_max values NInf.

(** Body of the loop over the samples: one point of the graph line. *)
Definition plotEnergy (x y height dx maxEnergy : num) (c : canvas)
    (ie : nat * energySample) : canvas :=
  let '(i, e) := ie in
  let px := (x + of_nat i * dx)%num in
  let py := (y + height - total e / maxEnergy * height * Fin (85 # 100))%num in
  c ++ [if (i =? 0)%nat then Op (MoveTo px py) else Op (LineTo px py)].

Definition drawEnergyGraph (c : canvas) (energyHistory : list energySample)
    (x y width height : num) : canvas :=
  let c := c ++ [SetFillStyle (PaintColour surfaceDark)] in
  let c := c ++ [FillRect x y width height] in
  let c := c ++ [Op (SetStrokeStyle (Colour gridMajor))] in
  let c := c ++ [Op (SetLineWidth (Fin 1))] in
  let c := c ++ [StrokeRect x y width height] in
  if (List.length energyHistory <? 2)%nat then c
  else
    let maxEnergy :=
      Math_max_of (map total energyHistory
                   ++ [Fin (1 # 1000000000000000000000000000000)]) in
    let dx := (width / (of_nat (List.length energyHistory) - one))%num in
    let c := c ++ [Op BeginPath] in
    let c := fold_left (plotEnergy x y height dx maxEnergy)
               (combine (seq 0 (List.length energyHistory)) energyHistory) c in
    let c := c ++ [Op (SetStrokeStyle (Colour cadmiumOrange))] in
    let c := c ++ [Op (SetLineWidth (Fin (3 # 2)))] in
    let c := c ++ [Op Stroke] in
    let c := c ++ [Op (LineTo (x + width) (y + height))%num] in
    let c := c ++ [Op (LineTo x (y + height))%num] in
    let c := c ++ [ClosePath] in
    let c := c ++ [SetFillStyle (PaintColour (cadmiumOrange ++ "15"))] in
    let c := c ++ [Fill] in
    let c := c ++ [SetFillStyle (PaintColour cadmiumOrange)] in
    let c := c ++ [SetFont (FontNamed "600 9px 'Inter', sans-serif")] in
    c ++ [FillText (LabelText "⚡ ENERGY") (x + Fin 8) (y + Fin 12)]%num.

(** A path call whose point lies in the rectangle from [(x0, y0)] to
    [(x1, y1)]; other calls pass. *)
Definition path_inside (x0 y0 x1 y1 : Q) (o : canvas_op) : Prop :=
  match o with
  | Op (MoveTo a b) | Op (LineTo a b) =>
      exists p q, a = Fin p /\ b = Fin q /\ x0 <= p <= x1 /\ y0 <= q <= y1
  | _ => True
  end.

Definition is_path_point (o : canvas_op) : bool :=
  match o with
  | Op (MoveTo _ _) | Op (LineTo _ _) => true
  | _ => false
  end.

(** A sample of the history: a finite total that is not negative. *)
Definition energy_ok (e : energySample) : Prop :=
  exists t, total e = Fin t /\ 0 <= t.

(** ** DialSlider (src/js/ui/dial-slider.js)

    The numeric core of the slider: the option defaults, the tick marks of
    [build], the pointer and keyboard handlers, [setValue] and
    [updatePosition].  The DOM is kept as the values written to it: the
    percentage of [thumb.style.left] and [trackFill.style.width], the
    [aria-valuenow] attribute and the tick marks with their [major] class.
    The [onInput] and [onChange] callbacks are a log of the calls made, in
    order.  Class names and the cursor style are left out. *)

Inductive callback : Type :=
| OnInput (v : num)
| OnChange (v : num).

Record DialSlider : Type := mkDialSlider {
  options_min : num;
  options_max : num;
  options_step : num;
  value : num;
  isDragging : bool;
  thumb_left : num;
  aria_valuenow : num;
  tickMarks : list bool;
  callbacks : list callback
}.

Definition set_value (d : DialSlider) (v : num) : DialSlider :=
  mkDialSlider (options_min d) (options_max d) (options_step d) v
    (isDragging d) (thumb_left d) (aria_valuenow d) (tickMarks d) (callbacks d).

Definition set_isDragging (d : DialSlider) (b : bool) : DialSlider :=
  mkDialSlider (options_min d) (options_max d) (options_step d) (value d)
    b (thumb_left d) (aria_valuenow d) (tickMarks d) (callbacks d).

Definition set_thumb_left (d : DialSlider) (p : num) : DialSlider :=
  mkDialSlider (options_min d) (options_max d) (options_step d) (value d)
    (isDragging d) p (aria_valuenow d) (tickMarks d) (callbacks d).

Definition set_aria_valuenow (d : DialSlider) (v : num) : DialSlider :=
  mkDialSlider (options_min d) (options_max d) (options_step d) (value d)
    (isDragging d) (thumb_left d) v (tickMarks d) (callbacks d).

Definition call (d : DialSlider) (c : callback) : DialSlider :=
  mkDialSlider (options_min d) (options_max d) (options_step d) (value d)
    (isDragging d) (thumb_left d) (aria_valuenow d) (tickMarks d)
    (callbacks d ++ [c]).

(** [a % b]: the result has the sign of the dividend, the quotient is
    truncated towards zero. *)
Definition rem (a b : num) : num :=
  match a, b with
  | Fin p, Fin q =>
      if Qeq_bool q 0 then NaN
      else
        let z := p / q in
        Fin (p - q * inject_Z (if Qle_bool 0 z then Qfloor z else Qceiling z))
  | Fin p, PInf | Fin p, NInf => Fin p
  | _, _ => NaN
  end.

(** How often the body of [for (let i = 0; i <= n; i++)] runs: [None] when
    the loop does not end. *)
Definition iterations_le (n : num) : option nat :=
  match n with
  | Fin q => Some (Z.to_nat (Qfloor q + 1))
  | PInf => None
  | NInf | NaN => Some O
  end.

(** The tick marks of [build]: one per [i] from 0 to [numTicks], [true] for
    a mark that gets the class [major]. *)
Definition buildTicks (min max step majorTickInterval : num)
  : option (list bool) :=
  let range := (max - min)%num in
  let numTicks := Math_min (Fin 20) (Math_floor (range / step)) in
  match iterations_le numTicks with
  | None => None
  | Some k =>
      Some (map (fun i => strict_eq (rem (of_nat i) majorTickInterval) zero)
              (seq 0 k))
  end.

Definition updatePosition (d : DialSlider) : DialSlider :=
  let percent :=
    ((value d - options_min d) / (options_max d - options_min d) * Fin 100)%num
  in
  set_thumb_left d percent.

(** A JavaScript value as far as [||] and [%] look at it: whether it is
    truthy, and the number [ToNumber] gives for it.  A number [n] is
    [js_of_num n]; the string "0" is truthy with the number 0, the string
    "abc" truthy with NaN, [undefined] falsy with NaN.  Values for which
    [ToNumber] throws (a symbol, a BigInt beside a number) are not covered. *)
Record jsvalue : Type := mkJs { js_truthy : bool; js_number : num }.

Definition js_of_num (n : num) : jsvalue := mkJs (truthy n) n.

(** [a || b]. *)
Definition js_or (a b : jsvalue) : jsvalue := if js_truthy a then a else b.

(** [new DialSlider(container, options)].  The arguments [min], [max], [step]
    and [value] are what [parseFloat] returns for the options, NaN for one
    that is missing; [ticks] is [options.ticks !== false];
    [majorTickInterval] is the option as given, not parsed.  [None] stands
    for a constructor whose tick loop never ends. *)
Definition newDialSlider (min max step value : num) (ticks : bool)
    (majorTickInterval : jsvalue) : option DialSlider :=
  let min := or_else min (Fin 0) in
  let max := or_else max (Fin 100) in
  let step := or_else step (Fin 1) in
  let value := or_else value (Fin 0) in
  let majorTickInterval := js_or majorTickInterval (js_of_num (Fin 5)) in
  match (if ticks then buildTicks min max step (js_number majorTickInterval)
         else Some []) with
  | None => None
  | Some marks =>
      Some (updatePosition
              (mkDialSlider min max step value false NaN value marks []))
  end.

Definition setValue (d : DialSlider) (v : num) (isInput : bool) : DialSlider :=
  let d := set_value d (Math_max (options_min d) (Math_min (options_max d) v)) in
  let d := updatePosition d in
  let d := set_aria_valuenow d (value d) in
  if isInput then call d (OnInput (value d)) else d.

Definition startDrag (d : DialSlider) : DialSlider := set_isDragging d true.

(** The value under the pointer, as [drag] and [handleTrackClick] compute it
    from [clientX] and the track's bounding rectangle. *)
Definition steppedValue (d : DialSlider) (clientX rectLeft rectWidth : num) : num :=
  let percent := ((clientX - rectLeft) / rectWidth)%num in
  let percent := Math_max (Fin 0) (Math_min (Fin 1) percent) in
  let rawValue :=
    (options_min d + percent * (options_max d - options_min d))%num in
  (Math_round (rawValue / options_step d) * options_step d)%num.

Definition drag (d : DialSlider) (clientX rectLeft rectWidth : num) : DialSlider :=
  if negb (isDragging d) then d
  else
    let steppedValue := steppedValue d clientX rectLeft rectWidth in
    if negb (strict_eq steppedValue (value d)) then setValue d steppedValue true
    else d.

Definition endDrag (d : DialSlider) : DialSlider :=
  if isDragging d then
    let d := set_isDragging d false in
    call d (OnChange (value d))
  else d.

(** [onThumb] is [e.target === this.thumb]. *)
Definition handleTrackClick (d : DialSlider) (onThumb : bool)
    (clientX rectLeft rectWidth : num) : DialSlider :=
  if onThumb then d
  else
    let steppedValue := steppedValue d clientX rectLeft rectWidth in
    let d := setValue d steppedValue false in
    call d (OnChange (value d)).

(** [handleKeyboard(e)] for [e.key]; the flag tells whether
    [e.preventDefault()] was called. *)
Definition handleKeyboard (d : DialSlider) (key : string) : DialSlider * bool :=
  let newValue : option num :=
    if (String.eqb key "ArrowRight" || String.eqb key "ArrowUp")%bool then
      Some (Math_min (options_max d) (value d + options_step d)%num)
    else if (String.eqb key "ArrowLeft" || String.eqb key "ArrowDown")%bool then
      Some (Math_max (options_min d) (value d - options_step d)%num)
    else if String.eqb key "Home" then Some (options_min d)
    else if String.eqb key "End" then Some (options_max d)
    else None in
  match newValue with
  | None => (d, false)
  | Some newValue =>
      let d := setValue d newValue false in
      (call d (OnChange (value d)), true)
  end.

(** A whole pointer gesture: press on the thumb, move through the positions
    [moves] (each a [clientX] with the track's left edge and width), release. *)
Definition gesture (d : DialSlider) (moves : list (num * num * num))
  : DialSlider :=
  endDrag
    (fold_left (fun d m => let '(clientX, rectLeft, rectWidth) := m in
                           drag d clientX rectLeft rectWidth)
       moves (startDrag d)).

Definition is_OnInput (c : callback) : Prop :=
  match c with OnInput _ => True | OnChange _ => False end.

(** A value the handlers can leave: a multiple of the step, or one of the
    two bounds. *)
Definition on_step_or_bound (min max step r : Q) : Prop :=
  (exists k : Z, r == inject_Z k * step) \/ r = min \/ r = max.

(** ** Predicates on the calls of the contours *)

(** A sample after clamping, as a rational. *)
Definition clamped (v : Q) : Prop := - (1000000) <= v <= 1000000.

(** The level lies on the edge from a corner of value [vA] to a corner of
    value [vB]: one corner is at or above it, the other below.  These are the
    edges the table of [drawContourSegment] uses for the index of the cell. *)
Definition straddles (level vA vB : Q) : Prop :=
  (level <= vA /\ vB < level) \/ (level <= vB /\ vA < level).

(** A [moveTo] or [lineTo] whose point is finite and lies in the rectangle
    from [(x0, y0)] to [(x1, y1)]; other calls pass. *)
Definition call_inside (x0 y0 x1 y1 : Q) (c : ctx_call) : Prop :=
  match c with
  | MoveTo a b | LineTo a b =>
      exists p q, a = Fin p /\ b = Fin q /\ x0 <= p <= x1 /\ y0 <= q <= y1
  | _ => True
  end.


Definition is_strokeStyle (c : ctx_call) : bool :=
  match c with SetStrokeStyle _ => true | _ => false end.

(** ** Binary64

    The interpolation of [drawContourSegment] (lines 669 to 675) and the
    [levels] loop of [drawPotentialContours] (lines 620 to 625) once more, on
    IEEE 754 binary64 numbers: what rounding and overflow do to them. *)

Module Binary64.

Definition of_nat (n : nat) : float := of_uint63 (Uint63.of_Z (Z.of_nat n)).

(** [a || b] on numbers: [a] unless it is falsy (zero or NaN). *)
Definition truthy (a : float) : bool :=
  negb (PrimFloat.eqb a 0%float) && negb (is_nan a).

Definition or_else (a b : float) : float := if truthy a then a else b.

Definition lerp (a b t : float) : float := (a + (b - a) * t)%float.

Definition crossing (size level vA vB : float) : float :=
  lerp 0%float size ((level - vA) / or_else (vB - vA) 1)%float.

Definition contourLevelList (mn mx : float) (n : nat) : list float :=
  let range := (mx - mn)%float in
  map (fun i => (mn + (range * of_nat i) / of_nat n)%float) (seq 1 (n - 1)).

End Binary64.

(** [r] is a square root of [v] up to the relative error [eta] on its
    square: what [Math.sqrt] returns for [v], exactly ([eta = 0]) or rounded
    (for binary64, [eta] of about 1e-15 covers the rounding of the root and
    of the argument). *)
Definition root_within (eta v r : Q) : Prop :=
  0 <= r /\ (1 - eta) * v <= r * r /\ r * r <= (1 + eta) * v.

(** The value [v] is away from the level by a thousandth of [R] or more. *)
Definition away (R level v : Q) : Prop :=
  level + R * (1 # 1000) <= v \/ v + R * (1 # 1000) <= level.

(** A segment whose endpoints are finite and at least [delta] apart in [x]
    or in [y]. *)
Definition apart (delta : Q) (seg : segment) : Prop :=
  let '(a, b, c, d) := seg in
  exists qa qb qc qd,
    a = Fin qa /\ b = Fin qb /\ c = Fin qc /\ d = Fin qd
    /\ (qa + delta <= qc \/ qc + delta <= qa
        \/ qb + delta <= qd \/ qd + delta <= qb).

(** * Properties *)

(** ** Arithmetic on finite numbers *)

Lemma edgeDenominator_Fin (a b : Q) :
  edgeDenominator (Fin a) (Fin b)
  = Fin (if Qeq_bool (b + - a) 0 then 1 else b + - a).
Proof.
  unfold edgeDenominator, or_else, truthy, one. simpl.
  destruct (Qeq_bool (b + - a) 0); reflexivity.
Qed.

Lemma edgeDenominator_nonzero (a b : Q) :
  ~ (if Qeq_bool (b + - a) 0 then 1 else b + - a) == 0.
Proof.
  destruct (Qeq_bool (b + - a) 0) eqn:E.
  - intro H. discriminate H.
  - intro H. apply Qeq_bool_neq in E. contradiction.
Qed.

Lemma edgeFraction_Fin (level a b : Q) :
  edgeFraction (Fin level) (Fin a) (Fin b)
  = Fin ((level + - a) / (if Qeq_bool (b + - a) 0 then 1 else b + - a)).
Proof.
  unfold edgeFraction. rewrite edgeDenominator_Fin. simpl.
  destruct (Qeq_bool (if Qeq_bool (b + - a) 0 then 1 else b + - a) 0) eqn:E.
  - apply Qeq_bool_eq in E. exfalso. exact (edgeDenominator_nonzero a b E).
  - reflexivity.
Qed.

Lemma crossing_Fin (size level a b : Q) :
  crossing (Fin size) (Fin level) (Fin a) (Fin b)
  = Fin (0 + (size + - 0)
             * ((level + - a) / (if Qeq_bool (b + - a) 0 then 1 else b + - a))).
Proof.
  unfold crossing, lerp. rewrite edgeFraction_Fin. reflexivity.
Qed.

(** ** The marching-squares table *)



Lemma drawSegments_calls (segs : list segment) (c : context) :
  fold_left drawSegment segs c
  = c ++ flat_map (fun '(x1, y1, x2, y2) => [MoveTo x1 y1; LineTo x2 y2]) segs.
Proof.
  revert c. induction segs as [|[[[x1 y1] x2] y2] segs IH]; intros c; cbn.
  - now rewrite app_nil_r.
  - rewrite IH. now rewrite <- app_assoc.
Qed.


(** ** Comparisons of finite numbers *)

Lemma lt_Fin (a b : Q) : lt (Fin a) (Fin b) = true <-> a < b.
Proof.
  unfold lt, cmp. rewrite Qlt_alt.
  destruct (a ?= b); split; congruence.
Qed.

Lemma gt_Fin (a b : Q) : gt (Fin a) (Fin b) = true <-> b < a.
Proof. unfold gt. apply lt_Fin. Qed.

Lemma ge_Fin (a b : Q) : ge (Fin a) (Fin b) = true <-> b <= a.
Proof.
  unfold ge, cmp. rewrite Qle_alt, <- (Qcompare_antisym a b).
  destruct (a ?= b); cbn; split; intros H; try congruence; try discriminate.
Qed.

Lemma lt_Fin_false (a b : Q) : lt (Fin a) (Fin b) = false <-> b <= a.
Proof.
  rewrite <- not_true_iff_false, lt_Fin. split; [apply Qnot_lt_le|apply Qle_not_lt].
Qed.

Lemma gt_Fin_false (a b : Q) : gt (Fin a) (Fin b) = false <-> a <= b.
Proof. unfold gt. apply lt_Fin_false. Qed.

Lemma ge_Fin_false (a b : Q) : ge (Fin a) (Fin b) = false <-> a < b.
Proof.
  rewrite <- not_true_iff_false, ge_Fin. split; [apply Qnot_le_lt|apply Qlt_not_le].
Qed.

Lemma Qfloor_unique (z : Z) (x : Q) :
  inject_Z z <= x -> x < inject_Z (z + 1) -> Qfloor x = z.
Proof.
  intros Hlo Hhi.
  pose proof (Qfloor_le x) as Hf. pose proof (Qlt_floor x) as Hg.
  assert (inject_Z (Qfloor x) < inject_Z (z + 1)) as H1
    by (eapply Qle_lt_trans; eassumption).
  assert (inject_Z z < inject_Z (Qfloor x + 1)) as H2
    by (eapply Qle_lt_trans; eassumption).
  rewrite <- Zlt_Qlt in H1, H2. lia.
Qed.

(** ** The colour map *)

Lemma colour_below_midpoint (t : Q) :
  t < 1 # 2 ->
  getScientificColor (Fin t)
  = Rgb (Fin (inject_Z (Qfloor (10 + t * 2 * 20 + (1 # 2)))))
        (Fin (inject_Z (Qfloor (10 + t * 2 * 20 + (1 # 2)))))
        (Fin (inject_Z (Qfloor (60 + (1 + - (t * 2)) * 132 + (1 # 2))))).
Proof.
  intros H. unfold getScientificColor.
  apply lt_Fin in H. rewrite H. reflexivity.
Qed.

(** C9.  The map sends 0 to the blue [rgb(10,10,192)] and 1 to the green
    [rgb(10,175,20)].  At the midpoint it is not continuous: at every [t]
    with [1/2 - 1/528 < t < 1/2] the output is [rgb(30,30,60)], while at
    [t = 1/2] it is [rgb(30,30,30)]; the red and green channels meet at 30,
    the blue channel drops from 60 to 30. *)
Theorem colour_map_jump_at_midpoint :
  forall t : Q,
    (1 # 2) - (1 # 528) < t -> t < 1 # 2 ->
    getScientificColor (Fin 0) = Rgb (Fin 10) (Fin 10) (Fin 192)
    /\ getScientificColor (Fin 1) = Rgb (Fin 10) (Fin 175) (Fin 20)
    /\ getScientificColor (Fin t) = Rgb (Fin 30) (Fin 30) (Fin 60)
    /\ getScientificColor (Fin (1 # 2)) = Rgb (Fin 30) (Fin 30) (Fin 30).
Proof.
  intros t Hlo Hhi.
  split; [reflexivity|]. split; [reflexivity|]. split; [|reflexivity].
  rewrite (colour_below_midpoint t Hhi).
  rewrite (Qfloor_unique 30 (10 + t * 2 * 20 + (1 # 2))).
  - rewrite (Qfloor_unique 60 (60 + (1 + - (t * 2)) * 132 + (1 # 2))).
    + reflexivity.
    + unfold inject_Z. lra.
    + change (inject_Z (60 + 1)) with 61. lra.
  - unfold inject_Z. lra.
  - change (inject_Z (30 + 1)) with 31. lra.
Qed.

Lemma colour_map_jump_at_midpoint_witness :
  getScientificColor (Fin (4999 # 10000)) = Rgb (Fin 30) (Fin 30) (Fin 60)
  /\ getScientificColor (Fin (1 # 2)) = Rgb (Fin 30) (Fin 30) (Fin 30).
Proof.
  destruct (colour_map_jump_at_midpoint (4999 # 10000)) as (_ & _ & H1 & H2).
  - reflexivity.
  - reflexivity.
  - split; assumption.
Defined.

(** ** Seeding the flow particles *)

Section Seeding.

Variable random : nat -> num.

Lemma spawn_lines (l : fieldLine) (count : nat) :
  forall ps calls,
    map line (fst (spawn random l count ps calls))
    = map line ps ++ repeat l count.
Proof.
  induction count as [|count IH]; intros ps calls; cbn.
  - now rewrite app_nil_r.
  - rewrite IH, map_app, <- app_assoc. reflexivity.
Qed.

Lemma seedLine_lines (st : list particle * nat) (l : fieldLine) :
  map line (fst (seedLine random st l))
  = map line (fst st) ++ seededLines l.
Proof.
  destruct st as [ps calls]. unfold seedLine, seededLines.
  destruct (List.length (points l) <? 2)%nat; cbn [fst].
  - now rewrite app_nil_r.
  - apply spawn_lines.
Qed.

Lemma seeding_lines (fieldLines : list fieldLine) :
  forall st,
    map line (fst (fold_left (seedLine random) fieldLines st))
    = map line (fst st) ++ flat_map seededLines fieldLines.
Proof.
  induction fieldLines as [|l ls IH]; intros st; cbn.
  - now rewrite app_nil_r.
  - rewrite IH, seedLine_lines, <- app_assoc. reflexivity.
Qed.

Lemma initFlowParticles_fields (r : EMRenderer) (fieldLines : list fieldLine) :
  flowParticles (initFlowParticles random r fieldLines)
  = fst (fold_left (seedLine random) fieldLines ([], randomCalls r))
  /\ ctx (initFlowParticles random r fieldLines) = ctx r.
Proof.
  unfold initFlowParticles.
  destruct (fold_left (seedLine random) fieldLines ([], randomCalls r)).
  split; reflexivity.
Qed.

Lemma initFlowParticles_lines (r : EMRenderer) (fieldLines : list fieldLine) :
  map line (flowParticles (initFlowParticles random r fieldLines))
  = flat_map seededLines fieldLines.
Proof.
  rewrite (proj1 (initFlowParticles_fields r fieldLines)).
  apply seeding_lines.
Qed.

Hypothesis random_range : forall k, unit_half_open (random k).

Lemma spawn_seeded (l : fieldLine) (count : nat) :
  forall ps calls,
    Forall particle_seeded ps ->
    Forall particle_seeded (fst (spawn random l count ps calls)).
Proof.
  induction count as [|count IH]; intros ps calls Hps; cbn; [assumption|].
  apply IH. apply Forall_app. split; [assumption|].
  constructor; [|constructor].
  destruct (random_range calls) as (p & Hp & Hp0 & Hp1).
  destruct (random_range (S calls)) as (s & Hs & Hs0 & Hs1).
  split; cbn [position speed].
  - exists p. auto.
  - rewrite Hs. cbn. eexists. split; [reflexivity|]. lra.
Qed.

Lemma seeding_seeded (fieldLines : list fieldLine) :
  forall st,
    Forall particle_seeded (fst st) ->
    Forall particle_seeded (fst (fold_left (seedLine random) fieldLines st)).
Proof.
  induction fieldLines as [|l ls IH]; intros st Hst; cbn; [assumption|].
  apply IH. destruct st as [ps calls]. unfold seedLine.
  destruct (List.length (points l) <? 2)%nat; [assumption|].
  apply spawn_seeded. assumption.
Qed.

Lemma initFlowParticles_seeded (r : EMRenderer) (fieldLines : list fieldLine) :
  Forall particle_seeded (flowParticles (initFlowParticles random r fieldLines)).
Proof.
  rewrite (proj1 (initFlowParticles_fields r fieldLines)).
  apply seeding_seeded. constructor.
Qed.

End Seeding.

Lemma Qceiling_div15 (n : nat) :
  Z.to_nat (Qceiling (inject_Z (Z.of_nat n) / 15)) = ((n + 14) / 15)%nat.
Proof.
  unfold Qceiling.
  assert (Qfloor (- (inject_Z (Z.of_nat n) / 15)) = (- Z.of_nat n) / 15)%Z as E.
  { unfold Qfloor, Qdiv, Qmult, Qopp, Qinv, inject_Z. cbn.
    rewrite Z.mul_1_r. reflexivity. }
  rewrite E.
  apply Nat2Z.inj. rewrite Nat2Z.inj_div, Nat2Z.inj_add.
  change (Z.of_nat 14) with 14%Z. change (Z.of_nat 15) with 15%Z.
  pose proof (Z.div_mod (- Z.of_nat n) 15 ltac:(lia)) as D1.
  pose proof (Z.mod_pos_bound (- Z.of_nat n) 15 ltac:(lia)) as B1.
  pose proof (Z.div_mod (Z.of_nat n + 14) 15 ltac:(lia)) as D2.
  pose proof (Z.mod_pos_bound (Z.of_nat n + 14) 15 ltac:(lia)) as B2.
  rewrite Z2Nat.id by lia. lia.
Qed.

(** C6.  Seeding spawns, for each line in order, [particleCount] particles
    bound to that line when the line has at least 2 points and none
    otherwise, where [particleCount n = min(8, ceil(n / 15))]; so the pool
    holds the sum of these counts, an empty list of lines gives an empty
    pool, and a line of 20 points gives 2 particles. *)
Theorem seeding_particle_counts :
  forall (random : nat -> num) (r : EMRenderer) (fieldLines : list fieldLine),
    let pool := flowParticles (initFlowParticles random r fieldLines) in
    map line pool = flat_map seededLines fieldLines
    /\ List.length pool
       = list_sum (map (fun l => List.length (seededLines l)) fieldLines)
    /\ (forall l, List.length (seededLines l)
                  = if (List.length (points l) <? 2)%nat then 0%nat
                    else Nat.min 8 ((List.length (points l) + 14) / 15))
    /\ flowParticles (initFlowParticles random r []) = []
    /\ particleCount 20 = 2%nat
    /\ List.length
         (flowParticles
            (initFlowParticles random r
               [mkLine (repeat (mkPoint zero zero) 20) true])) = 2%nat.
Proof.
  intros random r fieldLines pool.
  assert (map line pool = flat_map seededLines fieldLines) as H
    by apply initFlowParticles_lines.
  split; [exact H|]. split; [|split; [|repeat split; reflexivity]].
  - rewrite <- (length_map line), H.
    clear. induction fieldLines as [|l ls IH]; cbn; [reflexivity|].
    rewrite length_app, IH. reflexivity.
  - intros l. unfold seededLines.
    destruct (List.length (points l) <? 2)%nat; [reflexivity|].
    rewrite repeat_length. unfold particleCount.
    now rewrite Qceiling_div15.
Qed.

(** ** Advancing the flow particles *)

Lemma updateParticle_position (dt : num) (p : particle) :
  position (updateParticle dt p)
  = if gt (position p + speed p * dt)%num one then zero
    else (position p + speed p * dt)%num.
Proof. reflexivity. Qed.

Lemma updateParticle_ok (dt : num) (p : particle) :
  ge dt zero = true -> particle_ok p -> particle_ok (updateParticle dt p).
Proof.
  intros Hdt [(q & Hq & Hq0 & Hq1) (s & Hs & Hs0 & Hs1)].
  split; [|exists s; split; [exact Hs|split; assumption]].
  rewrite updateParticle_position, Hq, Hs.
  destruct dt as [d| | |]; try discriminate Hdt.
  - apply ge_Fin in Hdt. cbn [add mul].
    destruct (gt (Fin (q + s * d)) one) eqn:G.
    + exists 0. split; [reflexivity|lra].
    + apply gt_Fin_false in G. exists (q + s * d).
      split; [reflexivity|]. split; [nra|exact G].
  - assert ((s ?= 0) = Gt) as Sg by (apply Qgt_alt; lra).
    cbn. rewrite Sg. cbn. exists 0. split; [reflexivity|lra].
Qed.

Lemma particle_seeded_ok (p : particle) : particle_seeded p -> particle_ok p.
Proof.
  intros [(q & Hq & H0 & H1) Hs]. split; [|exact Hs].
  exists q. split; [exact Hq|]. split; [exact H0|]. apply Qlt_le_weak, H1.
Qed.

Lemma updateFlowParticles_ok (dts : list num) :
  Forall (fun dt => ge dt zero = true) dts ->
  forall r0,
    Forall particle_ok (flowParticles r0) ->
    Forall particle_ok (flowParticles (fold_left updateFlowParticles dts r0)).
Proof.
  induction 1 as [|dt dts Hdt _ IH]; intros r0 Hok; cbn [fold_left];
    [exact Hok|].
  apply IH. unfold updateFlowParticles. cbn [flowParticles set_flowParticles].
  apply Forall_map. eapply Forall_impl; [|exact Hok].
  intros p Hp. apply (updateParticle_ok dt p Hdt Hp).
Qed.

(** C7, as the code has it.  Seeding places every position in [0,1) and
    every speed in [0.3,0.7).  Advancing by [dt] sets each position to
    [position + speed * dt], or to 0 when that sum is greater than 1; a sum
    of exactly 1 is kept.  So after any sequence of advances by steps
    [dt >= 0], from a seeded pool or from any pool whose positions are in the
    closed interval [0,1], every position is in [0,1]. *)
Theorem flow_positions_stay_in_closed_unit_interval :
  forall (random : nat -> num) (r r0 : EMRenderer)
         (fieldLines : list fieldLine) (dt : num) (dts : list num),
    (forall k, unit_half_open (random k)) ->
    Forall (fun dt => ge dt zero = true) dts ->
    Forall particle_ok (flowParticles r0) ->
    Forall (fun p => unit_half_open (position p) /\ seed_speed (speed p))
      (flowParticles (initFlowParticles random r fieldLines))
    /\ map position (flowParticles (updateFlowParticles r0 dt))
       = map (fun p => if gt (position p + speed p * dt)%num one then zero
                       else (position p + speed p * dt)%num)
           (flowParticles r0)
    /\ Forall (fun p => unit_closed (position p) /\ seed_speed (speed p))
         (flowParticles (fold_left updateFlowParticles dts r0))
    /\ Forall (fun p => unit_closed (position p) /\ seed_speed (speed p))
         (flowParticles
            (fold_left updateFlowParticles dts
               (initFlowParticles random r fieldLines))).
Proof.
  intros random r r0 fieldLines dt dts Hrand Hdts Hok.
  pose proof (initFlowParticles_seeded random Hrand r fieldLines) as Hseed.
  split; [exact Hseed|]. split; [|split].
  - unfold updateFlowParticles. cbn [flowParticles set_flowParticles].
    rewrite map_map. reflexivity.
  - apply (updateFlowParticles_ok dts Hdts r0 Hok).
  - apply (updateFlowParticles_ok dts Hdts).
    eapply Forall_impl; [|exact Hseed]. exact particle_seeded_ok.
Qed.

Lemma flow_positions_stay_in_closed_unit_interval_witness :
  let r0 := mkRenderer [] (Fin 800) (Fin 600)
              [mkParticle (mkLine [] true) (Fin (1 # 2)) (Fin (1 # 2)) true]
              12 0 in
  Forall2 eqv (map position (flowParticles (updateFlowParticles r0 (Fin 1))))
    [Fin 1]
  /\ Forall (fun p => unit_closed (position p) /\ seed_speed (speed p))
       (flowParticles
          (fold_left updateFlowParticles [Fin 1; Fin (1 # 4); PInf] r0)).
Proof.
  intros r0.
  destruct (flow_positions_stay_in_closed_unit_interval
              (fun _ => Fin (1 # 2)) r0 r0 [] (Fin 1)
              [Fin 1; Fin (1 # 4); PInf]) as (_ & H1 & H2 & _).
  - intros k. exists (1 # 2). split; [reflexivity|lra].
  - repeat constructor.
  - constructor; [|constructor]. split.
    + exists (1 # 2). split; [reflexivity|]. cbn. lra.
    + exists (1 # 2). split; [reflexivity|]. cbn. lra.
  - split; [|exact H2]. rewrite H1. repeat constructor.
Defined.

(** C7 as stated fails: a particle at position 1/2 with speed 1/2, both as
    seeding can produce them, advanced by [dt = 1], lands on exactly 1, which
    is not greater than 1 and so is kept; 1 is outside [0,1). *)
Lemma position_reaches_one :
  let p := mkParticle (mkLine [] true) (Fin (1 # 2)) (Fin (1 # 2)) true in
  unit_half_open (position p) /\ seed_speed (speed p)
  /\ ge (Fin 1) zero = true
  /\ eqv (position (updateParticle (Fin 1) p)) (Fin 1)
  /\ ~ unit_half_open (position (updateParticle (Fin 1) p)).
Proof.
  cbn zeta. split; [|split; [|split; [|split]]].
  - exists (1 # 2). split; [reflexivity|]. cbn. lra.
  - exists (1 # 2). split; [reflexivity|]. cbn. lra.
  - reflexivity.
  - reflexivity.
  - intros (q & Hq & _ & Hlt). vm_compute in Hq.
    injection Hq as <-. vm_compute in Hlt. discriminate Hlt.
Qed.

(** C8, as the code has it.  When [position + speed * dt] is greater than 1
    the position becomes exactly 0; the excess over 1 is dropped. *)
Theorem advance_past_one_restarts_at_zero :
  forall (dt : num) (p : particle),
    gt (position p + speed p * dt)%num one = true ->
    position (updateParticle dt p) = zero.
Proof.
  intros dt p H. rewrite updateParticle_position, H. reflexivity.
Qed.

Lemma advance_past_one_restarts_at_zero_witness :
  position
    (updateParticle (Fin (2 # 10))
       (mkParticle (mkLine [] true) (Fin (95 # 100)) (Fin (5 # 10)) true))
  = zero.
Proof.
  apply advance_past_one_restarts_at_zero. reflexivity.
Defined.

(** C8 as stated fails on its own example: position 0.95, speed 0.5,
    [dt = 0.2] gives the raw position 1.05 and the code stores 0, not 0.05. *)
Lemma wrap_is_not_modular :
  let p := mkParticle (mkLine [] true) (Fin (95 # 100)) (Fin (5 # 10)) true in
  let dt := Fin (2 # 10) in
  eqv (position p + speed p * dt)%num (Fin (105 # 100))
  /\ position (updateParticle dt p) = Fin 0
  /\ ~ eqv (position (updateParticle dt p)) (Fin (5 # 100)).
Proof.
  cbn zeta. split; [reflexivity|]. split; [reflexivity|].
  intros H. vm_compute in H. discriminate H.
Qed.

(** ** Drawing the flow particles *)

Lemma pointAt_integer (pts : list point) (w : Q) (z : Z) :
  w == inject_Z z -> (0 <= z < Z.of_nat (List.length pts))%Z ->
  exists pt, pointAt pts (Fin w) = Some pt.
Proof.
  intros Hw Hz. unfold pointAt.
  assert (Qfloor w = z) as F by (rewrite Hw; apply Qfloor_Z).
  rewrite F.
  assert (Qle_bool 0 w = true) as L.
  { apply Qle_bool_iff. rewrite Hw. change 0 with (inject_Z 0).
    rewrite <- Zle_Qle. lia. }
  assert (Qeq_bool w (inject_Z z) = true) as E by (apply Qeq_bool_iff; exact Hw).
  rewrite L, E. cbn [andb].
  destruct (nth_error pts (Z.to_nat z)) as [pt|] eqn:N; [now exists pt|].
  apply nth_error_None in N. lia.
Qed.

Lemma inject_Z_succ (z : Z) : inject_Z z + 1 == inject_Z (z + 1).
Proof. now rewrite inject_Z_plus. Qed.

Lemma inject_Z_pred (z : Z) : inject_Z z + - (1) == inject_Z (z - 1).
Proof. unfold Z.sub. now rewrite inject_Z_plus. Qed.

Lemma scaled_position_bounds (q m : Q) :
  0 <= q -> q <= 1 -> 1 <= m ->
  0 <= q * (m + - (1)) /\ q * (m + - (1)) <= m + - (1).
Proof.
  intros H0 H1 Hm.
  assert (0 <= q * (m + - (1))) as P1 by (apply Qmult_le_0_compat; lra).
  assert (0 <= (1 - q) * (m + - (1))) as P2 by (apply Qmult_le_0_compat; lra).
  split; lra.
Qed.

Section Drawing.

Variable Math_atan2 : num -> num -> num.
Variable Math_cos : num -> num.
Variable Math_sin : num -> num.

Lemma drawDash_returns (c : context) (p : particle) :
  (2 <= List.length (points (line p)))%nat ->
  unit_closed (position p) ->
  exists c', drawDash Math_atan2 Math_cos Math_sin c p = Some c'.
Proof.
  intros Hlen (q & Hq & Hq0 & Hq1). unfold drawDash.
  set (pts := points (line p)) in *.
  set (n := Z.of_nat (List.length pts)).
  assert (2 <= n)%Z as Hn by (subst n; lia).
  rewrite Hq. cbn [of_nat sub add neg one mul Math_floor].
  fold n.
  set (w := q * (inject_Z n + - (1))).
  set (z := Qfloor w).
  assert (0 <= w /\ w <= inject_Z (n - 1)) as [Hw0 Hw1].
  { subst w.
    assert (2 <= inject_Z n) as Hn'
      by (change 2 with (inject_Z 2); rewrite <- Zle_Qle; exact Hn).
    unfold Z.sub. rewrite inject_Z_plus. change (inject_Z (-1)) with (-(1)).
    apply scaled_position_bounds; lra. }
  assert (0 <= z <= n - 1)%Z as Hz.
  { subst z. split.
    - apply (Qfloor_resp_le 0 w) in Hw0. exact Hw0.
    - apply Qfloor_resp_le in Hw1. rewrite Qfloor_Z in Hw1. exact Hw1. }
  destruct (pointAt_integer pts (inject_Z z) z) as [a Ha];
    [reflexivity|subst n; lia|].
  rewrite Ha.
  assert (exists w' z', Math_min (Fin (inject_Z z + 1)) (Fin (inject_Z n + - (1)))
                        = Fin w'
                        /\ w' == inject_Z z' /\ (0 <= z' <= n - 1)%Z)
    as (w' & z' & Hm & Hw' & Hz').
  { unfold Math_min, cmp.
    destruct (inject_Z z + 1 ?= inject_Z n + - (1)) eqn:C.
    - exists (inject_Z z + 1), (z + 1)%Z. split; [reflexivity|].
      split; [apply inject_Z_succ|].
      apply Qeq_alt in C. rewrite inject_Z_succ, inject_Z_pred in C.
      apply -> inject_Z_injective in C. lia.
    - exists (inject_Z z + 1), (z + 1)%Z. split; [reflexivity|].
      split; [apply inject_Z_succ|].
      apply Qlt_alt in C. rewrite inject_Z_succ, inject_Z_pred in C.
      rewrite <- Zlt_Qlt in C. lia.
    - exists (inject_Z n + - (1)), (n - 1)%Z. split; [reflexivity|].
      split; [apply inject_Z_pred|lia]. }
  rewrite Hm.
  destruct (pointAt_integer pts w' z' Hw') as [b Hb]; [subst n; lia|].
  rewrite Hb. eexists. reflexivity.
Qed.

Lemma drawDashes_returns (ps : list particle) :
  Forall particle_ok ps ->
  forall c, snd (drawDashes Math_atan2 Math_cos Math_sin c ps) = Returned.
Proof.
  induction 1 as [|p ps [Hp _] _ IH]; intros c; cbn [drawDashes];
    [reflexivity|].
  destruct (List.length (points (line p)) <? 2)%nat eqn:L; [apply IH|].
  apply Nat.ltb_ge in L.
  destruct (drawDash_returns c p L Hp) as [c' ->]. apply IH.
Qed.

End Drawing.

(** C10.  Called with an empty pool and a non-empty list of lines,
    [drawFlowParticles] (and [drawFieldLines], which only forwards to it)
    draws the faint paths, then seeds the pool exactly as [initFlowParticles]
    does on those lines, consuming the same random numbers, and then draws
    the dashes of the seeded particles; with [Math.random] in [0,1) every
    dash is drawn and the call returns. *)
Theorem draw_seeds_an_empty_pool :
  forall (random : nat -> num) (Math_atan2 : num -> num -> num)
         (Math_cos Math_sin : num -> num)
         (r : EMRenderer) (fieldLines : list fieldLine),
    (forall k, unit_half_open (random k)) ->
    flowParticles r = [] ->
    fieldLines <> [] ->
    let seeded := initFlowParticles random r fieldLines in
    let res := drawFlowParticles random Math_atan2 Math_cos Math_sin r fieldLines in
    flowParticles (fst res) = flowParticles seeded
    /\ randomCalls (fst res) = randomCalls seeded
    /\ (ctx (fst res), snd res)
       = drawDashes Math_atan2 Math_cos Math_sin
           (fold_left drawPath fieldLines (ctx r)) (flowParticles seeded)
    /\ snd res = Returned
    /\ drawFieldLines random Math_atan2 Math_cos Math_sin r fieldLines = res.
Proof.
  intros random Math_atan2 Math_cos Math_sin r fieldLines Hrand Hpool Hlines
         seeded res.
  assert (res = (let '(c, o) :=
                   drawDashes Math_atan2 Math_cos Math_sin
                     (fold_left drawPath fieldLines (ctx r)) (flowParticles seeded)
                 in (set_ctx (set_flowParticles r (flowParticles seeded)
                                (randomCalls seeded)) c, o))) as E.
  { subst res seeded. destruct r as [c0 w h fp n k].
    cbn in Hpool. subst fp.
    destruct fieldLines as [|l ls]; [contradiction|].
    unfold drawFlowParticles, initFlowParticles, set_ctx, set_flowParticles.
    cbn [flowParticles ctx width height contourLevels randomCalls
         List.length Nat.eqb Nat.ltb Nat.leb andb].
    destruct (fold_left (seedLine random) (l :: ls) ([], k)) as [ps calls].
    cbn [flowParticles ctx width height contourLevels randomCalls].
    destruct (drawDashes Math_atan2 Math_cos Math_sin
                (fold_left drawPath (l :: ls) c0) ps); reflexivity. }
  pose proof (drawDashes_returns Math_atan2 Math_cos Math_sin
                (flowParticles seeded)
                (Forall_impl _ particle_seeded_ok
                   (initFlowParticles_seeded random Hrand r fieldLines))
                (fold_left drawPath fieldLines (ctx r))) as Hret.
  rewrite E.
  destruct (drawDashes Math_atan2 Math_cos Math_sin
              (fold_left drawPath fieldLines (ctx r)) (flowParticles seeded))
    as [c o].
  cbn in Hret |- *. repeat split; try reflexivity; try exact Hret.
  unfold drawFieldLines. fold res. exact E.
Qed.

(** ** Loops that end *)

Lemma fold_left_Some {A B : Type} (f : B -> A -> A) (l : list B) :
  forall (body : B -> A -> option A) (a : A),
    (forall i s, body i s = Some (f i s)) ->
    fold_left (fun acc i => match acc with Some s => body i s | None => None end)
      l (Some a)
    = Some (fold_left (fun s i => f i s) l a).
Proof.
  induction l as [|i l IH]; intros body a Hbody; cbn; [reflexivity|].
  rewrite Hbody. apply IH, Hbody.
Qed.

Lemma for_returns {A : Type} (n : num) (k : nat) (f : nat -> A -> A)
    (body : nat -> A -> option A) (a : A) :
  iterations n = Some k ->
  (forall i s, body i s = Some (f i s)) ->
  for_ n body a = Some (fold_left (fun s i => f i s) (seq 0 k) a).
Proof.
  intros Hn Hbody. unfold for_. rewrite Hn. apply fold_left_Some, Hbody.
Qed.

Lemma fold_left_None {A B : Type} (body : B -> A -> option A) (l : list B) :
  fold_left (fun acc i => match acc with Some s => body i s | None => None end)
    l None
  = None.
Proof. induction l as [|i l IH]; cbn; [reflexivity|exact IH]. Qed.

(** A property kept by every iteration that returns holds after a loop that
    returns. *)
Lemma for_invariant {A : Type} (P : A -> Prop) (n : num)
    (body : nat -> A -> option A) :
  (forall i s s', P s -> body i s = Some s' -> P s') ->
  forall a s, P a -> for_ n body a = Some s -> P s.
Proof.
  intros Hstep a s Ha. unfold for_.
  destruct (iterations n) as [k|]; [|discriminate].
  generalize (seq 0 k). intros l. revert a Ha.
  induction l as [|i l IH]; intros a Ha; cbn.
  - intros E. injection E as <-. exact Ha.
  - destruct (body i a) as [s'|] eqn:B.
    + apply IH. exact (Hstep i a s' Ha B).
    + rewrite fold_left_None. discriminate.
Qed.

Lemma fold_left_app_flat_map {A B : Type} (F : B -> list A) (l : list B) :
  forall c, fold_left (fun c i => c ++ F i) l c = c ++ flat_map F l.
Proof.
  induction l as [|i l IH]; intros c; cbn.
  - now rewrite app_nil_r.
  - rewrite IH, <- app_assoc. reflexivity.
Qed.

Lemma segmentCalls_app (s1 s2 : list segment) :
  segmentCalls (s1 ++ s2) = segmentCalls s1 ++ segmentCalls s2.
Proof. unfold segmentCalls. apply flat_map_app. Qed.

Lemma segmentCalls_flat_map {B : Type} (F : B -> list segment) (l : list B) :
  segmentCalls (flat_map F l) = flat_map (fun i => segmentCalls (F i)) l.
Proof.
  induction l as [|i l IH]; cbn; [reflexivity|].
  now rewrite segmentCalls_app, IH.
Qed.

(** ** The calls made by the marching loops *)

Lemma marchCell_calls (g : list (list num)) (resolution level : num)
    (j i : nat) (c : context) :
  marchCell g resolution level j i c
  = c ++ segmentCalls (cellSegments g resolution level j i).
Proof.
  unfold marchCell, drawContourSegment, cellSegments, segmentCalls.
  apply drawSegments_calls.
Qed.

Lemma marchLevel_calls (g : list (list num)) (resolution cols rows level : num)
    (kx ky : nat) (c : context) :
  iterations (cols - one) = Some kx ->
  iterations (rows - one) = Some ky ->
  marchLevel g resolution cols rows level c
  = Some (c ++ segmentCalls (levelSegments g resolution kx ky level)).
Proof.
  intros Hx Hy. unfold marchLevel.
  rewrite (for_returns (rows - one) ky
             (fun j c => c ++ flat_map (fun i => segmentCalls
                                          (cellSegments g resolution level j i))
                           (seq 0 kx))).
  - rewrite fold_left_app_flat_map. unfold levelSegments.
    rewrite segmentCalls_flat_map. f_equal. f_equal.
    apply flat_map_ext. intros j. now rewrite segmentCalls_flat_map.
  - exact Hy.
  - intros j c'.
    rewrite (for_returns (cols - one) kx
               (fun i c => c ++ segmentCalls (cellSegments g resolution level j i)));
      [|exact Hx|intros i s; now rewrite marchCell_calls].
    now rewrite fold_left_app_flat_map.
Qed.

Lemma drawLevels_calls (s : sampling) (resolution cols rows : num)
    (kx ky : nat) (levels : list num) :
  iterations (cols - one) = Some kx ->
  iterations (rows - one) = Some ky ->
  forall c,
    drawLevels s resolution cols rows levels c
    = Some (c ++ contourCalls (minV s) (maxV s)
                   (computeContours (potentialGrid s) resolution kx ky levels)).
Proof.
  intros Hx Hy c. unfold drawLevels.
  rewrite (fold_left_Some
             (fun level c =>
                c ++ ([SetStrokeStyle (Hsla (levelHue (minV s) (maxV s) level));
                       BeginPath]
                      ++ segmentCalls
                           (levelSegments (potentialGrid s) resolution kx ky level)
                      ++ [Stroke]))).
  - rewrite fold_left_app_flat_map. unfold contourCalls, computeContours.
    apply (f_equal (fun l => Some (c ++ l))).
    clear. induction levels as [|level levels IH]; cbn [flat_map map];
      [reflexivity|].
    now rewrite IH.
  - intros level c'. unfold drawLevel.
    rewrite (marchLevel_calls _ _ _ _ _ kx ky _ Hx Hy).
    unfold levelHue. rewrite <- !app_assoc. reflexivity.
Qed.

(** ** Sampling the potential *)

Lemma clampSample_Fin (V : num) :
  exists v, clampSample V = Fin v /\ - (1000000) <= v <= 1000000.
Proof.
  unfold clampSample.
  assert (forall q, exists v,
             Math_max (Fin (-1000000)) (Math_min (Fin 1000000) (Fin q)) = Fin v
             /\ - (1000000) <= v <= 1000000) as H.
  { intros q. unfold Math_min, cmp.
    destruct (1000000 ?= q) eqn:C1; unfold Math_max, cmp.
    - exists 1000000. split; [reflexivity|lra].
    - exists 1000000. split; [reflexivity|lra].
    - apply Qgt_alt in C1.
      destruct (-1000000 ?= q) eqn:C2.
      + apply Qeq_alt in C2. exists (-1000000). split; [reflexivity|lra].
      + apply Qlt_alt in C2. exists q. split; [reflexivity|lra].
      + apply Qgt_alt in C2. exists (-1000000). split; [reflexivity|lra]. }
  destruct V; cbn [isFinite]; apply H.
Qed.

Lemma runMin_finite (vs : list num) :
  Forall (fun V => isFinite V = true) vs ->
  forall m, exists a, runMin (Fin m) vs = Fin a /\ a <= m.
Proof.
  induction 1 as [|V vs HV _ IH]; intros m; cbn.
  - exists m. split; [reflexivity|lra].
  - destruct V as [v| | |]; try discriminate HV.
    destruct (lt (Fin v) (Fin m)) eqn:L.
    + apply lt_Fin in L. destruct (IH v) as (a & Ha & Hle).
      exists a. split; [exact Ha|lra].
    + apply IH.
Qed.

Lemma runMax_finite (vs : list num) :
  Forall (fun V => isFinite V = true) vs ->
  forall m, exists b, runMax (Fin m) vs = Fin b /\ m <= b.
Proof.
  induction 1 as [|V vs HV _ IH]; intros m; cbn.
  - exists m. split; [reflexivity|lra].
  - destruct V as [v| | |]; try discriminate HV.
    destruct (gt (Fin v) (Fin m)) eqn:L.
    + apply gt_Fin in L. destruct (IH v) as (b & Hb & Hle).
      exists b. split; [exact Hb|lra].
    + apply IH.
Qed.

(** Over a non-empty list of finite samples the running extrema are finite
    and ordered. *)
Lemma extrema_finite (vs : list num) :
  Forall (fun V => isFinite V = true) vs -> vs <> [] ->
  exists a b, runMin PInf vs = Fin a /\ runMax NInf vs = Fin b /\ a <= b.
Proof.
  intros H Hne. destruct vs as [|V vs]; [contradiction|].
  inversion H as [|V' vs' HV Hvs]; subst.
  destruct V as [v| | |]; try discriminate HV. cbn.
  destruct (runMin_finite vs Hvs v) as (a & Ha & Hle).
  destruct (runMax_finite vs Hvs v) as (b & Hb & Hge).
  exists a, b. split; [exact Ha|]. split; [exact Hb|lra].
Qed.

Section Sampling.

Variable potentialAt : num -> num -> num.
Variable resolution : num.

Lemma sampleAt_finite (j i : nat) :
  isFinite (sampleAt potentialAt resolution j i) = true.
Proof.
  unfold sampleAt.
  destruct (clampSample_Fin
              (potentialAt (of_nat i * resolution) (of_nat j * resolution))%num)
    as (v & -> & _).
  reflexivity.
Qed.

Lemma sampleCells_fold (j : nat) (l : list nat) :
  forall row mn mx,
    fold_left (fun st i => sampleCell potentialAt resolution j i st) l
      (row, mn, mx)
    = (row ++ map (sampleAt potentialAt resolution j) l,
       runMin mn (map (sampleAt potentialAt resolution j) l),
       runMax mx (map (sampleAt potentialAt resolution j) l)).
Proof.
  induction l as [|i l IH]; intros row mn mx; cbn.
  - now rewrite app_nil_r.
  - unfold setLast. rewrite IH, <- app_assoc. reflexivity.
Qed.

Lemma sampleRow_returns (cols : num) (nc j : nat) (s : sampling) :
  iterations cols = Some nc ->
  sampleRow potentialAt resolution cols j s
  = Some (mkSampling
            (potentialGrid s ++ [sampledRow potentialAt resolution nc j])
            (runMin (minV s) (sampledRow potentialAt resolution nc j))
            (runMax (maxV s) (sampledRow potentialAt resolution nc j))).
Proof.
  intros Hc. unfold sampleRow.
  rewrite (for_returns cols nc (sampleCell potentialAt resolution j)
             _ _ Hc (fun i st => eq_refl)).
  rewrite sampleCells_fold. reflexivity.
Qed.

Lemma sampleRows_fold (nc : nat) (l : list nat) :
  forall s,
    fold_left
      (fun s j =>
         mkSampling
           (potentialGrid s ++ [sampledRow potentialAt resolution nc j])
           (runMin (minV s) (sampledRow potentialAt resolution nc j))
           (runMax (maxV s) (sampledRow potentialAt resolution nc j)))
      l s
    = mkSampling
        (potentialGrid s ++ map (sampledRow potentialAt resolution nc) l)
        (runMin (minV s)
           (List.concat (map (sampledRow potentialAt resolution nc) l)))
        (runMax (maxV s)
           (List.concat (map (sampledRow potentialAt resolution nc) l))).
Proof.
  induction l as [|j l IH]; intros s; cbn [fold_left map List.concat].
  - destruct s. cbn. now rewrite app_nil_r.
  - rewrite IH. cbn [potentialGrid minV maxV].
    unfold runMin, runMax. rewrite !fold_left_app, <- app_assoc. reflexivity.
Qed.

Lemma samplePotential_returns (cols rows : num) (nc nr : nat) :
  iterations cols = Some nc ->
  iterations rows = Some nr ->
  samplePotential potentialAt resolution cols rows
  = Some (mkSampling
            (sampledGrid potentialAt resolution nc nr)
            (runMin PInf (List.concat (sampledGrid potentialAt resolution nc nr)))
            (runMax NInf (List.concat (sampledGrid potentialAt resolution nc nr)))).
Proof.
  intros Hc Hr. unfold samplePotential.
  rewrite (for_returns rows nr _ _ _ Hr
             (fun j s => sampleRow_returns cols nc j s Hc)).
  rewrite sampleRows_fold. reflexivity.
Qed.

Lemma sampledGrid_finite (nc nr : nat) :
  Forall (fun V => isFinite V = true)
    (List.concat (sampledGrid potentialAt resolution nc nr)).
Proof.
  apply Forall_concat. unfold sampledGrid, sampledRow.
  apply Forall_map, Forall_forall. intros j _.
  apply Forall_map, Forall_forall. intros i _. apply sampleAt_finite.
Qed.

Lemma gridAt_sampled (nc nr j i : nat) :
  (j < nr)%nat -> (i < nc)%nat ->
  gridAt (sampledGrid potentialAt resolution nc nr) j i
  = sampleAt potentialAt resolution j i.
Proof.
  intros Hj Hi. unfold gridAt, sampledGrid.
  rewrite (nth_indep _ [] (sampledRow potentialAt resolution nc 0))
    by (rewrite length_map, length_seq; exact Hj).
  rewrite map_nth, seq_nth by exact Hj. cbn [Nat.add].
  unfold sampledRow.
  rewrite (nth_indep _ NaN (sampleAt potentialAt resolution j 0))
    by (rewrite length_map, length_seq; exact Hi).
  rewrite map_nth, seq_nth by exact Hi. reflexivity.
Qed.




End Sampling.

(** ** Loop bounds of a finite surface *)

Lemma Math_ceil_div_Fin (w d : Q) :
  ~ d == 0 ->
  Math_ceil (Fin w / Fin d) = Fin (inject_Z (Qceiling (w / d))).
Proof.
  intros Hd. cbn [div].
  destruct (Qeq_bool d 0) eqn:E; [apply Qeq_bool_eq in E; contradiction|].
  reflexivity.
Qed.

Lemma iterations_samples (w d : Q) :
  ~ d == 0 ->
  iterations (Math_ceil (Fin w / Fin d)) = Some (Z.to_nat (Qceiling (w / d))).
Proof.
  intros Hd. rewrite (Math_ceil_div_Fin w d Hd). unfold iterations.
  now rewrite Qceiling_Z.
Qed.

Lemma iterations_cells (w d : Q) :
  ~ d == 0 ->
  iterations (Math_ceil (Fin w / Fin d) - one) = Some (Z.to_nat (Qceiling (w / d)) - 1)%nat.
Proof.
  intros Hd. rewrite (Math_ceil_div_Fin w d Hd).
  cbn [sub add neg one iterations].
  rewrite (Qceiling_comp _ _ (inject_Z_pred (Qceiling (w / d)))), Qceiling_Z.
  f_equal. lia.
Qed.

(** What [drawPotentialContours] does on a surface of finite size with a
    non-zero resolution: it returns, and either leaves the renderer as it was
    (flat field) or appends the calls of the contours of every level. *)
Lemma drawPotentialContours_calls (potentialAt : num -> num -> num)
    (r : EMRenderer) (w h d : Q) :
  width r = Fin w -> height r = Fin h -> ~ d == 0 ->
  let nc := Z.to_nat (Qceiling (w / d)) in
  let nr := Z.to_nat (Qceiling (h / d)) in
  let g := sampledGrid potentialAt (Fin d) nc nr in
  let mn := runMin PInf (List.concat g) in
  let mx := runMax NInf (List.concat g) in
  drawPotentialContours potentialAt r (Fin d)
  = Some (if strict_eq mx mn then r
          else set_ctx r
                 (ctx r ++ [SetLineWidth one; SetLineCap "square"]
                  ++ contourCalls mn mx
                       (computeContours g (Fin d) (nc - 1) (nr - 1)
                          (contourLevelList mn mx (contourLevels r))))).
Proof.
  intros Hw Hh Hd nc nr g mn mx. unfold drawPotentialContours, drawContoursOver.
  rewrite Hw, Hh.
  rewrite (samplePotential_returns potentialAt (Fin d) _ _ nc nr
             (iterations_samples w d Hd) (iterations_samples h d Hd)).
  cbn [minV maxV potentialGrid]. fold g. fold mn. fold mx.
  destruct (strict_eq mx mn); [reflexivity|].
  rewrite (drawLevels_calls _ (Fin d) _ _ (nc - 1) (nr - 1) _
             (iterations_cells w d Hd) (iterations_cells h d Hd)).
  cbn [minV maxV potentialGrid]. rewrite <- !app_assoc. reflexivity.
Qed.

(** ** Flat fields *)

(** C3.  Whenever the sampled grid has equal minimum and maximum,
    [drawPotentialContours] (and [drawPotentialField], which forwards to it)
    returns with the renderer unchanged: nothing is drawn, no level and no
    segment, whatever [contourLevels] is. *)
Theorem flat_field_draws_nothing :
  forall (potentialAt : num -> num -> num) (r : EMRenderer)
         (resolution : num) (s : sampling),
    samplePotential potentialAt resolution
      (Math_ceil (width r / resolution)) (Math_ceil (height r / resolution))
    = Some s ->
    strict_eq (maxV s) (minV s) = true ->
    drawPotentialContours potentialAt r resolution = Some r
    /\ drawPotentialField potentialAt r resolution = Some r.
Proof.
  intros potentialAt r resolution s Hs Hflat.
  unfold drawPotentialField, drawPotentialContours, drawContoursOver.
  rewrite Hs, Hflat. split; reflexivity.
Qed.

Lemma flat_field_draws_nothing_witness :
  let r := mkRenderer [] (Fin 16) (Fin 16) [] 12 0 in
  drawPotentialContours (fun _ _ => Fin 5) r defaultResolution = Some r
  /\ drawPotentialField (fun _ _ => Fin 5) r defaultResolution = Some r.
Proof.
  intros r.
  apply (flat_field_draws_nothing (fun _ _ => Fin 5) r defaultResolution
           (mkSampling [[Fin 5; Fin 5]; [Fin 5; Fin 5]] (Fin 5) (Fin 5)));
    reflexivity.
Defined.

(** ** Contour levels *)

Lemma Forall2_map_self {A B : Type} (P : A -> B -> Prop) (f : A -> B)
    (l : list A) :
  (forall x, In x l -> P x (f x)) -> Forall2 P l (map f l).
Proof.
  induction l as [|x l IH]; intros H; cbn; constructor.
  - apply H. now left.
  - apply IH. intros y Hy. apply H. now right.
Qed.

Lemma of_nat_nonzero (n : nat) :
  (1 <= n)%nat -> Qeq_bool (inject_Z (Z.of_nat n)) 0 = false.
Proof.
  intros Hn. apply not_true_iff_false. intros E. apply Qeq_bool_eq in E.
  change 0 with (inject_Z 0) in E. apply -> inject_Z_injective in E. lia.
Qed.

Lemma level_Fin (a b : Q) (n i : nat) :
  (1 <= n)%nat ->
  (Fin a + ((Fin b - Fin a) * of_nat i) / of_nat n)%num
  = Fin (a + ((b + - a) * inject_Z (Z.of_nat i)) / inject_Z (Z.of_nat n)).
Proof.
  intros Hn. cbn. now rewrite (of_nat_nonzero n Hn).
Qed.


Lemma iterations_pred (n : num) :
  n <> PInf -> exists k, iterations (n - one) = Some k.
Proof.
  destruct n as [q| | |]; intros Hn; cbn; eauto. congruence.
Qed.

Lemma sampled_bounds_end (potentialAt : num -> num -> num)
    (resolution cols rows : num) (s : sampling) :
  samplePotential potentialAt resolution cols rows = Some s ->
  lt (minV s) (maxV s) = true ->
  cols <> PInf /\ rows <> PInf.
Proof.
  intros Hs Hlt. unfold samplePotential, for_ in Hs.
  destruct (iterations rows) as [nr|] eqn:Er; [|discriminate Hs].
  split; [|intros ->; discriminate Er].
  intros ->. destruct nr as [|nr].
  - cbn in Hs. injection Hs as <-. discriminate Hlt.
  - cbn [seq fold_left] in Hs. unfold sampleRow at 2 in Hs.
    unfold for_ at 1 in Hs. cbn [iterations] in Hs.
    rewrite fold_left_None in Hs. discriminate Hs.
Qed.






(** ** Segments of the whole drawing *)

Lemma contourLevelList_finite (a b : Q) (n : nat) :
  Forall (fun level => isFinite level = true)
    (contourLevelList (Fin a) (Fin b) n).
Proof.
  unfold contourLevelList. apply Forall_map, Forall_forall.
  intros i Hi. apply in_seq in Hi. rewrite level_Fin by lia. reflexivity.
Qed.

Lemma sampleAt_in_grid (potentialAt : num -> num -> num) (resolution : num)
    (nc nr j i : nat) :
  (j < nr)%nat -> (i < nc)%nat ->
  In (sampleAt potentialAt resolution j i)
    (List.concat (sampledGrid potentialAt resolution nc nr)).
Proof.
  intros Hj Hi. apply in_concat.
  exists (sampledRow potentialAt resolution nc j). split.
  - unfold sampledGrid. apply in_map, in_seq. lia.
  - unfold sampledRow. apply in_map, in_seq. lia.
Qed.

Lemma sampled_extrema (potentialAt : num -> num -> num) (resolution : num)
    (nc nr : nat) :
  List.concat (sampledGrid potentialAt resolution nc nr) <> [] ->
  exists a b,
    runMin PInf (List.concat (sampledGrid potentialAt resolution nc nr)) = Fin a
    /\ runMax NInf (List.concat (sampledGrid potentialAt resolution nc nr)) = Fin b
    /\ a <= b.
Proof.
  apply extrema_finite, sampledGrid_finite.
Qed.

(** A cell visited by the marching loops, for a level of the [levels] array:
    the level and the four corner values are finite, and the corners are
    samples of the grid. *)
Lemma drawn_cell (potentialAt : num -> num -> num) (d : Q) (nc nr n : nat)
    (level : num) (j i : nat) :
  let g := sampledGrid potentialAt (Fin d) nc nr in
  In level (contourLevelList (runMin PInf (List.concat g))
              (runMax NInf (List.concat g)) n) ->
  (j < nr - 1)%nat -> (i < nc - 1)%nat ->
  exists l v00 v10 v01 v11,
    level = Fin l
    /\ cellSegments g (Fin d) level j i
       = contourSegments (Fin (inject_Z (Z.of_nat i) * d))
           (Fin (inject_Z (Z.of_nat j) * d)) (Fin d)
           (cellIndex (Fin l) (Fin v00) (Fin v10) (Fin v01) (Fin v11))
           (Fin l) (Fin v00) (Fin v10) (Fin v01) (Fin v11)
    /\ In (Fin v00) (List.concat g) /\ In (Fin v10) (List.concat g)
    /\ In (Fin v01) (List.concat g) /\ In (Fin v11) (List.concat g).
Proof.
  intros g Hlevel Hj Hi.
  assert (j < nr /\ j + 1 < nr /\ i < nc /\ i + 1 < nc)%nat
    as (Hj0 & Hj1 & Hi0 & Hi1) by lia.
  pose proof (sampleAt_in_grid potentialAt (Fin d) nc nr j i Hj0 Hi0) as I00.
  pose proof (sampleAt_in_grid potentialAt (Fin d) nc nr j (i + 1) Hj0 Hi1) as I10.
  pose proof (sampleAt_in_grid potentialAt (Fin d) nc nr (j + 1) i Hj1 Hi0) as I01.
  pose proof (sampleAt_in_grid potentialAt (Fin d) nc nr (j + 1) (i + 1) Hj1 Hi1)
    as I11.
  fold g in I00, I10, I01, I11.
  destruct (sampled_extrema potentialAt (Fin d) nc nr) as (a & b & Ha & Hb & _).
  { fold g. intros E. rewrite E in I00. exact I00. }
  fold g in Ha, Hb. rewrite Ha, Hb in Hlevel.
  assert (isFinite level = true) as Hfin.
  { pose proof (contourLevelList_finite a b n) as F.
    rewrite Forall_forall in F. apply F, Hlevel. }
  destruct level as [l| | |]; try discriminate Hfin.
  unfold cellSegments. subst g.
  rewrite !gridAt_sampled by assumption.
  pose proof (sampleAt_finite potentialAt (Fin d) j i) as F00.
  pose proof (sampleAt_finite potentialAt (Fin d) j (i + 1)) as F10.
  pose proof (sampleAt_finite potentialAt (Fin d) (j + 1) i) as F01.
  pose proof (sampleAt_finite potentialAt (Fin d) (j + 1) (i + 1)) as F11.
  destruct (sampleAt potentialAt (Fin d) j i) as [v00| | |];
    try discriminate F00.
  destruct (sampleAt potentialAt (Fin d) j (i + 1)) as [v10| | |];
    try discriminate F10.
  destruct (sampleAt potentialAt (Fin d) (j + 1) i) as [v01| | |];
    try discriminate F01.
  destruct (sampleAt potentialAt (Fin d) (j + 1) (i + 1)) as [v11| | |];
    try discriminate F11.
  exists l, v00, v10, v01, v11. repeat split; auto.
Qed.

(** A property of the segments of every drawn cell is a property of every
    segment of the contours. *)
Lemma computeContours_Forall (P : segment -> Prop) (g : list (list num))
    (resolution : num) (kx ky : nat) (levels : list num) :
  (forall level j i,
      In level levels -> (j < ky)%nat -> (i < kx)%nat ->
      Forall P (cellSegments g resolution level j i)) ->
  Forall (fun '(level, segs) => Forall P segs)
    (computeContours g resolution kx ky levels).
Proof.
  intros H. unfold computeContours.
  apply Forall_map, Forall_forall. intros level Hlevel.
  unfold levelSegments.
  apply Forall_flat_map, Forall_forall. intros j Hj.
  apply Forall_flat_map, Forall_forall. intros i Hi.
  apply in_seq in Hj, Hi. apply H; [exact Hlevel|lia|lia].
Qed.

(** ** Where the segments lie *)

Lemma edgeFraction_unit (level a b : Q) :
  straddles level a b ->
  exists t, edgeFraction (Fin level) (Fin a) (Fin b) = Fin t /\ 0 <= t <= 1.
Proof.
  intros Hstr. rewrite edgeFraction_Fin. eexists. split; [reflexivity|].
  assert (~ b + - a == 0) as Hne
    by (intros E; destruct Hstr as [[H1 H2]|[H1 H2]]; lra).
  destruct (Qeq_bool (b + - a) 0) eqn:E;
    [apply Qeq_bool_eq in E; contradiction|].
  set (f := (level + - a) / (b + - a)).
  assert (f * (b + - a) == level + - a) as Hf by (unfold f; field; exact Hne).
  destruct Hstr as [[H1 H2]|[H1 H2]].
  - split; apply Qnot_lt_le; intros C.
    + assert (0 < (- f) * (a + - b)) by (apply Qmult_lt_0_compat; lra). lra.
    + assert (0 < (f - 1) * (a + - b)) by (apply Qmult_lt_0_compat; lra). lra.
  - split; apply Qnot_lt_le; intros C.
    + assert (0 < (- f) * (b + - a)) by (apply Qmult_lt_0_compat; lra). lra.
    + assert (0 < (f - 1) * (b + - a)) by (apply Qmult_lt_0_compat; lra). lra.
Qed.

Lemma straddles_dec (level a b : Q) :
  straddles level a b \/ ~ straddles level a b.
Proof.
  unfold straddles.
  destruct (Qlt_le_dec a level) as [A|A], (Qlt_le_dec b level) as [B|B].
  - right. intros [[H1 H2]|[H1 H2]]; lra.
  - left. right. split; assumption.
  - left. left. split; assumption.
  - right. intros [[H1 H2]|[H1 H2]]; lra.
Qed.

Lemma crossing_within (size level a b : Q) :
  exists t,
    crossing (Fin size) (Fin level) (Fin a) (Fin b) = Fin t
    /\ (0 <= size ->
        (level <= a /\ b < level) \/ (level <= b /\ a < level) ->
        0 <= t /\ t <= size).
Proof.
  rewrite crossing_Fin. eexists. split; [reflexivity|].
  intros Hsize Hstr.
  assert (~ b + - a == 0) as Hne by (intros E; lra).
  destruct (Qeq_bool (b + - a) 0) eqn:E;
    [apply Qeq_bool_eq in E; contradiction|].
  set (f := (level + - a) / (b + - a)).
  assert (f * (b + - a) == level + - a) as Hf by (unfold f; field; exact Hne).
  assert (0 <= f /\ f <= 1) as [F0 F1].
  { destruct Hstr as [[H1 H2]|[H1 H2]].
    - split; apply Qnot_lt_le; intros C.
      + assert (0 < (- f) * (a + - b)) by (apply Qmult_lt_0_compat; lra). lra.
      + assert (0 < (f - 1) * (a + - b)) by (apply Qmult_lt_0_compat; lra). lra.
    - split; apply Qnot_lt_le; intros C.
      + assert (0 < (- f) * (b + - a)) by (apply Qmult_lt_0_compat; lra). lra.
      + assert (0 < (f - 1) * (b + - a)) by (apply Qmult_lt_0_compat; lra). lra. }
  assert (0 <= size * f) as P1 by (apply Qmult_le_0_compat; lra).
  assert (0 <= size * (1 - f)) as P2 by (apply Qmult_le_0_compat; lra).
  split; lra.
Qed.

Lemma ge_Fin_dec (v level : Q) :
  (ge (Fin v) (Fin level) = true /\ level <= v)
  \/ (ge (Fin v) (Fin level) = false /\ v < level).
Proof.
  destruct (ge (Fin v) (Fin level)) eqn:G.
  - left. split; [reflexivity|]. now apply ge_Fin.
  - right. split; [reflexivity|]. now apply ge_Fin_false.
Qed.

(** The segments of a cell, for the index computed from its corners, have
    their endpoints inside the cell. *)
Lemma cell_segments_in_cell (x y size level v00 v10 v01 v11 : Q) :
  0 <= size ->
  Forall (in_box x y (x + size) (y + size))
    (contourSegments (Fin x) (Fin y) (Fin size)
       (cellIndex (Fin level) (Fin v00) (Fin v10) (Fin v01) (Fin v11))
       (Fin level) (Fin v00) (Fin v10) (Fin v01) (Fin v11)).
Proof.
  intros Hsize.
  unfold contourSegments, cellIndex.
  destruct (crossing_within size level v00 v10) as (top & -> & Htop).
  destruct (crossing_within size level v01 v11) as (bottom & -> & Hbottom).
  destruct (crossing_within size level v00 v01) as (left & -> & Hleft).
  destruct (crossing_within size level v10 v11) as (right & -> & Hright).
  specialize (Htop Hsize). specialize (Hbottom Hsize).
  specialize (Hleft Hsize). specialize (Hright Hsize).
  destruct (ge_Fin_dec v00 level) as [[-> C00]|[-> C00]];
    destruct (ge_Fin_dec v10 level) as [[-> C10]|[-> C10]];
    destruct (ge_Fin_dec v11 level) as [[-> C11]|[-> C11]];
    destruct (ge_Fin_dec v01 level) as [[-> C01]|[-> C01]];
    cbn [Z.lor Pos.lor add];
    try (assert (0 <= top /\ top <= size) as [T0 T1] by (apply Htop; lra));
    try (assert (0 <= bottom /\ bottom <= size) as [B0 B1]
           by (apply Hbottom; lra));
    try (assert (0 <= left /\ left <= size) as [L0 L1] by (apply Hleft; lra));
    try (assert (0 <= right /\ right <= size) as [R0 R1]
           by (apply Hright; lra));
    repeat (apply Forall_cons;
            [unfold in_box; do 4 eexists;
             repeat (split; [reflexivity|]); lra|]);
    apply Forall_nil.
Qed.

Lemma in_box_widen (x0 y0 x1 y1 X0 Y0 X1 Y1 : Q) (seg : segment) :
  X0 <= x0 -> Y0 <= y0 -> x1 <= X1 -> y1 <= Y1 ->
  in_box x0 y0 x1 y1 seg -> in_box X0 Y0 X1 Y1 seg.
Proof.
  intros H1 H2 H3 H4. destruct seg as [[[a b] c] e].
  intros (qa & qb & qc & qd & -> & -> & -> & -> & Ha & Hb & Hc & Hd).
  exists qa, qb, qc, qd. repeat (split; [reflexivity|]). lra.
Qed.

Lemma segmentCalls_inside (x0 y0 x1 y1 : Q) (segs : list segment) :
  Forall (in_box x0 y0 x1 y1) segs ->
  Forall (call_inside x0 y0 x1 y1) (segmentCalls segs).
Proof.
  induction 1 as [|[[[a b] c] e] segs Hseg _ IH]; [constructor|].
  destruct Hseg as (qa & qb & qc & qd & -> & -> & -> & -> & Ha & Hb & Hc & Hd).
  cbn. constructor; [exists qa, qb; auto|].
  constructor; [exists qc, qd; auto|]. exact IH.
Qed.

(** C2, as the code has it.  For clamped corner values, whatever the level,
    and a cell of a canvas of at most a million pixels (within these bounds
    binary64 arithmetic does not overflow either): the denominator of each of
    the four interpolations is a finite number that is not zero; on every
    edge that the level straddles the fraction lies between 0 and 1; and for
    the index computed from the corners, every point [drawContourSegment]
    passes to [moveTo] and [lineTo] is finite and lies in the cell, between
    [(x, y)] and [(x + size, y + size)]. *)
Theorem straddled_edges_interpolate_inside_the_cell :
  forall (c : context) (x y size level v00 v10 v01 v11 : Q),
    clamped x -> clamped y -> 0 <= size <= 1000000 ->
    clamped v00 -> clamped v10 -> clamped v01 -> clamped v11 ->
    Forall
      (fun '(vA, vB) =>
         (exists den,
             edgeDenominator (Fin vA) (Fin vB) = Fin den /\ ~ den == 0)
         /\ (~ straddles level vA vB
             \/ exists t,
                  edgeFraction (Fin level) (Fin vA) (Fin vB) = Fin t
                  /\ 0 <= t <= 1))
      [(v00, v10); (v01, v11); (v00, v01); (v10, v11)]
    /\ exists calls,
         drawContourSegment c (Fin x) (Fin y) (Fin size)
           (cellIndex (Fin level) (Fin v00) (Fin v10) (Fin v01) (Fin v11))
           (Fin level) (Fin v00) (Fin v10) (Fin v01) (Fin v11)
         = c ++ calls
         /\ Forall (call_inside x y (x + size) (y + size)) calls.
Proof.
  intros c x y size level v00 v10 v01 v11 _ _ [Hsize _] _ _ _ _.
  assert (forall vA vB,
             (exists den,
                 edgeDenominator (Fin vA) (Fin vB) = Fin den /\ ~ den == 0)
             /\ (~ straddles level vA vB
                 \/ exists t,
                      edgeFraction (Fin level) (Fin vA) (Fin vB) = Fin t
                      /\ 0 <= t <= 1)) as Hedge.
  { intros vA vB. split.
    - eexists. split; [apply edgeDenominator_Fin|].
      apply edgeDenominator_nonzero.
    - destruct (straddles_dec level vA vB) as [S|S]; [right|now left].
      now apply edgeFraction_unit. }
  split; [repeat (apply Forall_cons; [apply Hedge|]); apply Forall_nil|].
  unfold drawContourSegment. rewrite drawSegments_calls.
  eexists. split; [reflexivity|].
  apply (segmentCalls_inside x y (x + size) (y + size)).
  now apply cell_segments_in_cell.
Qed.

Lemma straddled_edges_interpolate_inside_the_cell_witness :
  Forall
    (fun '(vA, vB) =>
       (exists den, edgeDenominator (Fin vA) (Fin vB) = Fin den /\ ~ den == 0)
       /\ (~ straddles 3 vA vB
           \/ exists t,
                edgeFraction (Fin 3) (Fin vA) (Fin vB) = Fin t
                /\ 0 <= t <= 1))
    [(0, 12); (0, 0); (0, 0); (12, 0)]
  /\ exists calls,
       drawContourSegment [] (Fin 16) (Fin 8) (Fin 8)
         (cellIndex (Fin 3) (Fin 0) (Fin 12) (Fin 0) (Fin 0))
         (Fin 3) (Fin 0) (Fin 12) (Fin 0) (Fin 0)
       = [] ++ calls
       /\ Forall (call_inside 16 8 (16 + 8) (8 + 8)) calls.
Proof.
  apply (straddled_edges_interpolate_inside_the_cell [] 16 8 8 3 0 12 0 0);
    unfold clamped; split; discriminate.
Defined.

(** C2 as stated fails on binary64 numbers: the interpolation is computed
    for all four edges of a cell, straddled or not.  For the two clamped,
    finite corner values 0 and 5e-324 (the smallest positive number), both
    below the level 1, the denominator is not zero and the quotient
    [(level - vA) / (vB - vA)] overflows: the offset [top] along that edge of
    a cell of size 8 is [Infinity], and so is the coordinate [x + top] of a
    cell at [x = 0].  The same holds for the level 1e6. *)
Lemma an_unstraddled_edge_interpolates_to_infinity :
  let vA := 0%float in
  let vB := 0x1p-1074%float in
  let level := 1%float in
  PrimFloat.ltb vA level = true /\ PrimFloat.ltb vB level = true
  /\ Binary64.truthy (vB - vA) = true
  /\ Binary64.crossing 8 level vA vB = infinity
  /\ (0 + Binary64.crossing 8 level vA vB = infinity)%float
  /\ Binary64.crossing 8 1e6 vA vB = infinity.
Proof. vm_compute. repeat split; reflexivity. Qed.

(** ** Well-conditioned cells *)

Lemma crossing_margin (size level a b R : Q) :
  exists t,
    crossing (Fin size) (Fin level) (Fin a) (Fin b) = Fin t
    /\ (0 <= size -> straddles level a b -> - R <= b - a <= R ->
        away R level a -> away R level b ->
        size * (1 # 1000) <= t /\ t <= size - size * (1 # 1000)).
Proof.
  rewrite crossing_Fin. eexists. split; [reflexivity|].
  intros Hsize Hstr HR Ha Hb.
  assert (~ b + - a == 0) as Hne
    by (intros E; destruct Hstr as [[H1 H2]|[H1 H2]]; lra).
  destruct (Qeq_bool (b + - a) 0) eqn:E;
    [apply Qeq_bool_eq in E; contradiction|].
  set (f := (level + - a) / (b + - a)).
  assert (f * (b + - a) == level + - a) as Hf by (unfold f; field; exact Hne).
  assert ((1 # 1000) <= f /\ f <= 1 - (1 # 1000)) as [F0 F1].
  { unfold away in Ha, Hb. destruct Hstr as [[H1 H2]|[H1 H2]].
    - split; apply Qnot_lt_le; intros C.
      + assert (0 < ((1 # 1000) - f) * (a + - b))
          by (apply Qmult_lt_0_compat; lra).
        lra.
      + assert (0 < (f - (1 - (1 # 1000))) * (a + - b))
          by (apply Qmult_lt_0_compat; lra).
        lra.
    - split; apply Qnot_lt_le; intros C.
      + assert (0 < ((1 # 1000) - f) * (b + - a))
          by (apply Qmult_lt_0_compat; lra).
        lra.
      + assert (0 < (f - (1 - (1 # 1000))) * (b + - a))
          by (apply Qmult_lt_0_compat; lra).
        lra. }
  assert (0 <= size * (f - (1 # 1000))) as P1
    by (apply Qmult_le_0_compat; lra).
  assert (0 <= size * (1 - (1 # 1000) - f)) as P2
    by (apply Qmult_le_0_compat; lra).
  split; lra.
Qed.

(** In a well-conditioned cell the two endpoints of every segment of the
    table, for the index computed from the corners, are a thousandth of the
    cell size apart, or more. *)
Lemma cell_segments_apart (x y size level v00 v10 v01 v11 R : Q) :
  0 < size ->
  Forall (fun '(vA, vB) => - R <= vB - vA <= R)
    [(v00, v10); (v01, v11); (v00, v01); (v10, v11)] ->
  Forall (away R level) [v00; v10; v01; v11] ->
  Forall (apart (size * (1 # 1000)))
    (contourSegments (Fin x) (Fin y) (Fin size)
       (cellIndex (Fin level) (Fin v00) (Fin v10) (Fin v01) (Fin v11))
       (Fin level) (Fin v00) (Fin v10) (Fin v01) (Fin v11)).
Proof.
  intros Hsize HR Haway.
  inversion HR as [|? ? R1 HR1]; subst. inversion HR1 as [|? ? R2 HR2]; subst.
  inversion HR2 as [|? ? R3 HR3]; subst. inversion HR3 as [|? ? R4 _]; subst.
  inversion Haway as [|? ? A00 HA1]; subst.
  inversion HA1 as [|? ? A10 HA2]; subst.
  inversion HA2 as [|? ? A01 HA3]; subst.
  inversion HA3 as [|? ? A11 _]; subst.
  assert (0 <= size) as Hsize0 by lra.
  unfold contourSegments, cellIndex.
  destruct (crossing_margin size level v00 v10 R) as (top & -> & Htop).
  destruct (crossing_margin size level v01 v11 R) as (bottom & -> & Hbottom).
  destruct (crossing_margin size level v00 v01 R) as (left & -> & Hleft).
  destruct (crossing_margin size level v10 v11 R) as (right & -> & Hright).
  specialize (Htop Hsize0). specialize (Hbottom Hsize0).
  specialize (Hleft Hsize0). specialize (Hright Hsize0).
  assert (0 < size * (1 # 1000)) as Hd
    by (apply Qmult_lt_0_compat; [exact Hsize|reflexivity]).
  destruct (ge_Fin_dec v00 level) as [[-> C00]|[-> C00]];
    destruct (ge_Fin_dec v10 level) as [[-> C10]|[-> C10]];
    destruct (ge_Fin_dec v11 level) as [[-> C11]|[-> C11]];
    destruct (ge_Fin_dec v01 level) as [[-> C01]|[-> C01]];
    cbn [Z.lor Pos.lor add];
    try (assert (size * (1 # 1000) <= top /\ top <= size - size * (1 # 1000))
           as [T0 T1]
           by (apply Htop; [unfold straddles; lra|assumption..]));
    try (assert (size * (1 # 1000) <= bottom
                 /\ bottom <= size - size * (1 # 1000)) as [B0 B1]
           by (apply Hbottom; [unfold straddles; lra|assumption..]));
    try (assert (size * (1 # 1000) <= left /\ left <= size - size * (1 # 1000))
           as [L0 L1]
           by (apply Hleft; [unfold straddles; lra|assumption..]));
    try (assert (size * (1 # 1000) <= right
                 /\ right <= size - size * (1 # 1000)) as [R0 R1']
           by (apply Hright; [unfold straddles; lra|assumption..]));
    repeat (apply Forall_cons;
            [unfold apart; do 4 eexists;
             repeat (split; [reflexivity|]); lra|]);
    apply Forall_nil.
Qed.

(** C5, as the code has it.  Call a cell well-conditioned for a level when
    each of its four corner values differs from the level by at least a
    thousandth of [R], where no two neighbouring corners differ by more than
    [R].  For a well-conditioned cell of at least one pixel, on a canvas of at
    most a million pixels and with clamped samples, [drawContourSegment]
    draws no segment of length zero for the index computed from the corners:
    the two endpoints of every segment are a thousandth of the cell size
    apart, or more, in [x] or in [y]. *)
Theorem well_conditioned_cells_have_no_zero_length_segment :
  forall (c : context) (x y size level v00 v10 v01 v11 R : Q),
    clamped x -> clamped y -> 1 <= size <= 1000000 ->
    clamped v00 -> clamped v10 -> clamped v01 -> clamped v11 ->
    Forall (fun '(vA, vB) => - R <= vB - vA <= R)
      [(v00, v10); (v01, v11); (v00, v01); (v10, v11)] ->
    Forall (away R level) [v00; v10; v01; v11] ->
    exists segs,
      drawContourSegment c (Fin x) (Fin y) (Fin size)
        (cellIndex (Fin level) (Fin v00) (Fin v10) (Fin v01) (Fin v11))
        (Fin level) (Fin v00) (Fin v10) (Fin v01) (Fin v11)
      = c ++ segmentCalls segs
      /\ Forall (apart (size * (1 # 1000))) segs.
Proof.
  intros c x y size level v00 v10 v01 v11 R _ _ [Hsize _] _ _ _ _ HR Haway.
  unfold drawContourSegment. rewrite drawSegments_calls.
  eexists. split; [reflexivity|].
  apply (cell_segments_apart x y size level v00 v10 v01 v11 R);
    [lra|exact HR|exact Haway].
Qed.

Lemma well_conditioned_cells_have_no_zero_length_segment_witness :
  exists segs,
    drawContourSegment [] (Fin 16) (Fin 8) (Fin 8)
      (cellIndex (Fin 3) (Fin 0) (Fin 12) (Fin 0) (Fin 0))
      (Fin 3) (Fin 0) (Fin 12) (Fin 0) (Fin 0)
    = [] ++ segmentCalls segs
    /\ Forall (apart (8 * (1 # 1000))) segs.
Proof.
  apply (well_conditioned_cells_have_no_zero_length_segment
           [] 16 8 8 3 0 12 0 0 12);
    try (unfold clamped; split; discriminate).
  - repeat (apply Forall_cons; [split; discriminate|]). apply Forall_nil.
  - repeat (apply Forall_cons;
            [unfold away;
             first [left; discriminate | right; discriminate]|]).
    apply Forall_nil.
Defined.

(** ** A level through a corner *)

Lemma crossing_at_first_corner (size level a b : Q) :
  a == level -> b < level ->
  exists t, crossing (Fin size) (Fin level) (Fin a) (Fin b) = Fin t /\ t == 0.
Proof.
  intros Ha Hb. rewrite crossing_Fin. eexists. split; [reflexivity|].
  assert (~ b + - a == 0) as Hne by (intros E; lra).
  destruct (Qeq_bool (b + - a) 0) eqn:E;
    [apply Qeq_bool_eq in E; contradiction|].
  set (f := (level + - a) / (b + - a)).
  assert (f * (b + - a) == level + - a) as Hf by (unfold f; field; exact Hne).
  assert (f == 0) as ->.
  { destruct (Qeq_dec f 0) as [F|F]; [exact F|].
    assert (f * (b + - a) == 0) as Z by (rewrite Hf; lra).
    apply Qmult_integral in Z. destruct Z; contradiction. }
  ring.
Qed.

Lemma crossing_at_second_corner (size level a b : Q) :
  b == level -> a < level ->
  exists t, crossing (Fin size) (Fin level) (Fin a) (Fin b) = Fin t /\ t == size.
Proof.
  intros Hb Ha. rewrite crossing_Fin. eexists. split; [reflexivity|].
  assert (~ b + - a == 0) as Hne by (intros E; lra).
  destruct (Qeq_bool (b + - a) 0) eqn:E;
    [apply Qeq_bool_eq in E; contradiction|].
  set (f := (level + - a) / (b + - a)).
  assert (f * (b + - a) == level + - a) as Hf by (unfold f; field; exact Hne).
  assert (f == 1) as ->.
  { destruct (Qeq_dec (f - 1) 0) as [F|F]; [lra|].
    assert ((f - 1) * (b + - a) == 0) as Z by lra.
    apply Qmult_integral in Z. destruct Z; [contradiction|lra]. }
  ring.
Qed.

Lemma ge_Fin_eq (v level : Q) : v == level -> ge (Fin v) (Fin level) = true.
Proof. intros E. apply ge_Fin. lra. Qed.

Lemma ge_Fin_below (v level : Q) : v < level -> ge (Fin v) (Fin level) = false.
Proof. intros E. now apply ge_Fin_false. Qed.

(** X31.  A corner counts as inside when its value is at
    or above the level.  When the level is exactly the value of one corner of
    a cell and the three other corners are below it, the cell has index 1, 2,
    4 or 8 and [drawContourSegment] draws its one segment from a corner of
    the cell to that same corner: a segment of length zero, whatever the size
    of the cell and the values of the other corners (clamped as the samples
    are, on a canvas of at most a million pixels). *)
Theorem a_level_through_a_lone_corner_draws_a_point :
  forall (c : context) (x y size level v00 v10 v01 v11 : Q),
    clamped x -> clamped y -> clamped size ->
    clamped v00 -> clamped v10 -> clamped v01 -> clamped v11 ->
    (v00 == level /\ v10 < level /\ v01 < level /\ v11 < level)
    \/ (v10 == level /\ v00 < level /\ v01 < level /\ v11 < level)
    \/ (v11 == level /\ v00 < level /\ v10 < level /\ v01 < level)
    \/ (v01 == level /\ v00 < level /\ v10 < level /\ v11 < level) ->
    exists (x1 y1 x2 y2 : num) (px py : Q),
      drawContourSegment c (Fin x) (Fin y) (Fin size)
        (cellIndex (Fin level) (Fin v00) (Fin v10) (Fin v01) (Fin v11))
        (Fin level) (Fin v00) (Fin v10) (Fin v01) (Fin v11)
      = c ++ [MoveTo x1 y1; LineTo x2 y2]
      /\ degenerate (x1, y1, x2, y2)
      /\ eqv x1 (Fin px) /\ eqv y1 (Fin py)
      /\ (px == x \/ px == x + size) /\ (py == y \/ py == y + size).
Proof.
  intros c x y size level v00 v10 v01 v11 _ _ _ _ _ _ _ Hcase.
  unfold drawContourSegment, contourSegments, cellIndex.
  destruct Hcase as [(E & L1 & L2 & L3)|[(E & L1 & L2 & L3)
                    |[(E & L1 & L2 & L3)|(E & L1 & L2 & L3)]]].
  - rewrite (ge_Fin_eq v00 level E), (ge_Fin_below v10 level L1),
      (ge_Fin_below v11 level L3), (ge_Fin_below v01 level L2).
    cbn [Z.lor Pos.lor].
    destruct (crossing_at_first_corner size level v00 v01 E L2)
      as (left & -> & Hleft).
    destruct (crossing_at_first_corner size level v00 v10 E L1)
      as (top & -> & Htop).
    cbn [fold_left drawSegment add].
    do 4 eexists. exists x, y. split; [reflexivity|].
    cbn [degenerate eqv]. repeat split; lra.
  - rewrite (ge_Fin_below v00 level L1), (ge_Fin_eq v10 level E),
      (ge_Fin_below v11 level L3), (ge_Fin_below v01 level L2).
    cbn [Z.lor Pos.lor].
    destruct (crossing_at_second_corner size level v00 v10 E L1)
      as (top & -> & Htop).
    destruct (crossing_at_first_corner size level v10 v11 E L3)
      as (right & -> & Hright).
    cbn [fold_left drawSegment add].
    do 4 eexists. exists (x + size), y. split; [reflexivity|].
    cbn [degenerate eqv]. repeat split; lra.
  - rewrite (ge_Fin_below v00 level L1), (ge_Fin_below v10 level L2),
      (ge_Fin_eq v11 level E), (ge_Fin_below v01 level L3).
    cbn [Z.lor Pos.lor].
    destruct (crossing_at_second_corner size level v10 v11 E L2)
      as (right & -> & Hright).
    destruct (crossing_at_second_corner size level v01 v11 E L3)
      as (bottom & -> & Hbottom).
    cbn [fold_left drawSegment add].
    do 4 eexists. exists (x + size), (y + size). split; [reflexivity|].
    cbn [degenerate eqv]. repeat split; lra.
  - rewrite (ge_Fin_below v00 level L1), (ge_Fin_below v10 level L2),
      (ge_Fin_below v11 level L3), (ge_Fin_eq v01 level E).
    cbn [Z.lor Pos.lor].
    destruct (crossing_at_first_corner size level v01 v11 E L3)
      as (bottom & -> & Hbottom).
    destruct (crossing_at_second_corner size level v00 v01 E L1)
      as (left & -> & Hleft).
    cbn [fold_left drawSegment add].
    do 4 eexists. exists x, (y + size). split; [reflexivity|].
    cbn [degenerate eqv]. repeat split; lra.
Qed.

Lemma a_level_through_a_lone_corner_draws_a_point_witness :
  exists (x1 y1 x2 y2 : num) (px py : Q),
    drawContourSegment [] (Fin 16) (Fin 8) (Fin 8)
      (cellIndex (Fin 3) (Fin 0) (Fin 3) (Fin 1) (Fin 2))
      (Fin 3) (Fin 0) (Fin 3) (Fin 1) (Fin 2)
    = [] ++ [MoveTo x1 y1; LineTo x2 y2]
    /\ degenerate (x1, y1, x2, y2)
    /\ eqv x1 (Fin px) /\ eqv y1 (Fin py)
    /\ (px == 16 \/ px == 16 + 8) /\ (py == 8 \/ py == 8 + 8).
Proof.
  apply (a_level_through_a_lone_corner_draws_a_point [] 16 8 8 3 0 3 1 2);
    try (unfold clamped; split; discriminate).
  right. left. repeat split; reflexivity.
Defined.

(** C5 as stated fails: in the 2 x 3 grid with rows [1, 0, 12] and
    [0, 0, 0] (minimum 0, maximum 12, twelve levels) the level 1 passes
    exactly through the top-left sample, the first cell has index 1, and the
    first segment drawn goes from the point (0, 0) to the point (0, 0). *)
Lemma level_through_a_sample_draws_a_point :
  let potentialAt :=
    fun x y =>
      match x, y with
      | Fin qx, Fin qy =>
          if Qeq_bool qx 0 && Qeq_bool qy 0 then Fin 1
          else if Qeq_bool qx 16 && Qeq_bool qy 0 then Fin 12
          else Fin 0
      | _, _ => Fin 0
      end in
  let r := mkRenderer [] (Fin 24) (Fin 16) [] 12 0 in
  exists (r' : EMRenderer) (hue x1 y1 x2 y2 : num),
    samplePotential potentialAt defaultResolution
      (Math_ceil (width r / defaultResolution))
      (Math_ceil (height r / defaultResolution))
    = Some (mkSampling [[Fin 1; Fin 0; Fin 12]; [Fin 0; Fin 0; Fin 0]]
              (Fin 0) (Fin 12))
    /\ drawPotentialContours potentialAt r defaultResolution = Some r'
    /\ firstn 6 (ctx r')
       = [SetLineWidth one; SetLineCap "square"; SetStrokeStyle (Hsla hue);
          BeginPath; MoveTo x1 y1; LineTo x2 y2]
    /\ eqv x1 (Fin 0) /\ eqv y1 (Fin 0) /\ eqv x2 (Fin 0) /\ eqv y2 (Fin 0)
    /\ degenerate (x1, y1, x2, y2).
Proof.
  intros potentialAt r.
  eexists. eexists. eexists. eexists. eexists. eexists.
  split; [reflexivity|].
  split; [vm_compute; reflexivity|].
  split; [vm_compute; reflexivity|].
  repeat split; reflexivity.
Qed.

Lemma draw_seeds_an_empty_pool_witness :
  let random := fun _ : nat => Fin (1 # 2) in
  let Math_atan2 := fun _ _ : num => zero in
  let Math_cos := fun _ : num => one in
  let Math_sin := fun _ : num => zero in
  let r := mkRenderer [] (Fin 800) (Fin 600) [] 12 0 in
  let l := mkLine [mkPoint (Fin 0) (Fin 0); mkPoint (Fin 10) (Fin 0)] true in
  let res := drawFlowParticles random Math_atan2 Math_cos Math_sin r [l] in
  flowParticles (fst res) = flowParticles (initFlowParticles random r [l])
  /\ List.length (flowParticles (fst res)) = 1%nat
  /\ snd res = Returned.
Proof.
  intros random Math_atan2 Math_cos Math_sin r l res.
  destruct (draw_seeds_an_empty_pool random Math_atan2 Math_cos Math_sin r [l])
    as (H1 & _ & _ & H4 & _).
  - intros k. exists (1 # 2). split; [reflexivity|]. cbn. lra.
  - reflexivity.
  - discriminate.
  - split; [exact H1|]. split; [reflexivity|exact H4].
Defined.

(** * Further properties of the renderer *)

(** ** The sampled grid *)

Lemma least_of_step (m : num) (l : list num) (V : num) :
  Forall sample_in_range l -> sample_in_range V -> least_of m l ->
  least_of (if lt V m then V else m) (l ++ [V]).
Proof.
  intros Hl (v & -> & Hv) [[-> ->]|[Hin Hle]].
  - right. cbn. split; [now left|]. constructor; [|constructor].
    exists v, v. repeat split; try reflexivity. lra.
  - right.
    assert (exists a, m = Fin a) as [a ->].
    { rewrite Forall_forall in Hl. destruct (Hl m Hin) as (a & -> & _).
      now exists a. }
    destruct (lt (Fin v) (Fin a)) eqn:L.
    + apply lt_Fin in L. split; [apply in_or_app; right; now left|].
      apply Forall_app. split.
      * eapply Forall_impl; [|exact Hle].
        intros u (p & q & Ep & -> & Hpq). injection Ep as <-.
        exists v, q. repeat split; try reflexivity. lra.
      * constructor; [|constructor]. exists v, v.
        repeat split; try reflexivity. lra.
    + apply lt_Fin_false in L. split; [apply in_or_app; now left|].
      apply Forall_app. split; [exact Hle|].
      constructor; [|constructor]. exists a, v. repeat split; auto.
Qed.

Lemma greatest_of_step (M : num) (l : list num) (V : num) :
  Forall sample_in_range l -> sample_in_range V -> greatest_of M l ->
  greatest_of (if gt V M then V else M) (l ++ [V]).
Proof.
  intros Hl (v & -> & Hv) [[-> ->]|[Hin Hle]].
  - right. cbn. split; [now left|]. constructor; [|constructor].
    exists v, v. repeat split; try reflexivity. lra.
  - right.
    assert (exists b, M = Fin b) as [b ->].
    { rewrite Forall_forall in Hl. destruct (Hl M Hin) as (b & -> & _).
      now exists b. }
    destruct (gt (Fin v) (Fin b)) eqn:L.
    + apply gt_Fin in L. split; [apply in_or_app; right; now left|].
      apply Forall_app. split.
      * eapply Forall_impl; [|exact Hle].
        intros u (p & q & -> & Eq & Hpq). injection Eq as <-.
        exists p, v. repeat split; try reflexivity. lra.
      * constructor; [|constructor]. exists v, v.
        repeat split; try reflexivity. lra.
    + apply gt_Fin_false in L. split; [apply in_or_app; now left|].
      apply Forall_app. split; [exact Hle|].
      constructor; [|constructor]. exists v, b. repeat split; auto.
Qed.

Lemma extrema_of_run (vs : list num) :
  Forall sample_in_range vs ->
  forall l m M,
    Forall sample_in_range l -> least_of m l -> greatest_of M l ->
    Forall sample_in_range (l ++ vs)
    /\ least_of (runMin m vs) (l ++ vs)
    /\ greatest_of (runMax M vs) (l ++ vs).
Proof.
  induction 1 as [|V vs HV _ IH]; intros l m M Hl Hm HM.
  - rewrite app_nil_r. auto.
  - replace (l ++ V :: vs) with ((l ++ [V]) ++ vs)
      by (rewrite <- app_assoc; reflexivity).
    cbn [runMin runMax fold_left]. apply IH.
    + apply Forall_app. split; [exact Hl|]. constructor; [exact HV|constructor].
    + apply least_of_step; assumption.
    + apply greatest_of_step; assumption.
Qed.

Lemma sampledRow_in_range (potentialAt : num -> num -> num) (resolution : num)
    (nc j : nat) :
  Forall sample_in_range (sampledRow potentialAt resolution nc j).
Proof.
  unfold sampledRow, sampleAt. apply Forall_map, Forall_forall.
  intros i _. apply clampSample_Fin.
Qed.

(** X1.  Whatever the loop bounds, when sampling returns every sample of the
    grid is finite and lies between -1e6 and 1e6, and [minV] and [maxV] are
    the least and the greatest of the samples, each of them a sample of the
    grid; with no sample at all they are still [Infinity] and [-Infinity]. *)
Theorem sampled_extrema_are_attained :
  forall (potentialAt : num -> num -> num) (resolution cols rows : num)
         (s : sampling),
    samplePotential potentialAt resolution cols rows = Some s ->
    Forall sample_in_range (List.concat (potentialGrid s))
    /\ least_of (minV s) (List.concat (potentialGrid s))
    /\ greatest_of (maxV s) (List.concat (potentialGrid s)).
Proof.
  intros potentialAt resolution cols rows s. unfold samplePotential.
  apply (for_invariant
           (fun s => Forall sample_in_range (List.concat (potentialGrid s))
                     /\ least_of (minV s) (List.concat (potentialGrid s))
                     /\ greatest_of (maxV s) (List.concat (potentialGrid s)))).
  - intros j s0 s' (Hr & Hm & HM) Hrow.
    destruct (iterations cols) as [nc|] eqn:Hc.
    + rewrite (sampleRow_returns potentialAt resolution cols nc j s0 Hc) in Hrow.
      injection Hrow as <-. cbn [potentialGrid minV maxV].
      rewrite concat_app. cbn [List.concat]. rewrite app_nil_r.
      apply extrema_of_run; try assumption. apply sampledRow_in_range.
    + unfold sampleRow, for_ in Hrow. rewrite Hc in Hrow. discriminate Hrow.
  - cbn. split; [constructor|]. split; left; split; reflexivity.
Qed.

Lemma sampled_extrema_are_attained_witness :
  let potentialAt :=
    fun x (_ : num) =>
      match x with
      | Fin q => if Qeq_bool q 0 then NaN else PInf
      | _ => Fin 7
      end in
  let s := mkSampling [[Fin 0; Fin 0]; [Fin 0; Fin 0]] (Fin 0) (Fin 0) in
  samplePotential potentialAt defaultResolution (Fin 2) (Fin 2) = Some s
  /\ Forall sample_in_range (List.concat (potentialGrid s))
  /\ least_of (minV s) (List.concat (potentialGrid s))
  /\ greatest_of (maxV s) (List.concat (potentialGrid s)).
Proof.
  intros potentialAt s. split; [reflexivity|].
  apply (sampled_extrema_are_attained potentialAt defaultResolution
           (Fin 2) (Fin 2) s).
  reflexivity.
Defined.

Lemma iterations_of_nat (n : nat) : iterations (of_nat n) = Some n.
Proof.
  unfold iterations, of_nat. now rewrite Qceiling_Z, Nat2Z.id.
Qed.

Lemma iterations_of_nat_pred (n : nat) :
  iterations (of_nat n - one) = Some (n - 1)%nat.
Proof.
  unfold of_nat, one, iterations. cbn [sub add neg].
  rewrite (Qceiling_comp _ _ (inject_Z_pred (Z.of_nat n))), Qceiling_Z.
  f_equal. lia.
Qed.

(** X2.  For loop bounds [cols] and [rows] that are natural numbers, and any
    resolution, sampling returns a grid of [rows] rows of [cols] samples
    each, and the sample in row [j], column [i] is the clamped potential at
    [(i * resolution, j * resolution)]. *)
Theorem sampled_grid_shape :
  forall (potentialAt : num -> num -> num) (resolution : num) (nc nr : nat),
    exists s,
      samplePotential potentialAt resolution (of_nat nc) (of_nat nr) = Some s
      /\ potentialGrid s
         = map (fun j =>
                  map (fun i =>
                         clampSample
                           (potentialAt (of_nat i * resolution)
                              (of_nat j * resolution))%num)
                    (seq 0 nc))
             (seq 0 nr)
      /\ List.length (potentialGrid s) = nr
      /\ Forall (fun row => List.length row = nc) (potentialGrid s).
Proof.
  intros potentialAt resolution nc nr.
  eexists. split.
  - apply (samplePotential_returns potentialAt resolution _ _ nc nr);
      apply iterations_of_nat.
  - cbn [potentialGrid]. unfold sampledGrid, sampledRow, sampleAt.
    split; [reflexivity|]. split.
    + now rewrite length_map, length_seq.
    + apply Forall_map, Forall_forall. intros j _.
      now rewrite length_map, length_seq.
Qed.

(** ** Degenerate surfaces *)

Lemma levelSegments_no_cells (g : list (list num)) (resolution level : num)
    (kx ky : nat) :
  (kx = 0 \/ ky = 0)%nat -> levelSegments g resolution kx ky level = [].
Proof.
  intros [-> | ->]; unfold levelSegments; cbn; [|reflexivity].
  induction (seq 0 ky) as [|j l IH]; cbn; [reflexivity|exact IH].
Qed.

Lemma contourCalls_no_segments (mn mx : num)
    (contours : list (num * list segment)) :
  Forall (fun '(_, segs) => segs = []) contours ->
  Forall (fun c => is_segment_call c = false) (contourCalls mn mx contours).
Proof.
  induction 1 as [|[level segs] contours Hsegs _ IH]; cbn; [constructor|].
  subst segs. cbn. repeat constructor. exact IH.
Qed.

(** X3.  A grid of fewer than 2 rows or fewer than 2 columns has no cell:
    [drawPotentialContours] returns and makes no [moveTo] and no [lineTo]
    call, whatever the samples and the number of levels. *)
Theorem small_grid_draws_no_segment :
  forall (potentialAt : num -> num -> num) (r : EMRenderer) (w h d : Q),
    width r = Fin w -> height r = Fin h -> ~ d == 0 ->
    (Z.to_nat (Qceiling (w / d)) < 2 \/ Z.to_nat (Qceiling (h / d)) < 2)%nat ->
    exists calls,
      drawPotentialContours potentialAt r (Fin d)
      = Some (set_ctx r (ctx r ++ calls))
      /\ Forall (fun c => is_segment_call c = false) calls.
Proof.
  intros potentialAt r w h d Hw Hh Hd Hsmall.
  rewrite (drawPotentialContours_calls potentialAt r w h d Hw Hh Hd).
  cbv zeta.
  destruct (strict_eq _ _).
  - exists []. split; [|constructor].
    rewrite app_nil_r. destruct r. reflexivity.
  - eexists. split; [reflexivity|].
    repeat constructor. apply contourCalls_no_segments.
    unfold computeContours. apply Forall_map, Forall_forall. intros level _.
    apply levelSegments_no_cells. lia.
Qed.

Lemma small_grid_draws_no_segment_witness :
  let r := mkRenderer [] (Fin 24) (Fin 8) [] 12 0 in
  exists calls,
    drawPotentialContours (fun x _ => x) r (Fin 8)
    = Some (set_ctx r (ctx r ++ calls))
    /\ Forall (fun c => is_segment_call c = false) calls.
Proof.
  intros r.
  apply (small_grid_draws_no_segment (fun x _ => x) r 24 8 8).
  - reflexivity.
  - reflexivity.
  - intros E. discriminate E.
  - right. vm_compute. lia.
Defined.

(** ** The contours on the grid *)

(** What [drawPotentialContours] does from bounds that are natural numbers:
    it returns, and either leaves the renderer as it was (flat field) or
    appends the calls of the contours of every level. *)
Lemma drawContoursOver_calls (potentialAt : num -> num -> num)
    (r : EMRenderer) (resolution : num) (nc nr : nat) :
  let g := sampledGrid potentialAt resolution nc nr in
  let mn := runMin PInf (List.concat g) in
  let mx := runMax NInf (List.concat g) in
  drawContoursOver potentialAt r resolution (of_nat nc) (of_nat nr)
  = Some (if strict_eq mx mn then r
          else set_ctx r
                 (ctx r ++ [SetLineWidth one; SetLineCap "square"]
                  ++ contourCalls mn mx
                       (computeContours g resolution (nc - 1) (nr - 1)
                          (contourLevelList mn mx (contourLevels r))))).
Proof.
  intros g mn mx. unfold drawContoursOver.
  rewrite (samplePotential_returns potentialAt resolution _ _ nc nr
             (iterations_of_nat nc) (iterations_of_nat nr)).
  cbn [minV maxV potentialGrid]. fold g. fold mn. fold mx.
  destruct (strict_eq mx mn); [reflexivity|].
  rewrite (drawLevels_calls _ resolution _ _ (nc - 1) (nr - 1) _
             (iterations_of_nat_pred nc) (iterations_of_nat_pred nr)).
  cbn [minV maxV potentialGrid]. rewrite <- !app_assoc. reflexivity.
Qed.

Lemma contourCalls_inside (x0 y0 x1 y1 : Q) (mn mx : num)
    (contours : list (num * list segment)) :
  Forall (fun '(level, segs) => Forall (in_box x0 y0 x1 y1) segs) contours ->
  Forall (call_inside x0 y0 x1 y1) (contourCalls mn mx contours).
Proof.
  induction 1 as [|[level segs] contours Hsegs _ IH]; [constructor|].
  unfold contourCalls in *. cbn [flat_map].
  rewrite <- !app_assoc. cbn [app].
  constructor; [exact I|]. constructor; [exact I|].
  apply Forall_app. split; [now apply segmentCalls_inside|].
  constructor; [exact I|exact IH].
Qed.

(** A cell of the grid lies between the first and the last sample. *)
Lemma cell_inside_grid (d : Q) (k n : nat) :
  0 <= d -> (k < n - 1)%nat ->
  0 <= inject_Z (Z.of_nat k) * d
  /\ inject_Z (Z.of_nat k) * d + d <= inject_Z (Z.of_nat (n - 1)) * d.
Proof.
  intros Hd Hk.
  assert (0 <= inject_Z (Z.of_nat k)) as Hk0
    by (change 0 with (inject_Z 0); rewrite <- Zle_Qle; lia).
  assert (inject_Z (Z.of_nat k) + 1 <= inject_Z (Z.of_nat (n - 1))) as Hle.
  { rewrite inject_Z_succ, <- Zle_Qle. lia. }
  assert (0 <= inject_Z (Z.of_nat k) * d) as P0
    by (apply Qmult_le_0_compat; assumption).
  assert (0 <= (inject_Z (Z.of_nat (n - 1)) - (inject_Z (Z.of_nat k) + 1)) * d)
    as P1 by (apply Qmult_le_0_compat; lra).
  split; [exact P0|]. lra.
Qed.

(** X5.  From loop bounds [cols] and [rows] that are natural numbers and a
    resolution that is not negative, on a grid whose last sample
    [((cols - 1) * resolution, (rows - 1) * resolution)] is at most a million
    pixels away, the drawing returns, and every point it passes to [moveTo]
    and [lineTo] is finite and lies on the sampled grid, between [(0, 0)] and
    that last sample. *)
Theorem contours_stay_inside_the_grid :
  forall (potentialAt : num -> num -> num) (r : EMRenderer) (d : Q)
         (nc nr : nat),
    0 <= d ->
    inject_Z (Z.of_nat (nc - 1)) * d <= 1000000 ->
    inject_Z (Z.of_nat (nr - 1)) * d <= 1000000 ->
    exists calls,
      drawContoursOver potentialAt r (Fin d) (of_nat nc) (of_nat nr)
      = Some (set_ctx r (ctx r ++ calls))
      /\ Forall (call_inside 0 0 (inject_Z (Z.of_nat (nc - 1)) * d)
                   (inject_Z (Z.of_nat (nr - 1)) * d))
           calls.
Proof.
  intros potentialAt r d nc nr Hd _ _.
  rewrite (drawContoursOver_calls potentialAt r (Fin d) nc nr). cbv zeta.
  destruct (strict_eq _ _).
  - exists []. split; [|constructor].
    rewrite app_nil_r. destruct r. reflexivity.
  - eexists. split; [reflexivity|].
    constructor; [exact I|]. constructor; [exact I|].
    apply contourCalls_inside.
    apply computeContours_Forall. intros level j i Hlevel Hj Hi.
    destruct (drawn_cell potentialAt d nc nr (contourLevels r) level j i
                Hlevel Hj Hi)
      as (l & v00 & v10 & v01 & v11 & -> & -> & _).
    destruct (cell_inside_grid d i nc Hd Hi) as [Hx0 Hx1].
    destruct (cell_inside_grid d j nr Hd Hj) as [Hy0 Hy1].
    eapply Forall_impl;
      [|apply (cell_segments_in_cell _ _ d l v00 v10 v01 v11 Hd)].
    intros seg. apply in_box_widen; assumption.
Qed.

Lemma contours_stay_inside_the_grid_witness :
  let potentialAt :=
    fun x (_ : num) =>
      match x with
      | Fin q => if Qeq_bool q 0 then Fin 0 else Fin 12
      | _ => Fin 0
      end in
  let r := mkRenderer [] (Fin 16) (Fin 16) [] 12 0 in
  exists calls,
    drawContoursOver potentialAt r (Fin 8) (of_nat 2) (of_nat 2)
    = Some (set_ctx r (ctx r ++ calls))
    /\ Forall (call_inside 0 0 (inject_Z (Z.of_nat (2 - 1)) * 8)
                 (inject_Z (Z.of_nat (2 - 1)) * 8))
         calls.
Proof.
  intros potentialAt r.
  apply (contours_stay_inside_the_grid potentialAt r 8 2 2); discriminate.
Defined.

(** ** The colour of a level *)

Lemma rank_ratio (n i : nat) :
  (1 <= i)%nat -> (i < n)%nat ->
  0 < inject_Z (Z.of_nat i) / inject_Z (Z.of_nat n)
  /\ inject_Z (Z.of_nat i) / inject_Z (Z.of_nat n) < 1.
Proof.
  intros Hi Hin.
  assert (0 < inject_Z (Z.of_nat i)) as HI
    by (change 0 with (inject_Z 0); rewrite <- Zlt_Qlt; lia).
  assert (inject_Z (Z.of_nat i) < inject_Z (Z.of_nat n)) as HN
    by (rewrite <- Zlt_Qlt; lia).
  generalize dependent (inject_Z (Z.of_nat i)). intros I HI.
  generalize (inject_Z (Z.of_nat n)). intros N HN.
  set (rho := I / N).
  assert (rho * N == I) as Hrho by (unfold rho; field; lra).
  split.
  - unfold rho, Qdiv. apply Qmult_lt_0_compat; [exact HI|].
    apply Qinv_lt_0_compat. lra.
  - apply Qnot_le_lt. intros C.
    assert (0 <= (rho - 1) * N) by (apply Qmult_le_0_compat; lra). lra.
Qed.

Lemma levelHue_Fin (a b l : Q) :
  a < b ->
  levelHue (Fin a) (Fin b) (Fin l)
  = Fin (120 + (1 + - ((l + - a) / (b + - a))) * 100).
Proof.
  intros Hab. unfold levelHue. cbn.
  destruct (Qeq_bool (b + - a) 0) eqn:E; [|reflexivity].
  apply Qeq_bool_eq in E. lra.
Qed.

Lemma segmentCalls_no_strokeStyle (segs : list segment) :
  filter is_strokeStyle (segmentCalls segs) = [].
Proof.
  induction segs as [|[[[x1 y1] x2] y2] segs IH]; [reflexivity|].
  cbn. exact IH.
Qed.

(** The stroke styles set while the levels are drawn, in order. *)
Lemma contourCalls_styles (mn mx : num) (g : list (list num))
    (resolution : num) (kx ky : nat) (levels : list num) :
  filter is_strokeStyle
    (contourCalls mn mx (computeContours g resolution kx ky levels))
  = map (fun level => SetStrokeStyle (Hsla (levelHue mn mx level))) levels.
Proof.
  induction levels as [|level levels IH]; [reflexivity|].
  unfold contourCalls, computeContours in *. cbn [map flat_map].
  rewrite !filter_app, segmentCalls_no_strokeStyle, IH. reflexivity.
Qed.

(** X6.  For a sampled grid whose maximum is at least 1 above its minimum
    and [contourLevels] from 2 to a million, whatever the loop bounds, the drawing returns
    and sets one stroke style per level, in order: the style number [i] is
    [hsla] with the hue [120 + (1 - i / contourLevels) * 100], which depends
    only on the rank of the level, not on the samples, and lies between 120
    and 220. *)
Theorem level_hue_depends_on_rank :
  forall (potentialAt : num -> num -> num) (r : EMRenderer)
         (resolution cols rows : num) (s : sampling) (n : nat) (a b : Q),
    samplePotential potentialAt resolution cols rows = Some s ->
    minV s = Fin a -> maxV s = Fin b -> 1 <= b - a ->
    contourLevels r = n -> (2 <= n)%nat -> (Z.of_nat n <= 1000000)%Z ->
    exists calls,
      drawContoursOver potentialAt r resolution cols rows
      = Some (set_ctx r (ctx r ++ calls))
      /\ Forall2
           (fun i c =>
              exists hue,
                c = SetStrokeStyle (Hsla (Fin hue))
                /\ hue == 120 + (1 - inject_Z (Z.of_nat i)
                                     / inject_Z (Z.of_nat n)) * 100
                /\ 120 <= hue <= 220)
           (seq 1 (n - 1)) (filter is_strokeStyle calls).
Proof.
  intros potentialAt r resolution cols rows s n a b Hs Hmin Hmax Hab Hr
         Hn _.
  assert (a < b) as Hlt by lra.
  assert (lt (minV s) (maxV s) = true) as Hlt'
    by (rewrite Hmin, Hmax; now apply lt_Fin).
  destruct (sampled_bounds_end _ _ _ _ _ Hs Hlt') as [Hc Hrw].
  destruct (iterations_pred cols Hc) as (kx & Ex).
  destruct (iterations_pred rows Hrw) as (ky & Ey).
  eexists. split.
  - unfold drawContoursOver. rewrite Hs.
    assert (strict_eq (maxV s) (minV s) = false) as ->.
    { rewrite Hmin, Hmax. unfold strict_eq, cmp.
      destruct (b ?= a) eqn:C; try reflexivity.
      apply Qeq_alt in C. lra. }
    rewrite Hr.
    rewrite (drawLevels_calls s resolution cols rows kx ky _ Ex Ey).
    rewrite <- !app_assoc. cbn [app]. reflexivity.
  - cbn [filter is_strokeStyle]. rewrite contourCalls_styles.
    rewrite Hmin, Hmax. unfold contourLevelList. rewrite map_map.
    apply Forall2_map_self. intros i Hi. apply in_seq in Hi.
    rewrite level_Fin by lia. rewrite (levelHue_Fin a b _ Hlt).
    eexists. split; [reflexivity|].
    destruct (rank_ratio n i) as [R0 R1]; [lia|lia|].
    assert (~ inject_Z (Z.of_nat n) == 0) as HN.
    { intros E. change 0 with (inject_Z 0) in E.
      apply -> inject_Z_injective in E. lia. }
    assert ((a + (b + - a) * inject_Z (Z.of_nat i) / inject_Z (Z.of_nat n)
             + - a) / (b + - a)
            == inject_Z (Z.of_nat i) / inject_Z (Z.of_nat n)) as E
      by (field; split; [exact HN|lra]).
    rewrite E. split; [unfold Qminus; reflexivity|]. lra.
Qed.

Lemma level_hue_depends_on_rank_witness :
  let potentialAt :=
    fun x (_ : num) =>
      match x with
      | Fin q => if Qeq_bool q 0 then Fin 0 else Fin 12
      | _ => Fin 0
      end in
  let r := mkRenderer [] (Fin 16) (Fin 16) [] 12 0 in
  exists calls,
    drawContoursOver potentialAt r defaultResolution (Fin 2) (Fin 2)
    = Some (set_ctx r (ctx r ++ calls))
    /\ Forall2
         (fun i c =>
            exists hue,
              c = SetStrokeStyle (Hsla (Fin hue))
              /\ hue == 120 + (1 - inject_Z (Z.of_nat i)
                                   / inject_Z (Z.of_nat 12)) * 100
              /\ 120 <= hue <= 220)
         (seq 1 (12 - 1)) (filter is_strokeStyle calls).
Proof.
  intros potentialAt r.
  apply (level_hue_depends_on_rank potentialAt r defaultResolution
           (Fin 2) (Fin 2)
           (mkSampling [[Fin 0; Fin 12]; [Fin 0; Fin 12]] (Fin 0) (Fin 12))
           12 0 12).
  - reflexivity.
  - reflexivity.
  - reflexivity.
  - discriminate.
  - reflexivity.
  - lia.
  - discriminate.
Defined.

(** ** More on seeding *)

Section SeedingOrder.

Variable random : nat -> num.
Variable c0 : nat.

Lemma spawn_inv (l : fieldLine) (count : nat) :
  (2 <= List.length (points l))%nat ->
  forall ps calls,
    seeding_inv random c0 (ps, calls) ->
    seeding_inv random c0 (spawn random l count ps calls)
    /\ List.length (fst (spawn random l count ps calls))
       = (List.length ps + count)%nat.
Proof.
  intros Hl. induction count as [|count IH]; intros ps calls Hinv;
    cbn [spawn].
  - split; [exact Hinv|cbn; lia].
  - destruct Hinv as (Hc & Hf & Hp). cbn [fst snd] in Hc, Hf, Hp.
    destruct (IH (ps ++ [mkParticle l (random calls)
                           (Fin (3 # 10) + random (S calls) * Fin (4 # 10))%num
                           (fromPositive l)])
                 (S (S calls))) as [Hinv' Hlen'].
    + unfold seeding_inv. cbn [fst snd]. rewrite length_app. cbn [List.length].
      split; [lia|]. split.
      * replace (List.length ps + 1)%nat with (S (List.length ps)) by lia.
        rewrite seq_S. cbn [Nat.add]. apply Forall2_app; [exact Hf|].
        constructor; [|constructor]. unfold seededFrom. cbn [position speed].
        subst calls. split; [reflexivity|].
        replace (S (c0 + 2 * List.length ps))
          with (c0 + 2 * List.length ps + 1)%nat by lia.
        reflexivity.
      * apply Forall_app. split; [exact Hp|].
        constructor; [|constructor]. split; [exact Hl|reflexivity].
    + split; [exact Hinv'|]. rewrite Hlen', length_app. cbn. lia.
Qed.

Lemma seeding_inv_fold (fieldLines : list fieldLine) :
  forall st,
    seeding_inv random c0 st ->
    seeding_inv random c0 (fold_left (seedLine random) fieldLines st)
    /\ (List.length (fst (fold_left (seedLine random) fieldLines st))
        <= List.length (fst st) + 8 * List.length fieldLines)%nat.
Proof.
  induction fieldLines as [|l ls IH]; intros st Hinv; cbn [fold_left].
  - split; [exact Hinv|lia].
  - destruct st as [ps calls]. unfold seedLine at 2 4.
    destruct (List.length (points l) <? 2)%nat eqn:L.
    + destruct (IH (ps, calls) Hinv) as [H1 H2].
      split; [exact H1|]. cbn [List.length fst] in *. lia.
    + apply Nat.ltb_ge in L.
      destruct (spawn_inv l (particleCount (List.length (points l))) L
                  ps calls Hinv) as [H1 H2].
      destruct (IH _ H1) as [H3 H4].
      split; [exact H3|]. rewrite H2 in H4. cbn [List.length fst] in *.
      assert (particleCount (List.length (points l)) <= 8)%nat
        by (unfold particleCount; apply Nat.le_min_l).
      lia.
Qed.

End SeedingOrder.

(** X7.  Seeding makes at most 8 particles per line and calls [Math.random]
    exactly twice per particle: particle number [j] of the pool gets the
    random number [2j] (counted from the first call of this seeding) as its
    position and [0.3 + 0.4 * r] as its speed, where [r] is the random number
    [2j + 1].  Every particle follows a line of at least 2 points and carries
    that line's polarity; the context is not touched. *)
Theorem seeding_uses_two_random_numbers_per_particle :
  forall (random : nat -> num) (r : EMRenderer) (fieldLines : list fieldLine),
    let r' := initFlowParticles random r fieldLines in
    let pool := flowParticles r' in
    (List.length pool <= 8 * List.length fieldLines)%nat
    /\ randomCalls r' = (randomCalls r + 2 * List.length pool)%nat
    /\ Forall2 (seededFrom random (randomCalls r))
         (seq 0 (List.length pool)) pool
    /\ Forall follows_a_path pool
    /\ ctx r' = ctx r.
Proof.
  intros random r fieldLines r' pool.
  destruct (seeding_inv_fold random (randomCalls r) fieldLines
              ([], randomCalls r)) as [(Hc & Hf & Hp) Hlen].
  { split; [cbn; lia|]. split; constructor. }
  subst pool r'. unfold initFlowParticles.
  destruct (fold_left (seedLine random) fieldLines ([], randomCalls r))
    as [ps calls].
  cbn [fst snd flowParticles randomCalls set_flowParticles ctx List.length] in *.
  repeat split; try assumption.
Qed.

(** ** When drawing seeds, and when it does not *)

Section Reseeding.

Variable random : nat -> num.
Variable Math_atan2 : num -> num -> num.
Variable Math_cos : num -> num.
Variable Math_sin : num -> num.

Lemma drawFlowParticles_keeps_pool (r : EMRenderer)
    (fieldLines : list fieldLine) :
  flowParticles r <> [] ->
  let res := drawFlowParticles random Math_atan2 Math_cos Math_sin r fieldLines in
  flowParticles (fst res) = flowParticles r
  /\ randomCalls (fst res) = randomCalls r
  /\ (ctx (fst res), snd res)
     = drawDashes Math_atan2 Math_cos Math_sin
         (fold_left drawPath fieldLines (ctx r)) (flowParticles r).
Proof.
  intros Hpool res. subst res. destruct r as [c0 w h fp n k].
  cbn [flowParticles] in Hpool.
  destruct fp as [|p fp]; [contradiction|].
  unfold drawFlowParticles, set_ctx.
  cbn [flowParticles ctx width height contourLevels randomCalls
       List.length Nat.eqb andb].
  destruct (drawDashes Math_atan2 Math_cos Math_sin
              (fold_left drawPath fieldLines c0) (p :: fp)) as [c o].
  repeat split.
Qed.

Lemma drawFlowParticles_frames (frames : list (list fieldLine)) :
  forall r,
    flowParticles r <> [] ->
    flowParticles
      (fold_left
         (fun r ls =>
            fst (drawFlowParticles random Math_atan2 Math_cos Math_sin r ls))
         frames r)
    = flowParticles r
    /\ randomCalls
         (fold_left
            (fun r ls =>
               fst (drawFlowParticles random Math_atan2 Math_cos Math_sin r ls))
            frames r)
       = randomCalls r.
Proof.
  induction frames as [|ls frames IH]; intros r Hpool; cbn [fold_left];
    [split; reflexivity|].
  destruct (drawFlowParticles_keeps_pool r ls Hpool) as (Hp & Hc & _).
  destruct (IH (fst (drawFlowParticles random Math_atan2 Math_cos Math_sin r ls)))
    as [H1 H2]; [rewrite Hp; exact Hpool|].
  split; [rewrite H1; exact Hp|rewrite H2; exact Hc].
Qed.

Lemma short_lines_draw_no_path (fieldLines : list fieldLine) :
  Forall (fun l => (List.length (points l) < 2)%nat) fieldLines ->
  forall c, fold_left drawPath fieldLines c = c.
Proof.
  induction 1 as [|l ls Hl _ IH]; intros c; cbn [fold_left]; [reflexivity|].
  unfold drawPath at 2. apply Nat.ltb_lt in Hl. rewrite Hl. apply IH.
Qed.

Lemma short_lines_seed_nothing (fieldLines : list fieldLine) :
  Forall (fun l => (List.length (points l) < 2)%nat) fieldLines ->
  forall st, fold_left (seedLine random) fieldLines st = st.
Proof.
  induction 1 as [|l ls Hl _ IH]; intros st; cbn [fold_left]; [reflexivity|].
  destruct st as [ps calls]. unfold seedLine at 2.
  apply Nat.ltb_lt in Hl. rewrite Hl. apply IH.
Qed.

End Reseeding.

(** X8.  Once the pool is not empty, [drawFlowParticles] never seeds again:
    over any sequence of draws, whatever lists of lines are passed, the pool
    and the count of random calls stay as they were, and each draw makes the
    dashes of the particles on the lines they were seeded on, after the faint
    paths of the lines passed in. *)
Theorem a_seeded_pool_is_never_reseeded :
  forall (random : nat -> num) (Math_atan2 : num -> num -> num)
         (Math_cos Math_sin : num -> num)
         (r : EMRenderer) (fieldLines : list fieldLine)
         (frames : list (list fieldLine)),
    flowParticles r <> [] ->
    let draw :=
      fun r ls =>
        fst (drawFlowParticles random Math_atan2 Math_cos Math_sin r ls) in
    let res := drawFlowParticles random Math_atan2 Math_cos Math_sin r fieldLines in
    flowParticles (fold_left draw frames r) = flowParticles r
    /\ randomCalls (fold_left draw frames r) = randomCalls r
    /\ (ctx (fst res), snd res)
       = drawDashes Math_atan2 Math_cos Math_sin
           (fold_left drawPath fieldLines (ctx r)) (flowParticles r).
Proof.
  intros random Math_atan2 Math_cos Math_sin r fieldLines frames Hpool draw res.
  destruct (drawFlowParticles_frames random Math_atan2 Math_cos Math_sin
              frames r Hpool) as [H1 H2].
  destruct (drawFlowParticles_keeps_pool random Math_atan2 Math_cos Math_sin
              r fieldLines Hpool) as (_ & _ & H3).
  split; [exact H1|]. split; [exact H2|exact H3].
Qed.

Lemma a_seeded_pool_is_never_reseeded_witness :
  let random := fun _ : nat => Fin (1 # 2) in
  let Math_atan2 := fun _ _ : num => zero in
  let Math_cos := fun _ : num => one in
  let Math_sin := fun _ : num => zero in
  let old := mkLine [mkPoint (Fin 0) (Fin 0); mkPoint (Fin 10) (Fin 0)] true in
  let new := mkLine [mkPoint (Fin 0) (Fin 5); mkPoint (Fin 0) (Fin 9)] false in
  let r := mkRenderer [] (Fin 800) (Fin 600)
             [mkParticle old (Fin (1 # 2)) (Fin (1 # 2)) true] 12 2 in
  let draw :=
    fun r ls =>
      fst (drawFlowParticles random Math_atan2 Math_cos Math_sin r ls) in
  map line (flowParticles (fold_left draw [[new]; []; [new; new]] r)) = [old]
  /\ randomCalls (fold_left draw [[new]; []; [new; new]] r) = 2%nat.
Proof.
  intros random Math_atan2 Math_cos Math_sin old new r draw.
  destruct (a_seeded_pool_is_never_reseeded random Math_atan2 Math_cos Math_sin
              r [new] [[new]; []; [new; new]]) as (H1 & H2 & _).
  - discriminate.
  - fold draw in H1, H2. rewrite H1, H2. split; reflexivity.
Defined.

(** X9.  With an empty pool and only lines of fewer than 2 points (or no
    line at all), [drawFlowParticles] returns and changes nothing: no path,
    no dash, no particle, no call to [Math.random]. *)
Theorem short_lines_draw_nothing :
  forall (random : nat -> num) (Math_atan2 : num -> num -> num)
         (Math_cos Math_sin : num -> num)
         (r : EMRenderer) (fieldLines : list fieldLine),
    flowParticles r = [] ->
    Forall (fun l => (List.length (points l) < 2)%nat) fieldLines ->
    drawFlowParticles random Math_atan2 Math_cos Math_sin r fieldLines
    = (r, Returned).
Proof.
  intros random Math_atan2 Math_cos Math_sin r fieldLines Hpool Hshort.
  destruct r as [c0 w h fp n k]. cbn [flowParticles] in Hpool. subst fp.
  unfold drawFlowParticles, initFlowParticles, set_ctx, set_flowParticles.
  cbn [flowParticles ctx width height contourLevels randomCalls
       List.length Nat.eqb andb].
  rewrite (short_lines_draw_no_path fieldLines Hshort).
  rewrite (short_lines_seed_nothing random fieldLines Hshort).
  destruct (0 <? List.length fieldLines)%nat; reflexivity.
Qed.

Lemma short_lines_draw_nothing_witness :
  let r := mkRenderer [SetLineWidth one] (Fin 800) (Fin 600) [] 12 4 in
  drawFlowParticles (fun _ => Fin (1 # 2)) (fun _ _ => zero)
    (fun _ => one) (fun _ => zero) r
    [mkLine [] true; mkLine [mkPoint (Fin 3) (Fin 4)] false]
  = (r, Returned).
Proof.
  intros r. apply short_lines_draw_nothing.
  - reflexivity.
  - repeat constructor.
Defined.

(** ** The clock and the particles *)

Lemma last_cons {A : Type} (x d : A) (l : list A) : last (x :: l) d = last l x.
Proof.
  revert x d. induction l as [|y l IH]; intros x d; [reflexivity|].
  change (last (x :: y :: l) d) with (last (y :: l) d).
  rewrite (IH y d), (IH y x). reflexivity.
Qed.

Lemma tick_Fin (a : Animation) (t0 l0 q : Q) :
  animTime a = Fin t0 -> lastTime a = Fin l0 ->
  tick a (Fin q)
  = mkAnimation (updateFlowParticles (renderer a) (Fin ((q + - l0) / 1000)))
      (Fin (t0 + (q + - l0) / 1000)) (Fin q).
Proof.
  intros Ht Hl. unfold tick. rewrite Ht, Hl. reflexivity.
Qed.

Lemma ticks_follow (qs : list Q) :
  forall (a : Animation) (t0 l0 : Q),
    animTime a = Fin t0 -> lastTime a = Fin l0 ->
    nondecreasing_from l0 qs ->
    Forall particle_ok (flowParticles (renderer a)) ->
    lastTime (fold_left tick (map Fin qs) a) = Fin (last qs l0)
    /\ (exists t, animTime (fold_left tick (map Fin qs) a) = Fin t
                  /\ t == t0 + (last qs l0 - l0) / 1000)
    /\ Forall particle_ok
         (flowParticles (renderer (fold_left tick (map Fin qs) a))).
Proof.
  induction qs as [|q qs IH]; intros a t0 l0 Ht Hl Hnd Hok.
  - cbn. split; [exact Hl|]. split; [|exact Hok].
    exists t0. split; [exact Ht|]. field.
  - destruct Hnd as [Hq Hnd]. cbn [map fold_left].
    rewrite (tick_Fin a t0 l0 q Ht Hl), last_cons.
    destruct (IH (mkAnimation
                    (updateFlowParticles (renderer a) (Fin ((q + - l0) / 1000)))
                    (Fin (t0 + (q + - l0) / 1000)) (Fin q))
                 (t0 + (q + - l0) / 1000) q eq_refl eq_refl Hnd)
      as (H1 & (t & H2 & H3) & H4).
    + cbn [renderer]. unfold updateFlowParticles.
      cbn [flowParticles set_flowParticles].
      apply Forall_map. eapply Forall_impl; [|exact Hok].
      intros p Hp. apply updateParticle_ok; [|exact Hp].
      apply ge_Fin.
      assert (0 <= (q + - l0) * / 1000) as P
        by (apply Qmult_le_0_compat; [lra|discriminate]).
      exact P.
    + split; [exact H1|]. split; [|exact H4].
      exists t. split; [exact H2|]. rewrite H3. field.
Qed.

Lemma last_not_before (qs : list Q) :
  forall l0, nondecreasing_from l0 qs -> l0 <= last qs l0.
Proof.
  induction qs as [|q qs IH]; intros l0 Hnd; [cbn; lra|].
  destruct Hnd as [Hq Hnd]. rewrite last_cons.
  specialize (IH q Hnd). lra.
Qed.

(** X10.  Over any sequence of ticks whose clock readings never go back,
    [lastTime] ends at the last reading, [animTime] does not end below its
    starting value, and every particle position stays in [0,1] with its
    speed unchanged in [0.3,0.7]. *)
Theorem ticks_follow_the_clock :
  forall (a : Animation) (t0 l0 : Q) (readings : list Q),
    animTime a = Fin t0 -> lastTime a = Fin l0 ->
    nondecreasing_from l0 readings ->
    Forall particle_ok (flowParticles (renderer a)) ->
    let a' := fold_left tick (map Fin readings) a in
    lastTime a' = Fin (last readings l0)
    /\ ge (animTime a') (animTime a) = true
    /\ Forall (fun p => unit_closed (position p) /\ seed_speed (speed p))
         (flowParticles (renderer a')).
Proof.
  intros a t0 l0 readings Ht Hl Hnd Hok a'.
  destruct (ticks_follow readings a t0 l0 Ht Hl Hnd Hok)
    as (H1 & (t & H2 & H3) & H4).
  split; [exact H1|]. split; [|exact H4].
  subst a'. rewrite H2, Ht. apply ge_Fin.
  pose proof (last_not_before readings l0 Hnd) as Hlast.
  assert (0 <= (last readings l0 - l0) * / 1000) as P
    by (apply Qmult_le_0_compat; [lra|discriminate]).
  rewrite H3. unfold Qdiv. lra.
Qed.

Lemma ticks_follow_the_clock_witness :
  let a := mkAnimation
             (mkRenderer [] (Fin 800) (Fin 600)
                [mkParticle (mkLine [] true) (Fin (1 # 2)) (Fin (1 # 2)) true]
                12 0)
             (Fin 0) (Fin 1000) in
  let a' := fold_left tick [Fin 1016; Fin 1016; Fin 1500; Fin 3000] a in
  lastTime a' = Fin 3000
  /\ ge (animTime a') (animTime a) = true
  /\ Forall (fun p => unit_closed (position p) /\ seed_speed (speed p))
       (flowParticles (renderer a')).
Proof.
  intros a a'.
  apply (ticks_follow_the_clock a 0 1000 [1016; 1016; 1500; 3000]).
  - reflexivity.
  - reflexivity.
  - cbn. repeat split; discriminate.
  - constructor; [|constructor]. split.
    + exists (1 # 2). split; [reflexivity|]. cbn. lra.
    + exists (1 # 2). split; [reflexivity|]. cbn. lra.
Defined.

Lemma updateParticle_no_wrap (p : particle) (q s d : Q) :
  position p = Fin q -> speed p = Fin s -> q + s * d <= 1 ->
  updateParticle (Fin d) p
  = mkParticle (line p) (Fin (q + s * d)) (Fin s) (p_fromPositive p).
Proof.
  intros Hq Hs Hle. unfold updateParticle. rewrite Hq, Hs. cbn [add mul].
  assert (gt (Fin (q + s * d)) one = false) as ->
    by (apply gt_Fin_false; exact Hle).
  reflexivity.
Qed.

(** ** A clock that goes back *)

Section Throwing.

Variable Math_atan2 : num -> num -> num.
Variable Math_cos : num -> num.
Variable Math_sin : num -> num.

Lemma drawDash_negative (c : context) (p : particle) (q : Q) :
  position p = Fin q -> q < 0 ->
  (2 <= List.length (points (line p)))%nat ->
  drawDash Math_atan2 Math_cos Math_sin c p = None.
Proof.
  intros Hq Hneg Hlen. unfold drawDash. rewrite Hq.
  cbn [of_nat sub add neg one mul Math_floor].
  set (n := Z.of_nat (List.length (points (line p)))).
  assert (2 <= inject_Z n) as Hn
    by (change 2 with (inject_Z 2); rewrite <- Zle_Qle; subst n; lia).
  set (w := q * (inject_Z n + - (1))).
  assert (w < 0) as Hw.
  { assert (0 < (- q) * (inject_Z n + - (1)))
      by (apply Qmult_lt_0_compat; lra).
    subst w. lra. }
  assert (Qfloor w < 0)%Z as Hz.
  { pose proof (Qfloor_le w) as F.
    assert (inject_Z (Qfloor w) < inject_Z 0) as L
      by (change (inject_Z 0) with 0; lra).
    now rewrite <- Zlt_Qlt in L. }
  unfold pointAt at 1.
  assert (Qle_bool 0 (inject_Z (Qfloor w)) = false) as ->.
  { apply not_true_iff_false. intros E. apply Qle_bool_iff in E.
    change 0 with (inject_Z 0) in E. rewrite <- Zle_Qle in E. lia. }
  reflexivity.
Qed.

Lemma drawDashes_throws (ps : list particle) :
  Exists (fun p => (2 <= List.length (points (line p)))%nat
                   /\ exists q, position p = Fin q /\ q < 0) ps ->
  forall c, snd (drawDashes Math_atan2 Math_cos Math_sin c ps) = Threw.
Proof.
  induction 1 as [p ps (Hlen & q & Hq & Hneg)|p ps _ IH]; intros c;
    cbn [drawDashes].
  - assert ((List.length (points (line p)) <? 2)%nat = false) as ->
      by (apply Nat.ltb_ge; exact Hlen).
    rewrite (drawDash_negative c p q Hq Hneg Hlen). reflexivity.
  - destruct (List.length (points (line p)) <? 2)%nat; [apply IH|].
    destruct (drawDash Math_atan2 Math_cos Math_sin c p);
      [apply IH|reflexivity].
Qed.

End Throwing.

(** X12.  [tick] takes the clock as it comes.  When a reading is so far
    before [lastTime] that [position + speed * dt] is below -1e-9 for some
    particle on a line of at least 2 points, with its position in [0,1] and
    its speed between 0 and 1, that particle is left at a negative position,
    and the next [drawFlowParticles] reads [points[idx]] at a negative index
    and throws. *)
Theorem a_clock_set_back_makes_drawing_throw :
  forall (random : nat -> num) (Math_atan2 : num -> num -> num)
         (Math_cos Math_sin : num -> num)
         (a : Animation) (fieldLines : list fieldLine)
         (p : particle) (l0 now q s : Q),
    lastTime a = Fin l0 ->
    In p (flowParticles (renderer a)) ->
    position p = Fin q -> speed p = Fin s ->
    (2 <= List.length (points (line p)))%nat ->
    0 <= q <= 1 -> 0 <= s <= 1 ->
    q + s * ((now - l0) / 1000) <= - (1 # 1000000000) ->
    Exists (fun p' => line p' = line p
                      /\ exists q', position p' = Fin q' /\ q' < 0)
      (flowParticles (renderer (tick a (Fin now))))
    /\ snd (drawFlowParticles random Math_atan2 Math_cos Math_sin
              (renderer (tick a (Fin now))) fieldLines)
       = Threw.
Proof.
  intros random Math_atan2 Math_cos Math_sin a fieldLines p l0 now q s
         Hl Hin Hq Hs Hlen _ _ Hmargin.
  assert (q + s * ((now - l0) / 1000) < 0) as Hneg by lra.
  assert (updateParticle (Fin ((now + - l0) / 1000)) p
          = mkParticle (line p) (Fin (q + s * ((now + - l0) / 1000))) (Fin s)
              (p_fromPositive p)) as Hup.
  { apply updateParticle_no_wrap; [exact Hq|exact Hs|].
    unfold Qminus in Hneg. lra. }
  assert (flowParticles (renderer (tick a (Fin now)))
          = map (updateParticle (Fin ((now + - l0) / 1000)))
              (flowParticles (renderer a))) as Hpool.
  { unfold tick. rewrite Hl. reflexivity. }
  assert (In (updateParticle (Fin ((now + - l0) / 1000)) p)
            (flowParticles (renderer (tick a (Fin now))))) as Hin'
    by (rewrite Hpool; apply in_map; exact Hin).
  split.
  - apply Exists_exists. eexists. split; [exact Hin'|].
    rewrite Hup. cbn [line position]. split; [reflexivity|].
    eexists. split; [reflexivity|exact Hneg].
  - destruct (drawFlowParticles_keeps_pool random Math_atan2 Math_cos Math_sin
                (renderer (tick a (Fin now))) fieldLines) as (_ & _ & E).
    { intros E. rewrite E in Hin'. exact Hin'. }
    apply (f_equal snd) in E. cbn [snd] in E. rewrite E.
    apply drawDashes_throws. apply Exists_exists. eexists.
    split; [exact Hin'|]. rewrite Hup. cbn [line position].
    split; [exact Hlen|]. eexists. split; [reflexivity|exact Hneg].
Qed.

Lemma a_clock_set_back_makes_drawing_throw_witness :
  let l := mkLine [mkPoint (Fin 0) (Fin 0); mkPoint (Fin 10) (Fin 0)] true in
  let a := mkAnimation
             (mkRenderer [] (Fin 800) (Fin 600)
                [mkParticle l (Fin (1 # 10)) (Fin (1 # 2)) true] 12 2)
             (Fin 0) (Fin 5000) in
  snd (drawFlowParticles (fun _ => Fin (1 # 2)) (fun _ _ => zero)
         (fun _ => one) (fun _ => zero)
         (renderer (tick a (Fin 4000))) [l])
  = Threw.
Proof.
  intros l a.
  apply (a_clock_set_back_makes_drawing_throw
           (fun _ => Fin (1 # 2)) (fun _ _ => zero) (fun _ => one)
           (fun _ => zero) a [l]
           (mkParticle l (Fin (1 # 10)) (Fin (1 # 2)) true)
           5000 4000 (1 # 10) (1 # 2)).
  - reflexivity.
  - left. reflexivity.
  - reflexivity.
  - reflexivity.
  - cbn. lia.
  - split; discriminate.
  - split; discriminate.
  - discriminate.
Defined.

(** ** Colours that CSS accepts *)

Lemma Qfloor_between (lo hi : Z) (x : Q) :
  inject_Z lo <= x -> x < inject_Z (hi + 1) -> (lo <= Qfloor x <= hi)%Z.
Proof.
  intros Hlo Hhi. split.
  - apply Qfloor_resp_le in Hlo. now rewrite Qfloor_Z in Hlo.
  - pose proof (Qfloor_le x) as F.
    assert (inject_Z (Qfloor x) < inject_Z (hi + 1)) as L
      by (eapply Qle_lt_trans; eassumption).
    rewrite <- Zlt_Qlt in L. lia.
Qed.

Lemma round_channel (lo hi lo' hi' : Z) (x : Q) :
  inject_Z lo <= x + (1 # 2) -> x + (1 # 2) < inject_Z (hi + 1) ->
  (0 <= lo' <= lo)%Z -> (hi <= hi' <= 255)%Z ->
  channel lo' hi' (Math_round (Fin x)).
Proof.
  intros Hlo Hhi Hl Hh. exists (Qfloor (x + (1 # 2))).
  split; [reflexivity|].
  pose proof (Qfloor_between lo hi _ Hlo Hhi). lia.
Qed.

Lemma colour_channels_low (t : Q) :
  0 <= t -> t < 1 # 2 ->
  exists r g b,
    getScientificColor (Fin t) = Rgb r g b
    /\ channel 10 30 r /\ channel 10 30 g /\ channel 60 192 b.
Proof.
  intros H0 H1. unfold getScientificColor.
  assert (lt (Fin t) (Fin (1 # 2)) = true) as -> by (apply lt_Fin; exact H1).
  do 3 eexists. split; [reflexivity|].
  cbn [mul add sub neg one].
  split; [|split].
  - apply (round_channel 10 30); unfold inject_Z; cbn; try lia; lra.
  - apply (round_channel 10 30); unfold inject_Z; cbn; try lia; lra.
  - apply (round_channel 60 192); unfold inject_Z; cbn; try lia; lra.
Qed.

Lemma colour_channels_high (t : Q) :
  1 # 2 <= t -> t <= 1 ->
  exists r g b,
    getScientificColor (Fin t) = Rgb r g b
    /\ channel 10 30 r /\ channel 30 175 g /\ channel 20 30 b.
Proof.
  intros H0 H1. unfold getScientificColor.
  assert (lt (Fin t) (Fin (1 # 2)) = false) as ->
    by (apply lt_Fin_false; exact H0).
  do 3 eexists. split; [reflexivity|].
  cbn [mul add sub neg one].
  split; [|split].
  - apply (round_channel 10 30); unfold inject_Z; cbn; try lia; lra.
  - apply (round_channel 30 175); unfold inject_Z; cbn; try lia; lra.
  - apply (round_channel 20 30); unfold inject_Z; cbn; try lia; lra.
Qed.

Lemma channel_widen (lo hi lo' hi' : Z) (c : num) :
  (0 <= lo' <= lo)%Z -> (hi <= hi' <= 255)%Z ->
  channel lo hi c -> channel lo' hi' c.
Proof.
  intros Hl Hh (z & -> & H1 & H2). exists z. split; [reflexivity|]. lia.
Qed.

(** X13.  For every [t] from 0 to 1, [getScientificColor] returns three
    integer channels, red from 10 to 30, green from 10 to 175 and blue from
    20 to 192: a colour that CSS accepts as written.  Below one half the
    green channel equals the red one and blue stays at 60 or more; from one
    half on green is at least 30 and blue at most 30. *)
Theorem scientific_colours_are_valid :
  forall t : Q,
    0 <= t -> t <= 1 ->
    exists r g b,
      getScientificColor (Fin t) = Rgb r g b
      /\ channel 10 30 r /\ channel 10 175 g /\ channel 20 192 b
      /\ ((t < 1 # 2 /\ g = r /\ channel 60 192 b)
          \/ (1 # 2 <= t /\ channel 30 175 g /\ channel 20 30 b)).
Proof.
  intros t H0 H1.
  destruct (Qlt_le_dec t (1 # 2)) as [L|L].
  - destruct (colour_channels_low t H0 L) as (r & g & b & E & Hr & Hg & Hb).
    exists r, g, b. split; [exact E|].
    split; [exact Hr|].
    split; [apply (channel_widen 10 30); [lia|lia|exact Hg]|].
    split; [apply (channel_widen 60 192); [lia|lia|exact Hb]|].
    left. split; [exact L|]. split; [|exact Hb].
    unfold getScientificColor in E.
    assert (lt (Fin t) (Fin (1 # 2)) = true) as Hlt by (apply lt_Fin; exact L).
    rewrite Hlt in E. injection E as <- <- _. reflexivity.
  - destruct (colour_channels_high t L H1) as (r & g & b & E & Hr & Hg & Hb).
    exists r, g, b. split; [exact E|].
    split; [exact Hr|].
    split; [apply (channel_widen 30 175); [lia|lia|exact Hg]|].
    split; [apply (channel_widen 20 30); [lia|lia|exact Hb]|].
    right. split; [exact L|]. split; assumption.
Qed.

Lemma scientific_colours_are_valid_witness :
  exists r g b,
    getScientificColor (Fin (3 # 4)) = Rgb r g b
    /\ channel 10 30 r /\ channel 10 175 g /\ channel 20 192 b.
Proof.
  destruct (scientific_colours_are_valid (3 # 4))
    as (r & g & b & E & Hr & Hg & Hb & _); [discriminate|discriminate|].
  exists r, g, b. repeat split; assumption.
Defined.

(** ** The 2D wave *)

Lemma fold_left_Some_in {A B : Type} (f : B -> A -> A) (l : list B) :
  forall (body : B -> A -> option A) (a : A),
    (forall i s, In i l -> body i s = Some (f i s)) ->
    fold_left (fun acc i => match acc with Some s => body i s | None => None end)
      l (Some a)
    = Some (fold_left (fun s i => f i s) l a).
Proof.
  induction l as [|i l IH]; intros body a Hbody; cbn; [reflexivity|].
  rewrite Hbody by (now left). apply IH.
  intros k s Hk. apply Hbody. now right.
Qed.

Lemma loop_returns {A : Type} (n : nat) (f : nat -> A -> A)
    (body : nat -> A -> option A) (a : A) :
  (forall i s, (i < n)%nat -> body i s = Some (f i s)) ->
  loop n body a = Some (fold_left (fun s i => f i s) (seq 0 n) a).
Proof.
  intros Hbody. unfold loop. apply fold_left_Some_in.
  intros i s Hi. apply in_seq in Hi. apply Hbody. lia.
Qed.

Lemma readEz_ok (f : wave2D) (i j : nat) :
  List.length (Ez f) = nx f -> (i < nx f)%nat ->
  readEz f i j = Some (cellAt f i j).
Proof.
  intros Hlen Hi. unfold readEz, cellAt.
  rewrite (nth_error_nth' (Ez f) []) by lia. reflexivity.
Qed.

Lemma cellAt_finite (f : wave2D) (i j : nat) :
  wave_ok f -> (i < nx f)%nat -> (j < ny f)%nat ->
  isFinite (cellAt f i j) = true.
Proof.
  intros [Hlen Hrows] Hi Hj. unfold cellAt.
  rewrite Forall_forall in Hrows.
  destruct (Hrows (nth i (Ez f) [])) as [Hr Hfin];
    [apply nth_In; lia|].
  rewrite Forall_forall in Hfin. apply Hfin, nth_In. lia.
Qed.

(** The running maximum of the absolute values. *)
Lemma maxAbs_step (m e : Q) :
  0 <= m ->
  exists m', Math_max (Fin m) (Math_abs (Fin e)) = Fin m'
             /\ m <= m' /\ Qabs e <= m'.
Proof.
  intros Hm. cbn [Math_abs]. unfold Math_max, cmp.
  destruct (m ?= Qabs e) eqn:C.
  - apply Qeq_alt in C. exists m. split; [reflexivity|]. lra.
  - apply Qlt_alt in C. exists (Qabs e). split; [reflexivity|]. lra.
  - apply Qgt_alt in C. exists m. split; [reflexivity|]. lra.
Qed.

Lemma maxAbs_row (f : wave2D) (i : nat) :
  wave_ok f -> (i < nx f)%nat ->
  forall (k : nat) (m : Q),
    (k <= ny f)%nat -> 0 <= m ->
    exists m',
      fold_left (fun mx j => Math_max mx (Math_abs (cellAt f i j)))
        (seq 0 k) (Fin m) = Fin m'
      /\ m <= m'
      /\ forall j, (j < k)%nat ->
                   exists e, cellAt f i j = Fin e /\ Qabs e <= m'.
Proof.
  intros Hok Hi. induction k as [|k IH]; intros m Hk Hm.
  - exists m. cbn. split; [reflexivity|]. split; [lra|]. intros j Hj. lia.
  - rewrite seq_S, fold_left_app. cbn [Nat.add fold_left].
    destruct (IH m) as (m1 & -> & H1 & Hall); [lia|exact Hm|].
    pose proof (cellAt_finite f i k Hok Hi) as Hfin.
    destruct (cellAt f i k) as [e| | |] eqn:E;
      try (specialize (Hfin ltac:(lia)); discriminate Hfin).
    destruct (maxAbs_step m1 e) as (m' & -> & H2 & H3); [lra|].
    exists m'. split; [reflexivity|]. split; [lra|].
    intros j Hj. destruct (Nat.eq_dec j k) as [->|Hne].
    + exists e. split; [exact E|exact H3].
    + destruct (Hall j) as (e' & He' & Hb); [lia|].
      exists e'. split; [exact He'|lra].
Qed.

Lemma maxAbs_grid (f : wave2D) :
  wave_ok f ->
  forall (k : nat) (m : Q),
    (k <= nx f)%nat -> 0 <= m ->
    exists m',
      fold_left
        (fun mx i =>
           fold_left (fun mx j => Math_max mx (Math_abs (cellAt f i j)))
             (seq 0 (ny f)) mx)
        (seq 0 k) (Fin m) = Fin m'
      /\ m <= m'
      /\ forall i j, (i < k)%nat -> (j < ny f)%nat ->
                     exists e, cellAt f i j = Fin e /\ Qabs e <= m'.
Proof.
  intros Hok. induction k as [|k IH]; intros m Hk Hm.
  - exists m. cbn. split; [reflexivity|]. split; [lra|]. intros i j Hi. lia.
  - rewrite seq_S, fold_left_app. cbn [Nat.add fold_left].
    destruct (IH m) as (m1 & -> & H1 & Hall); [lia|exact Hm|].
    destruct (maxAbs_row f k Hok ltac:(lia) (ny f) m1 (Nat.le_refl _))
      as (m' & -> & H2 & Hrow); [lra|].
    exists m'. split; [reflexivity|]. split; [lra|].
    intros i j Hi Hj. destruct (Nat.eq_dec i k) as [->|Hne].
    + apply Hrow. exact Hj.
    + destruct (Hall i j) as (e & He & Hb); [lia|exact Hj|].
      exists e. split; [exact He|lra].
Qed.

Lemma waveMax_bounds (f : wave2D) :
  wave_ok f ->
  exists M,
    waveMax f = Some (Fin M)
    /\ 1 # 10000000000 <= M
    /\ forall i j, (i < nx f)%nat -> (j < ny f)%nat ->
                   exists e, cellAt f i j = Fin e /\ Qabs e <= M.
Proof.
  intros Hok. unfold waveMax.
  rewrite (loop_returns (nx f)
             (fun i mx =>
                fold_left (fun mx j => Math_max mx (Math_abs (cellAt f i j)))
                  (seq 0 (ny f)) mx)).
  - destruct (maxAbs_grid f Hok (nx f) 0 (Nat.le_refl _))
      as (m & Hm & H0 & Hall); [lra|].
    change zero with (Fin 0). rewrite Hm.
    unfold Math_max, cmp.
    destruct (m ?= 1 # 10000000000) eqn:C.
    + apply Qeq_alt in C. exists m. split; [reflexivity|].
      split; [lra|exact Hall].
    + apply Qlt_alt in C. exists (1 # 10000000000). split; [reflexivity|].
      split; [lra|]. intros i j Hi Hj.
      destruct (Hall i j Hi Hj) as (e & He & Hb).
      exists e. split; [exact He|lra].
    + apply Qgt_alt in C. exists m. split; [reflexivity|].
      split; [lra|exact Hall].
  - intros i mx Hi.
    apply loop_returns. intros j mx' Hj.
    rewrite (readEz_ok f i j (proj1 Hok) Hi). reflexivity.
Qed.

Lemma normalized_in_unit (e M : Q) :
  0 < M -> Qabs e <= M ->
  exists t, ((Fin e / Fin M + one) / Fin 2)%num = Fin t /\ 0 <= t /\ t <= 1.
Proof.
  intros HM Habs. cbn.
  destruct (Qeq_bool M 0) eqn:E; [apply Qeq_bool_eq in E; lra|].
  eexists. split; [reflexivity|].
  apply Qabs_Qle_condition in Habs. destruct Habs as [Hlo Hhi].
  set (q := e / M).
  assert (q * M == e) as Hq by (unfold q; field; lra).
  assert (- (1) <= q /\ q <= 1) as [Q0 Q1].
  { split; apply Qnot_lt_le; intros C.
    - assert (0 < (- (1) - q) * M) by (apply Qmult_lt_0_compat; lra). lra.
    - assert (0 < (q - 1) * M) by (apply Qmult_lt_0_compat; lra). lra. }
  assert ((q + 1) / 2 == (q + 1) * (1 # 2)) as Eh by (field).
  rewrite Eh. lra.
Qed.

Lemma count_fillRect_cells {B : Type} (F : B -> list canvas_op) (l : list B)
    (k : nat) :
  (forall x, List.length (filter is_fillRect (F x)) = k) ->
  List.length (filter is_fillRect (flat_map F l)) = (List.length l * k)%nat.
Proof.
  intros HF. induction l as [|x l IH]; cbn; [reflexivity|].
  rewrite filter_app, length_app, IH, HF. reflexivity.
Qed.

(** X14.  For a well-formed field of [nx] by [ny] finite values and no
    colormap of the caller's, [drawWave2D] returns and fills exactly
    [nx * ny] rectangles; the maximum it divides by is at least 1e-10, so
    never zero, every normalized value it passes to [getScientificColor] is
    between 0 and 1, and every fill style it sets has three integer channels
    from 0 to 255. *)
Theorem wave_cells_get_valid_colours :
  forall (c : canvas) (width height : num) (f : wave2D),
    wave_ok f ->
    exists M,
      waveMax f = Some (Fin M) /\ 1 # 10000000000 <= M
      /\ drawWave2D c width height f None
         = Some (c ++ flat_map
                        (fun i => flat_map (waveCellOps width height (Fin M) f i)
                                    (seq 0 (ny f)))
                        (seq 0 (nx f)))
      /\ Forall valid_fill
           (flat_map
              (fun i => flat_map (waveCellOps width height (Fin M) f i)
                          (seq 0 (ny f)))
              (seq 0 (nx f)))
      /\ List.length
           (filter is_fillRect
              (flat_map
                 (fun i => flat_map (waveCellOps width height (Fin M) f i)
                             (seq 0 (ny f)))
                 (seq 0 (nx f))))
         = (nx f * ny f)%nat.
Proof.
  intros c width height f Hok.
  destruct (waveMax_bounds f Hok) as (M & HM & Hpos & Hall).
  exists M. split; [exact HM|]. split; [exact Hpos|]. split; [|split].
  - unfold drawWave2D. rewrite HM.
    rewrite (loop_returns (nx f)
               (fun i c => c ++ flat_map (waveCellOps width height (Fin M) f i)
                                 (seq 0 (ny f)))).
    + now rewrite fold_left_app_flat_map.
    + intros i c' Hi.
      rewrite (loop_returns (ny f)
                 (fun j c => c ++ waveCellOps width height (Fin M) f i j)).
      * now rewrite fold_left_app_flat_map.
      * intros j c'' Hj. rewrite (readEz_ok f i j (proj1 Hok) Hi).
        unfold waveCellOps. rewrite <- app_assoc. reflexivity.
  - apply Forall_flat_map, Forall_forall. intros i Hi.
    apply Forall_flat_map, Forall_forall. intros j Hj.
    apply in_seq in Hi, Hj.
    destruct (Hall i j) as (e & He & Hb); [lia|lia|].
    unfold waveCellOps. rewrite He.
    destruct (normalized_in_unit e M) as (t & -> & T0 & T1); [lra|exact Hb|].
    assert (exists r g b,
               getScientificColor (Fin t) = Rgb r g b
               /\ channel 10 30 r /\ channel 10 175 g /\ channel 20 192 b)
      as (r & g & b & -> & Hr & Hg & Hbl).
    { destruct (Qlt_le_dec t (1 # 2)) as [L|L].
      - destruct (colour_channels_low t T0 L)
          as (r & g & b & E & Hr & Hg & Hbl).
        exists r, g, b. split; [exact E|]. split; [exact Hr|].
        split; [apply (channel_widen 10 30); [lia|lia|exact Hg]|].
        apply (channel_widen 60 192); [lia|lia|exact Hbl].
      - destruct (colour_channels_high t L T1)
          as (r & g & b & E & Hr & Hg & Hbl).
        exists r, g, b. split; [exact E|]. split; [exact Hr|].
        split; [apply (channel_widen 30 175); [lia|lia|exact Hg]|].
        apply (channel_widen 20 30); [lia|lia|exact Hbl]. }
    constructor; [cbn; auto|]. constructor; [exact I|constructor].
  - rewrite (count_fillRect_cells _ _ (ny f)), length_seq; [reflexivity|].
    intros i. rewrite (count_fillRect_cells _ _ 1%nat), length_seq; [lia|].
    intros j. reflexivity.
Qed.

Lemma wave_cells_get_valid_colours_witness :
  let f := mkWave2D 2 2 [[Fin 1; Fin (-2)]; [Fin 0; Fin (1 # 2)]] in
  exists M,
    waveMax f = Some (Fin M) /\ 1 # 10000000000 <= M
    /\ drawWave2D [] (Fin 100) (Fin 50) f None
       = Some ([] ++ flat_map
                       (fun i => flat_map
                                   (waveCellOps (Fin 100) (Fin 50) (Fin M) f i)
                                   (seq 0 (ny f)))
                       (seq 0 (nx f)))
    /\ Forall valid_fill
         (flat_map
            (fun i => flat_map (waveCellOps (Fin 100) (Fin 50) (Fin M) f i)
                        (seq 0 (ny f)))
            (seq 0 (nx f)))
    /\ List.length
         (filter is_fillRect
            (flat_map
               (fun i => flat_map (waveCellOps (Fin 100) (Fin 50) (Fin M) f i)
                           (seq 0 (ny f)))
               (seq 0 (nx f))))
       = (nx f * ny f)%nat.
Proof.
  intros f. apply (wave_cells_get_valid_colours [] (Fin 100) (Fin 50) f).
  split; [reflexivity|]. repeat constructor.
Defined.

Lemma fold_left_throws {A B : Type} (body : B -> A -> option A) (i : B)
    (l : list B) :
  In i l -> (forall s, body i s = None) ->
  forall acc,
    fold_left (fun acc i => match acc with Some s => body i s | None => None end)
      l acc
    = None.
Proof.
  intros Hin Hbody. induction l as [|k l IH]; intros acc; [contradiction|].
  cbn [fold_left]. destruct Hin as [->|Hin].
  - destruct acc as [s|]; [rewrite Hbody|]; apply fold_left_None.
  - apply IH. exact Hin.
Qed.

Lemma loop_throws {A : Type} (n i : nat) (body : nat -> A -> option A) (a : A) :
  (i < n)%nat -> (forall s, body i s = None) -> loop n body a = None.
Proof.
  intros Hi Hbody. unfold loop.
  apply (fold_left_throws body i); [apply in_seq; lia|exact Hbody].
Qed.

(** X15.  When [fdtd.Ez] has fewer than [nx] rows and [ny] is not zero,
    [drawWave2D] reads [Ez[i][0]] of a row that is [undefined] and throws,
    during the search for the maximum and so before anything is drawn. *)
Theorem a_missing_row_makes_the_wave_throw :
  forall (c : canvas) (width height : num) (f : wave2D)
         (colormap : option (num -> string)),
    (List.length (Ez f) < nx f)%nat -> (0 < ny f)%nat ->
    waveMax f = None
    /\ drawWave2D c width height f colormap = None.
Proof.
  intros c width height f colormap Hrows Hny.
  assert (waveMax f = None) as HM.
  { unfold waveMax.
    rewrite (loop_throws (nx f) (List.length (Ez f))); [reflexivity|exact Hrows|].
    intros m. apply (loop_throws (ny f) 0%nat); [exact Hny|].
    intros m'. unfold readEz.
    assert (nth_error (Ez f) (List.length (Ez f)) = None) as ->
      by (apply nth_error_None; lia).
    reflexivity. }
  split; [exact HM|]. unfold drawWave2D. rewrite HM. reflexivity.
Qed.

Lemma a_missing_row_makes_the_wave_throw_witness :
  drawWave2D [] (Fin 100) (Fin 50) (mkWave2D 3 2 [[Fin 1; Fin 2]; [Fin 0; Fin 1]])
    None
  = None.
Proof.
  apply a_missing_row_makes_the_wave_throw; cbn; lia.
Defined.

Lemma Math_max_NaN_l (a : num) : Math_max NaN a = NaN.
Proof. reflexivity. Qed.

Lemma Math_max_NaN_r (a : num) : Math_max a NaN = NaN.
Proof. destruct a; reflexivity. Qed.

Lemma maxAbs_NaN_stays {B : Type} (h : B -> num) (l : list B) :
  fold_left (fun mx j => Math_max mx (Math_abs (h j))) l NaN = NaN.
Proof. induction l as [|j l IH]; cbn; [reflexivity|exact IH]. Qed.

Lemma maxAbs_NaN_found {B : Type} (h : B -> num) (l : list B) (j0 : B) :
  In j0 l -> h j0 = NaN ->
  forall m, fold_left (fun mx j => Math_max mx (Math_abs (h j))) l m = NaN.
Proof.
  intros Hin Hnan. induction l as [|j l IH]; intros m; [contradiction|].
  cbn [fold_left]. destruct Hin as [->|Hin].
  - rewrite Hnan. cbn [Math_abs]. rewrite Math_max_NaN_r.
    apply maxAbs_NaN_stays.
  - apply IH. exact Hin.
Qed.

Lemma maxAbs_rows_NaN_stays (f : wave2D) (l : list nat) :
  fold_left
    (fun mx i =>
       fold_left (fun mx j => Math_max mx (Math_abs (cellAt f i j)))
         (seq 0 (ny f)) mx)
    l NaN
  = NaN.
Proof.
  induction l as [|i l IH]; cbn [fold_left]; [reflexivity|].
  rewrite maxAbs_NaN_stays. exact IH.
Qed.

Lemma maxAbs_rows_NaN_found (f : wave2D) (l : list nat) (i0 j0 : nat) :
  In i0 l -> (j0 < ny f)%nat -> cellAt f i0 j0 = NaN ->
  forall m,
    fold_left
      (fun mx i =>
         fold_left (fun mx j => Math_max mx (Math_abs (cellAt f i j)))
           (seq 0 (ny f)) mx)
      l m
    = NaN.
Proof.
  intros Hin Hj Hnan. induction l as [|i l IH]; intros m; [contradiction|].
  cbn [fold_left]. destruct Hin as [->|Hin].
  - rewrite (maxAbs_NaN_found (cellAt f i0) _ j0);
      [apply maxAbs_rows_NaN_stays|apply in_seq; lia|exact Hnan].
  - apply IH. exact Hin.
Qed.

Lemma div_NaN (a : num) : (a / NaN)%num = NaN.
Proof. destruct a; reflexivity. Qed.

(** X16.  One NaN in the field spoils the whole frame: when [Ez] has its
    [nx] rows and some [Ez[i][j]] inside the field is NaN, or is missing
    because its row is too short, the maximum is NaN and [drawWave2D] sets
    the fill style [rgb(NaN,NaN,NaN)] for every cell. *)
Theorem one_NaN_spoils_every_cell :
  forall (c : canvas) (width height : num) (f : wave2D) (i0 j0 : nat),
    List.length (Ez f) = nx f ->
    (i0 < nx f)%nat -> (j0 < ny f)%nat ->
    cellAt f i0 j0 = NaN ->
    waveMax f = Some NaN
    /\ exists ops,
        drawWave2D c width height f None = Some (c ++ ops)
        /\ Forall nan_fill ops
        /\ List.length (filter is_fillRect ops) = (nx f * ny f)%nat.
Proof.
  intros c width height f i0 j0 Hlen Hi Hj Hnan.
  assert (waveMax f = Some NaN) as HM.
  { unfold waveMax.
    rewrite (loop_returns (nx f)
               (fun i mx =>
                  fold_left (fun mx j => Math_max mx (Math_abs (cellAt f i j)))
                    (seq 0 (ny f)) mx)).
    - rewrite (maxAbs_rows_NaN_found f _ i0 j0);
        [reflexivity|apply in_seq; lia|exact Hj|exact Hnan].
    - intros i mx Hi'. apply loop_returns. intros j mx' Hj'.
      rewrite (readEz_ok f i j Hlen Hi'). reflexivity. }
  split; [exact HM|].
  exists (flat_map (fun i => flat_map (waveCellOps width height NaN f i)
                               (seq 0 (ny f)))
            (seq 0 (nx f))).
  split; [|split].
  - unfold drawWave2D. rewrite HM.
    rewrite (loop_returns (nx f)
               (fun i c => c ++ flat_map (waveCellOps width height NaN f i)
                                 (seq 0 (ny f)))).
    + now rewrite fold_left_app_flat_map.
    + intros i c' Hi'.
      rewrite (loop_returns (ny f)
                 (fun j c => c ++ waveCellOps width height NaN f i j)).
      * now rewrite fold_left_app_flat_map.
      * intros j c'' Hj'. rewrite (readEz_ok f i j Hlen Hi').
        unfold waveCellOps. rewrite <- app_assoc. reflexivity.
  - apply Forall_flat_map, Forall_forall. intros i _.
    apply Forall_flat_map, Forall_forall. intros j _.
    unfold waveCellOps. rewrite div_NaN.
    constructor; [reflexivity|]. constructor; [exact I|constructor].
  - rewrite (count_fillRect_cells _ _ (ny f)), length_seq; [reflexivity|].
    intros i. rewrite (count_fillRect_cells _ _ 1%nat), length_seq; [lia|].
    intros j. reflexivity.
Qed.

Lemma one_NaN_spoils_every_cell_witness :
  let f := mkWave2D 2 2 [[Fin 1; Fin 2]; [Fin 3]] in
  waveMax f = Some NaN
  /\ exists ops,
      drawWave2D [] (Fin 100) (Fin 50) f None = Some ([] ++ ops)
      /\ Forall nan_fill ops
      /\ List.length (filter is_fillRect ops) = (nx f * ny f)%nat.
Proof.
  intros f.
  apply (one_NaN_spoils_every_cell [] (Fin 100) (Fin 50) f 1 1);
    try reflexivity; cbn; lia.
Defined.

(** ** Charge glyphs *)

Lemma chargeRadius_Fin (q : Q) :
  exists rho,
    chargeRadius (Fin q) = Fin rho
    /\ 10 <= rho /\ rho <= 20
    /\ (Qabs q * 1000000000 * 4 <= 10 -> rho == 10)
    /\ (20 <= Qabs q * 1000000000 * 4 -> rho == 20)
    /\ (10 <= Qabs q * 1000000000 * 4 <= 20 ->
        rho == Qabs q * 1000000000 * 4).
Proof.
  unfold chargeRadius. cbn [Math_abs mul].
  set (v := Qabs q * 1000000000 * 4).
  unfold Math_max at 1. unfold cmp.
  destruct (10 ?= v) eqn:C1.
  - apply Qeq_alt in C1. exists 10. split; [reflexivity|].
    repeat split; intros; lra.
  - apply Qlt_alt in C1. unfold Math_min, cmp.
    destruct (20 ?= v) eqn:C2.
    + apply Qeq_alt in C2. exists 20. split; [reflexivity|].
      repeat split; intros; lra.
    + apply Qlt_alt in C2. exists 20. split; [reflexivity|].
      repeat split; intros; lra.
    + apply Qgt_alt in C2. exists v. split; [reflexivity|].
      repeat split; intros; lra.
  - apply Qgt_alt in C1. exists 10. split; [reflexivity|].
    repeat split; intros; lra.
Qed.

Lemma drawCharge_ops (c : canvas) (x y q : num) (rho : Q) :
  10 <= rho -> rho <= 20 ->
  exists ops,
    drawCharge c x y q (Fin rho) = c ++ ops
    /\ Forall glyph_sized ops
    /\ List.length (filter is_fillText ops) = 1%nat.
Proof.
  intros H0 H1. unfold drawCharge, drawIndicatorGlow.
  repeat rewrite <- app_assoc. cbn [app].
  eexists. split; [reflexivity|]. split; [|reflexivity].
  cbn [mul add].
  repeat (apply Forall_cons;
          [first [exact I
                 | cbn; eexists; repeat (split; [reflexivity|]); lra]|]).
  apply Forall_nil.
Qed.

(** X17.  Whatever the magnitudes of the charges, as long as none is NaN,
    [drawChargeSystem] draws one glyph per charge with bounded sizes: the
    radius passed to [drawCharge] is [4e9 * |charge|] kept between 10 and
    20, so every circle has a radius from 2 to 24, the glow square a side
    from 60 to 120 and the font a size from 9 to 18 pixels; one label is
    written per charge. *)
Theorem charge_glyphs_have_bounded_size :
  forall (c : canvas) (charges : list pointCharge),
    Forall (fun ch => isFinite (charge ch) = true) charges ->
    exists ops,
      drawChargeSystem c charges = c ++ ops
      /\ Forall glyph_sized ops
      /\ List.length (filter is_fillText ops) = List.length charges
      /\ Forall
           (fun ch =>
              exists q rho,
                charge ch = Fin q /\ chargeRadius (charge ch) = Fin rho
                /\ 10 <= rho /\ rho <= 20
                /\ rho == (let v := Qabs q * 1000000000 * 4 in
                           if Qle_bool v 10 then 10
                           else if Qle_bool 20 v then 20 else v))
           charges.
Proof.
  intros c charges Hfin. revert c.
  induction Hfin as [|ch charges Hch _ IH]; intros c.
  - exists []. cbn. rewrite app_nil_r. repeat split; constructor.
  - destruct (charge ch) as [q| | |] eqn:Eq; try discriminate Hch.
    destruct (chargeRadius_Fin q) as (rho & Hrho & H0 & H1 & Hlo & Hhi & Hmid).
    destruct (drawCharge_ops c (charge_x ch) (charge_y ch) (Fin q) rho H0 H1)
      as (ops1 & E1 & G1 & T1).
    destruct (IH (c ++ ops1)) as (ops2 & E2 & G2 & T2 & R2).
    exists (ops1 ++ ops2).
    cbn [drawChargeSystem fold_left]. rewrite Eq, Hrho, E1.
    unfold drawChargeSystem in E2. rewrite E2, app_assoc.
    split; [reflexivity|]. split; [apply Forall_app; split; assumption|].
    split.
    + rewrite filter_app, length_app, T1, T2. reflexivity.
    + constructor; [|exact R2]. rewrite Eq. exists q, rho.
      repeat (split; [assumption || reflexivity|]). cbv zeta.
      destruct (Qle_bool (Qabs q * 1000000000 * 4) 10) eqn:L1.
      * apply Qle_bool_iff in L1. apply Hlo, L1.
      * assert (10 < Qabs q * 1000000000 * 4) as L1'.
        { apply Qnot_le_lt. intros C. apply Qle_bool_iff in C. congruence. }
        destruct (Qle_bool 20 (Qabs q * 1000000000 * 4)) eqn:L2.
        -- apply Qle_bool_iff in L2. apply Hhi, L2.
        -- assert (Qabs q * 1000000000 * 4 < 20) as L2'.
           { apply Qnot_le_lt. intros C. apply Qle_bool_iff in C. congruence. }
           apply Hmid. split; lra.
Qed.

Lemma charge_glyphs_have_bounded_size_witness :
  let charges :=
    [mkCharge (Fin 100) (Fin 100) (Fin (1 # 1000000000));
     mkCharge (Fin 300) (Fin 100) (Fin (-5)); mkCharge (Fin 200) (Fin 50) (Fin 0)] in
  exists ops,
    drawChargeSystem [] charges = [] ++ ops
    /\ Forall glyph_sized ops
    /\ List.length (filter is_fillText ops) = 3%nat.
Proof.
  intros charges.
  destruct (charge_glyphs_have_bounded_size [] charges)
    as (ops & E & G & T & _).
  - repeat constructor.
  - exists ops. split; [exact E|]. split; [exact G|exact T].
Defined.

(** ** Arrows *)

Lemma Math_min_Fin (a b : Q) :
  exists m, Math_min (Fin a) (Fin b) = Fin m /\ m == least a b.
Proof.
  unfold Math_min, cmp, least.
  destruct (a ?= b) eqn:C.
  - apply Qeq_alt in C. exists a. split; [reflexivity|].
    destruct (Qle_bool a b); [reflexivity|exact C].
  - apply Qlt_alt in C. exists a. split; [reflexivity|].
    assert (Qle_bool a b = true) as -> by (apply Qle_bool_iff; lra).
    reflexivity.
  - apply Qgt_alt in C. exists b. split; [reflexivity|].
    destruct (Qle_bool a b) eqn:L; [|reflexivity].
    apply Qle_bool_iff in L. lra.
Qed.

Lemma least_bounds (a b : Q) : least a b <= a /\ least a b <= b.
Proof.
  unfold least. destruct (Qle_bool a b) eqn:L.
  - apply Qle_bool_iff in L. lra.
  - assert (b < a) by (apply Qnot_le_lt; intros C;
                       apply Qle_bool_iff in C; congruence).
    lra.
Qed.

Lemma least_nonneg (a b : Q) : 0 <= a -> 0 <= b -> 0 <= least a b.
Proof. intros Ha Hb. unfold least. destruct (Qle_bool a b); assumption. Qed.

Section ArrowLength.

Variable Math_sqrt : num -> num.
Variable Math_atan2 : num -> num -> num.
Variable Math_cos : num -> num.
Variable Math_sin : num -> num.
Variable Math_PI : num.

Lemma drawArrow_shaft (c : canvas) (x y dx dy len k M : Q) (color : string) :
  Math_sqrt (Fin (dx * dx + dy * dy)) = Fin len ->
  1 <= len ->
  exists m rest,
    drawArrow Math_sqrt Math_atan2 Math_cos Math_sin Math_PI (Fin k)
      c (Fin x) (Fin y) (Fin dx) (Fin dy) color (Fin M)
    = c ++ Op BeginPath :: Op (MoveTo (Fin x) (Fin y))
           :: Op (LineTo (Fin (x + dx * (m / len))) (Fin (y + dy * (m / len))))
           :: rest
    /\ m == least M (len * k).
Proof.
  intros Hsqrt H1. unfold drawArrow. cbn [mul add]. rewrite Hsqrt.
  assert (lt (Fin len) one = false) as -> by (apply lt_Fin_false; exact H1).
  cbn [mul].
  destruct (Math_min_Fin M (len * k)) as (m & -> & Hm).
  cbn [div].
  assert (Qeq_bool len 0 = false) as ->.
  { apply not_true_iff_false. intros E. apply Qeq_bool_eq in E. lra. }
  cbn [mul add]. repeat rewrite <- app_assoc. cbn [app].
  do 2 eexists. split; [reflexivity|exact Hm].
Qed.

End ArrowLength.

(** The squared length of a vector of squared length about [len * len],
    scaled by [m / len], is about [m * m]. *)
Lemma scaled_shaft (x y dx dy len m eta : Q) :
  1 <= len -> 0 <= m -> 0 <= eta ->
  (1 - eta) * (dx * dx + dy * dy) <= len * len ->
  len * len <= (1 + eta) * (dx * dx + dy * dy) ->
  (1 - eta) * ((x + dx * (m / len) - x) * (x + dx * (m / len) - x)
               + (y + dy * (m / len) - y) * (y + dy * (m / len) - y))
  <= m * m
  /\ m * m
     <= (1 + eta) * ((x + dx * (m / len) - x) * (x + dx * (m / len) - x)
                     + (y + dy * (m / len) - y) * (y + dy * (m / len) - y)).
Proof.
  intros Hlen Hm Heta Hlo Hhi.
  set (kk := m / len).
  assert (kk * len == m) as Hk by (unfold kk; field; lra).
  assert (0 <= kk) as Hkk.
  { unfold kk, Qdiv. apply Qmult_le_0_compat; [exact Hm|].
    apply Qinv_le_0_compat. lra. }
  assert (0 <= kk * kk) as Hkk2 by (apply Qmult_le_0_compat; assumption).
  assert ((kk * kk) * (len * len) == m * m) as Hsq
    by (rewrite <- Hk; ring).
  assert (0 <= (len * len - (1 - eta) * (dx * dx + dy * dy)) * (kk * kk))
    as P1 by (apply Qmult_le_0_compat; lra).
  assert (0 <= ((1 + eta) * (dx * dx + dy * dy) - len * len) * (kk * kk))
    as P2 by (apply Qmult_le_0_compat; lra).
  assert ((x + dx * kk - x) * (x + dx * kk - x)
          + (y + dy * kk - y) * (y + dy * kk - y)
          == (dx * dx + dy * dy) * (kk * kk)) as -> by ring.
  assert ((len * len - (1 - eta) * (dx * dx + dy * dy)) * (kk * kk)
          == m * m - (1 - eta) * ((dx * dx + dy * dy) * (kk * kk))) as E1
    by (rewrite <- Hsq; ring).
  assert (((1 + eta) * (dx * dx + dy * dy) - len * len) * (kk * kk)
          == (1 + eta) * ((dx * dx + dy * dy) * (kk * kk)) - m * m) as E2
    by (rewrite <- Hsq; ring).
  rewrite E1 in P1. rewrite E2 in P2.
  split; lra.
Qed.

(** X18.  Let [len] be what [Math.sqrt] returns for [dx * dx + dy * dy]: a
    number that is not negative and whose square is within the relative
    error [eta] of it ([eta] is 0 for an exact root, about 1e-15 for a
    rounded one).  When [len < 1], [drawArrow] draws nothing.  Otherwise the
    shaft starts at [(x, y)] and its squared length is, within the same
    relative error, the square of [min(maxLength, len * arrowScale)]: with
    [arrowScale >= 0] and [maxLength >= 0] the shaft is not longer than
    [maxLength], however large the vector. *)
Theorem arrow_shaft_is_capped :
  forall (Math_sqrt : num -> num) (Math_atan2 : num -> num -> num)
         (Math_cos Math_sin : num -> num) (Math_PI : num)
         (c : canvas) (x y dx dy len k M eta : Q) (color : string),
    Math_sqrt (Fin (dx * dx + dy * dy)) = Fin len ->
    root_within eta (dx * dx + dy * dy) len ->
    0 <= eta -> 0 <= k -> 0 <= M ->
    let drawn :=
      drawArrow Math_sqrt Math_atan2 Math_cos Math_sin Math_PI (Fin k)
        c (Fin x) (Fin y) (Fin dx) (Fin dy) color (Fin M) in
    (len < 1 /\ drawn = c)
    \/ (1 <= len
        /\ exists ex ey rest,
            drawn = c ++ Op BeginPath :: Op (MoveTo (Fin x) (Fin y))
                         :: Op (LineTo (Fin ex) (Fin ey)) :: rest
            /\ (1 - eta) * ((ex - x) * (ex - x) + (ey - y) * (ey - y))
               <= least M (len * k) * least M (len * k)
            /\ least M (len * k) * least M (len * k)
               <= (1 + eta) * ((ex - x) * (ex - x) + (ey - y) * (ey - y))
            /\ (1 - eta) * ((ex - x) * (ex - x) + (ey - y) * (ey - y))
               <= M * M).
Proof.
  intros Math_sqrt Math_atan2 Math_cos Math_sin Math_PI c x y dx dy len k M
         eta color Hsqrt (H0 & Hlo & Hhi) Heta Hk HM drawn.
  destruct (Qlt_le_dec len 1) as [L|L].
  - left. split; [exact L|]. subst drawn. unfold drawArrow.
    cbn [mul add]. rewrite Hsqrt.
    assert (lt (Fin len) one = true) as -> by (apply lt_Fin; exact L).
    reflexivity.
  - right. split; [exact L|].
    destruct (drawArrow_shaft Math_sqrt Math_atan2 Math_cos Math_sin Math_PI
                c x y dx dy len k M color Hsqrt L)
      as (m & rest & E & Hm).
    assert (0 <= len * k) as P by (apply Qmult_le_0_compat; assumption).
    pose proof (least_bounds M (len * k)) as [B1 _].
    pose proof (least_nonneg M (len * k) HM P) as B0.
    assert (0 <= m) as Hm0 by (rewrite Hm; exact B0).
    assert (m <= M) as HmM by (rewrite Hm; exact B1).
    assert (m * m == least M (len * k) * least M (len * k)) as Hmm
      by (rewrite Hm; reflexivity).
    destruct (scaled_shaft x y dx dy len m eta L Hm0 Heta Hlo Hhi) as [S1 S2].
    exists (x + dx * (m / len)), (y + dy * (m / len)), rest.
    split; [exact E|].
    assert (0 <= (M - m) * (M + m)) by (apply Qmult_le_0_compat; lra).
    rewrite <- Hmm. split; [exact S1|]. split; [exact S2|]. lra.
Qed.

Lemma arrow_shaft_is_capped_witness :
  exists ex ey rest,
    drawArrow (fun _ => Fin (14142135623730951 # 10000000000000000))
      (fun _ _ => zero) (fun _ => one) (fun _ => zero) (Fin 3) (Fin 30)
      [] (Fin 100) (Fin 100) (Fin 1) (Fin 1) "#4CAF50" (Fin 30)
    = [] ++ Op BeginPath :: Op (MoveTo (Fin 100) (Fin 100))
            :: Op (LineTo (Fin ex) (Fin ey)) :: rest
    /\ (1 - (1 # 1000000000000000))
       * ((ex - 100) * (ex - 100) + (ey - 100) * (ey - 100))
       <= 30 * 30.
Proof.
  destruct (arrow_shaft_is_capped
              (fun _ => Fin (14142135623730951 # 10000000000000000))
              (fun _ _ => zero) (fun _ => one) (fun _ => zero) (Fin 3)
              [] 100 100 1 1 (14142135623730951 # 10000000000000000) 30 30
              (1 # 1000000000000000) "#4CAF50")
    as [[L _]|(_ & ex & ey & rest & E & _ & _ & Hle)];
    try reflexivity; try discriminate.
  - unfold root_within. repeat split; vm_compute; discriminate.
  - exists ex, ey, rest. split; [exact E|exact Hle].
Defined.

(** The vector that [drawElectricFieldIndicator] hands to [drawArrow] has a
    squared length of about 625. *)
Lemma indicator_vector_length (Ex Ey mag eta : Q) :
  0 < mag -> 0 <= eta -> eta <= 1 # 2 ->
  (1 - eta) * (Ex * Ex + Ey * Ey) <= mag * mag ->
  mag * mag <= (1 + eta) * (Ex * Ex + Ey * Ey) ->
  (1 - eta) * (Ex * 25 / mag * (Ex * 25 / mag)
               + Ey * 25 / mag * (Ey * 25 / mag)) <= 625
  /\ 625 <= (1 + eta) * (Ex * 25 / mag * (Ex * 25 / mag)
                        + Ey * 25 / mag * (Ey * 25 / mag)).
Proof.
  intros Hpos Heta0 Heta1 Hlo Hhi.
  set (w := Ex * 25 / mag * (Ex * 25 / mag) + Ey * 25 / mag * (Ey * 25 / mag)).
  assert (w * (mag * mag) == 625 * (Ex * Ex + Ey * Ey)) as Hw
    by (unfold w; field; lra).
  assert (0 < mag * mag) as Hm2 by (apply Qmult_lt_0_compat; assumption).
  split.
  - apply Qnot_lt_le. intros C.
    assert (0 < ((1 - eta) * w - 625) * (mag * mag)) as P
      by (apply Qmult_lt_0_compat; lra).
    assert (((1 - eta) * w - 625) * (mag * mag)
            == (1 - eta) * (w * (mag * mag)) - 625 * (mag * mag)) as E by ring.
    rewrite Hw in E. rewrite E in P. lra.
  - apply Qnot_lt_le. intros C.
    assert (0 < (625 - (1 + eta) * w) * (mag * mag)) as P
      by (apply Qmult_lt_0_compat; lra).
    assert ((625 - (1 + eta) * w) * (mag * mag)
            == 625 * (mag * mag) - (1 + eta) * (w * (mag * mag))) as E by ring.
    rewrite Hw in E. rewrite E in P. lra.
Qed.

(** X19.  Let [mag] be what [Math.sqrt] returns for [Ex * Ex + Ey * Ey] and
    [len] what it returns for the squared length of the vector handed to
    [drawArrow], each within the relative error [eta] on its square
    ([eta <= 1/2]; 0 for exact roots, about 1e-15 for rounded ones).  A field
    with [mag < 1e-10] draws no indicator.  For any other, [len] is 25 within
    that error, so the arrow is drawn, after the 6 calls of the glow, and the
    squared length of its shaft is, within the same error, the square of
    [min(40, len * arrowScale)], whatever the strength of the field. *)
Theorem field_indicator_arrow_has_fixed_length :
  forall (Math_sqrt : num -> num) (Math_atan2 : num -> num -> num)
         (Math_cos Math_sin : num -> num) (Math_PI : num)
         (c : canvas) (Ex Ey x y mag len k eta : Q),
    Math_sqrt (Fin (Ex * Ex + Ey * Ey)) = Fin mag ->
    root_within eta (Ex * Ex + Ey * Ey) mag ->
    Math_sqrt (Fin (Ex * 25 / mag * (Ex * 25 / mag)
                    + Ey * 25 / mag * (Ey * 25 / mag))) = Fin len ->
    root_within eta (Ex * 25 / mag * (Ex * 25 / mag)
                     + Ey * 25 / mag * (Ey * 25 / mag)) len ->
    0 <= eta -> eta <= 1 # 2 -> 0 <= k ->
    let drawn :=
      drawElectricFieldIndicator Math_sqrt Math_atan2 Math_cos Math_sin
        Math_PI (Fin k) c (Fin Ex) (Fin Ey) (Fin x) (Fin y) in
    (mag < 1 # 10000000000 /\ drawn = c)
    \/ (1 # 10000000000 <= mag
        /\ (1 - eta) * 625 <= (1 + eta) * (len * len)
        /\ (1 - eta) * (len * len) <= (1 + eta) * 625
        /\ exists glow ex ey rest,
            drawn = (c ++ glow)
                      ++ Op BeginPath :: Op (MoveTo (Fin x) (Fin y))
                         :: Op (LineTo (Fin ex) (Fin ey)) :: rest
            /\ List.length glow = 6%nat
            /\ (1 - eta) * ((ex - x) * (ex - x) + (ey - y) * (ey - y))
               <= least 40 (len * k) * least 40 (len * k)
            /\ least 40 (len * k) * least 40 (len * k)
               <= (1 + eta) * ((ex - x) * (ex - x) + (ey - y) * (ey - y))).
Proof.
  intros Math_sqrt Math_atan2 Math_cos Math_sin Math_PI c Ex Ey x y mag len k
         eta Hmag (Hmag0 & Mlo & Mhi) Hsqrt (Hlen0 & Llo & Lhi)
         Heta0 Heta1 Hk drawn.
  subst drawn. unfold drawElectricFieldIndicator. cbn [mul add]. rewrite Hmag.
  destruct (Qlt_le_dec mag (1 # 10000000000)) as [L|L].
  - left. split; [exact L|].
    assert (lt (Fin mag) (Fin (1 # 10000000000)) = true) as ->
      by (apply lt_Fin; exact L).
    reflexivity.
  - right. split; [exact L|].
    assert (0 < mag) as Hpos by lra.
    destruct (indicator_vector_length Ex Ey mag eta Hpos Heta0 Heta1 Mlo Mhi)
      as [W1 W2].
    set (w := Ex * 25 / mag * (Ex * 25 / mag)
              + Ey * 25 / mag * (Ey * 25 / mag)) in *.
    assert ((1 - eta) * 625 <= (1 + eta) * (len * len)) as A.
    { assert (0 <= (1 + eta) * (len * len - (1 - eta) * w))
        by (apply Qmult_le_0_compat; lra).
      assert (0 <= (1 - eta) * ((1 + eta) * w - 625))
        by (apply Qmult_le_0_compat; lra).
      lra. }
    assert ((1 - eta) * (len * len) <= (1 + eta) * 625) as B.
    { assert (0 <= (1 - eta) * ((1 + eta) * w - len * len))
        by (apply Qmult_le_0_compat; lra).
      assert (0 <= (1 + eta) * (625 - (1 - eta) * w))
        by (apply Qmult_le_0_compat; lra).
      lra. }
    split; [exact A|]. split; [exact B|].
    assert (1 <= len) as Hlen1.
    { apply Qnot_lt_le. intros C.
      assert (0 < (1 - len) * (1 + len)) by (apply Qmult_lt_0_compat; lra).
      assert (0 <= eta * (1 - len * len)) by (apply Qmult_le_0_compat; lra).
      lra. }
    assert (lt (Fin mag) (Fin (1 # 10000000000)) = false) as ->
      by (apply lt_Fin_false; exact L).
    cbn [div].
    assert (Qeq_bool mag 0 = false) as ->.
    { apply not_true_iff_false. intros E. apply Qeq_bool_eq in E. lra. }
    destruct (drawArrow_shaft Math_sqrt Math_atan2 Math_cos Math_sin Math_PI
                (drawIndicatorGlow c (Fin x) (Fin y) (Fin 35) phosphorGreen
                   (Fin (3 # 10)))
                x y (Ex * 25 / mag) (Ey * 25 / mag) len k 40 phosphorGreen
                Hsqrt Hlen1) as (m & rest & E & Hm).
    assert (0 <= len * k) as P by (apply Qmult_le_0_compat; assumption).
    assert (0 <= 40) as H40 by discriminate.
    pose proof (least_nonneg 40 (len * k) H40 P) as B0.
    assert (0 <= m) as Hm0 by (rewrite Hm; exact B0).
    assert (m * m == least 40 (len * k) * least 40 (len * k)) as Hmm
      by (rewrite Hm; reflexivity).
    destruct (scaled_shaft x y (Ex * 25 / mag) (Ey * 25 / mag) len m eta
                Hlen1 Hm0 Heta0 Llo Lhi) as [S1 S2].
    rewrite E. unfold drawIndicatorGlow.
    repeat rewrite <- app_assoc. cbn [app].
    eexists [_; _; _; _; _; _], _, _, _.
    rewrite <- Hmm.
    split; [|split; [reflexivity|split; [exact S1|exact S2]]].
    repeat rewrite <- app_assoc. cbn [app]. reflexivity.
Qed.

Lemma field_indicator_arrow_has_fixed_length_witness :
  let Math_sqrt :=
    fun v => match v with
             | Fin q => if Qeq_bool q 2
                        then Fin (14142135623730951 # 10000000000000000)
                        else Fin 25
             | _ => NaN
             end in
  exists glow ex ey rest,
    drawElectricFieldIndicator Math_sqrt (fun _ _ => zero) (fun _ => one)
      (fun _ => zero) (Fin 3) (Fin 1) [] (Fin 1) (Fin 1) (Fin 200) (Fin 100)
    = ([] ++ glow)
        ++ Op BeginPath :: Op (MoveTo (Fin 200) (Fin 100))
           :: Op (LineTo (Fin ex) (Fin ey)) :: rest
    /\ List.length glow = 6%nat
    /\ (1 - (1 # 1000000000000000))
       * ((ex - 200) * (ex - 200) + (ey - 100) * (ey - 100))
       <= least 40 (25 * 1) * least 40 (25 * 1).
Proof.
  intros Math_sqrt.
  destruct (field_indicator_arrow_has_fixed_length Math_sqrt (fun _ _ => zero)
              (fun _ => one) (fun _ => zero) (Fin 3) [] 1 1 200 100
              (14142135623730951 # 10000000000000000) 25 1
              (1 # 1000000000000000))
    as [[L _]|(_ & _ & _ & glow & ex & ey & rest & E & Hg & Hsq & _)];
    try reflexivity; try discriminate.
  - unfold root_within. repeat split; vm_compute; discriminate.
  - unfold root_within. repeat split; vm_compute; discriminate.
  - exists glow, ex, ey, rest. split; [exact E|]. split; [exact Hg|exact Hsq].
Defined.

(** ** The energy graph *)

Lemma fold_max_finite (vs : list num) :
  Forall (fun v => exists t, v = Fin t) vs ->
  forall a,
    exists M, fold_left Math_max vs (Fin a) = Fin M
              /\ a <= M
              /\ Forall (fun v => exists t, v = Fin t /\ t <= M) vs.
Proof.
  induction 1 as [|v vs (t & ->) _ IH]; intros a.
  - exists a. split; [reflexivity|]. split; [lra|constructor].
  - cbn [fold_left]. unfold Math_max at 2. unfold cmp.
    destruct (a ?= t) eqn:C.
    + apply Qeq_alt in C. destruct (IH a) as (M & -> & H1 & H2).
      exists M. split; [reflexivity|]. split; [exact H1|].
      constructor; [exists t; split; [reflexivity|lra]|exact H2].
    + apply Qlt_alt in C. destruct (IH t) as (M & -> & H1 & H2).
      exists M. split; [reflexivity|]. split; [lra|].
      constructor; [exists t; split; [reflexivity|lra]|exact H2].
    + apply Qgt_alt in C. destruct (IH a) as (M & -> & H1 & H2).
      exists M. split; [reflexivity|]. split; [exact H1|].
      constructor; [exists t; split; [reflexivity|lra]|exact H2].
Qed.

Lemma Math_max_of_floor (vs : list num) (eps : Q) :
  Forall (fun v => exists t, v = Fin t) vs ->
  exists M, Math_max_of (vs ++ [Fin eps]) = Fin M
            /\ eps <= M
            /\ Forall (fun v => exists t, v = Fin t /\ t <= M) vs.
Proof.
  intros Hvs. unfold Math_max_of.
  assert (Forall (fun v => exists t, v = Fin t) (vs ++ [Fin eps])) as Hall.
  { apply Forall_app. split; [exact Hvs|].
    constructor; [now exists eps|constructor]. }
  destruct (vs ++ [Fin eps]) as [|v rest] eqn:E.
  - destruct vs; discriminate E.
  - inversion Hall as [|v' rest' (t & Ht) Hrest]; subst.
    cbn [fold_left]. change (Math_max NInf (Fin t)) with (Fin t).
    destruct (fold_max_finite rest Hrest t) as (M & -> & H1 & H2).
    exists M. split; [reflexivity|].
    assert (Forall (fun v => exists t, v = Fin t /\ t <= M) (vs ++ [Fin eps]))
      as Hb.
    { rewrite E. constructor; [exists t; split; [reflexivity|exact H1]|exact H2]. }
    apply Forall_app in Hb. destruct Hb as [Hb1 Hb2].
    split; [|exact Hb1].
    inversion Hb2 as [|? ? (t' & Et & Ht') _]; subst.
    injection Et as <-. exact Ht'.
Qed.

Lemma plotEnergy_fold (x y height dx maxEnergy : num)
    (l : list (nat * energySample)) :
  forall c,
    fold_left (plotEnergy x y height dx maxEnergy) l c
    = c ++ flat_map (fun ie => plotEnergy x y height dx maxEnergy [] ie) l.
Proof.
  induction l as [|[i e] l IH]; intros c; cbn [fold_left flat_map].
  - now rewrite app_nil_r.
  - rewrite IH. unfold plotEnergy. rewrite <- app_assoc. reflexivity.
Qed.

Lemma graph_point_inside (x y w h M t : Q) (n i : nat) :
  0 <= w -> 0 <= h -> 0 < M -> 0 <= t -> t <= M ->
  (2 <= n)%nat -> (i < n)%nat ->
  exists p q,
    (Fin x + of_nat i * (Fin w / (of_nat n - one)))%num = Fin p
    /\ (Fin y + Fin h - Fin t / Fin M * Fin h * Fin (85 # 100))%num = Fin q
    /\ x <= p <= x + w
    /\ y + (15 # 100) * h <= q <= y + h.
Proof.
  intros Hw Hh HM Ht HtM Hn Hi.
  assert (1 <= inject_Z (Z.of_nat n) + - (1)) as HN.
  { assert (inject_Z 2 <= inject_Z (Z.of_nat n)) as L
      by (rewrite <- Zle_Qle; lia).
    change (inject_Z 2) with 2 in L. lra. }
  assert (0 <= inject_Z (Z.of_nat i)
          /\ inject_Z (Z.of_nat i) <= inject_Z (Z.of_nat n) + - (1)) as [HI0 HI1].
  { split.
    - change 0 with (inject_Z 0). rewrite <- Zle_Qle. lia.
    - rewrite inject_Z_pred, <- Zle_Qle. lia. }
  cbn [of_nat sub add neg one mul div].
  assert (Qeq_bool (inject_Z (Z.of_nat n) + - (1)) 0 = false) as ->.
  { apply not_true_iff_false. intros E. apply Qeq_bool_eq in E. lra. }
  assert (Qeq_bool M 0 = false) as ->.
  { apply not_true_iff_false. intros E. apply Qeq_bool_eq in E. lra. }
  cbn [of_nat sub add neg one mul div].
  do 2 eexists. split; [reflexivity|]. split; [reflexivity|].
  set (N1 := inject_Z (Z.of_nat n) + - (1)) in *.
  set (I := inject_Z (Z.of_nat i)) in *.
  set (step := w / N1).
  assert (step * N1 == w) as Hstep by (unfold step; field; lra).
  assert (0 <= step) as Hs0.
  { unfold step, Qdiv. apply Qmult_le_0_compat; [exact Hw|].
    apply Qinv_le_0_compat. lra. }
  assert (0 <= I * step) as P1 by (apply Qmult_le_0_compat; assumption).
  assert (0 <= (N1 - I) * step) as P2 by (apply Qmult_le_0_compat; lra).
  set (rho := t / M).
  assert (rho * M == t) as Hrho by (unfold rho; field; lra).
  assert (0 <= rho) as R0.
  { unfold rho, Qdiv. apply Qmult_le_0_compat; [exact Ht|].
    apply Qinv_le_0_compat. lra. }
  assert (rho <= 1) as R1.
  { apply Qnot_lt_le. intros C.
    assert (0 < (rho - 1) * M) by (apply Qmult_lt_0_compat; lra). lra. }
  assert (0 <= rho * h) as P3 by (apply Qmult_le_0_compat; assumption).
  assert (0 <= (1 - rho) * h) as P4 by (apply Qmult_le_0_compat; lra).
  split; [lra|].
  assert (rho * h * (85 # 100) == (85 # 100) * (rho * h)) as Ec by ring.
  rewrite Ec. lra.
Qed.

(** X20.  For a box of width and height that are not negative and a history
    of finite totals that are not negative, [drawEnergyGraph] divides by a
    maximum of at least 1e-30 and keeps every point of its path inside the
    box: horizontally from [x] to [x + width], vertically from 15% below the
    top edge to the bottom edge.  With fewer than 2 samples it draws the
    background only; otherwise one point per sample and the two corners that
    close the fill. *)
Theorem energy_graph_stays_in_its_box :
  forall (c : canvas) (energyHistory : list energySample) (x y w h : Q),
    0 <= w -> 0 <= h -> Forall energy_ok energyHistory ->
    exists ops,
      drawEnergyGraph c energyHistory (Fin x) (Fin y) (Fin w) (Fin h) = c ++ ops
      /\ Forall (path_inside x (y + (15 # 100) * h) (x + w) (y + h)) ops
      /\ List.length (filter is_path_point ops)
         = (if (List.length energyHistory <? 2)%nat then 0
            else List.length energyHistory + 2)%nat.
Proof.
  intros c history x y w h Hw Hh Hok. unfold drawEnergyGraph.
  destruct (List.length history <? 2)%nat eqn:Hn.
  - eexists. repeat rewrite <- app_assoc. cbn [app].
    split; [reflexivity|]. split; [repeat constructor|reflexivity].
  - apply Nat.ltb_ge in Hn.
    destruct (Math_max_of_floor (map total history)
                (1 # 1000000000000000000000000000000))
      as (M & -> & HM & Hle).
    { apply Forall_map. eapply Forall_impl; [|exact Hok].
      intros e (t & Ht & _). now exists t. }
    rewrite plotEnergy_fold.
    set (pts := flat_map _ _).
    assert (Forall (path_inside x (y + (15 # 100) * h) (x + w) (y + h)) pts
            /\ List.length (filter is_path_point pts) = List.length history)
      as [Hpts Hcount].
    { subst pts. split.
      - apply Forall_flat_map, Forall_forall. intros [i e] Hin.
        pose proof (in_combine_l _ _ _ _ Hin) as Hi. apply in_seq in Hi.
        pose proof (in_combine_r _ _ _ _ Hin) as He.
        rewrite Forall_forall in Hok. destruct (Hok e He) as (t & Ht & Ht0).
        rewrite Forall_forall in Hle.
        destruct (Hle (total e)) as (t' & Et & HtM);
          [apply in_map; exact He|].
        rewrite Ht in Et. injection Et as <-.
        destruct (graph_point_inside x y w h M t (List.length history) i)
          as (p & q & Ep & Eq & Hp & Hq); try assumption; try lia; try lra.
        unfold plotEnergy. rewrite Ht, Ep, Eq. cbn [app].
        constructor; [|constructor].
        destruct (i =? 0)%nat; cbn; exists p, q; repeat split; lra.
      - assert (forall l : list (nat * energySample),
                   List.length
                     (filter is_path_point
                        (flat_map
                           (fun ie =>
                              plotEnergy (Fin x) (Fin y) (Fin h)
                                (Fin w / (of_nat (List.length history) - one))%num
                                (Fin M) [] ie) l))
                   = List.length l) as Hc.
        { induction l as [|[i e] l IH]; [reflexivity|].
          cbn [flat_map]. rewrite filter_app, length_app, IH.
          unfold plotEnergy. cbn [app]. destruct (i =? 0)%nat; reflexivity. }
        rewrite Hc, length_combine, length_seq. lia. }
    eexists. repeat rewrite <- app_assoc. cbn [app].
    split; [reflexivity|]. split.
    + repeat (apply Forall_cons; [exact I|]).
      apply Forall_app. split; [exact Hpts|].
      repeat (apply Forall_cons;
              [first [exact I
                     | cbn; do 2 eexists;
                       repeat (split; [reflexivity|]); lra]|]).
      apply Forall_nil.
    + cbn [filter is_path_point].
      rewrite filter_app, length_app, Hcount. cbn. lia.
Qed.

Lemma energy_graph_stays_in_its_box_witness :
  exists ops,
    drawEnergyGraph []
      [mkEnergy (Fin 0); mkEnergy (Fin 5); mkEnergy (Fin (7 # 2))]
      (Fin 10) (Fin 20) (Fin 200) (Fin 80)
    = [] ++ ops
    /\ Forall (path_inside 10 (20 + (15 # 100) * 80) (10 + 200) (20 + 80)) ops
    /\ List.length (filter is_path_point ops) = 5%nat.
Proof.
  apply (energy_graph_stays_in_its_box []
           [mkEnergy (Fin 0); mkEnergy (Fin 5); mkEnergy (Fin (7 # 2))]
           10 20 200 80).
  - discriminate.
  - discriminate.
  - repeat constructor; eexists; (split; [reflexivity|discriminate]).
Defined.

(** ** The dial slider *)

Lemma clamp_range (lo hi : Q) (v : num) :
  lo <= hi -> v <> NaN ->
  exists r, Math_max (Fin lo) (Math_min (Fin hi) v) = Fin r
            /\ lo <= r <= hi
            /\ (v = Fin r \/ r = lo \/ r = hi).
Proof.
  intros Hr Hv. destruct v as [x| | |]; [| | |congruence].
  - unfold Math_min, cmp. destruct (hi ?= x) eqn:C.
    + apply Qeq_alt in C. unfold Math_max, cmp. destruct (lo ?= hi) eqn:D.
      * apply Qeq_alt in D. exists lo. repeat split; auto; lra.
      * exists hi. repeat split; auto; lra.
      * apply Qgt_alt in D. lra.
    + apply Qlt_alt in C. unfold Math_max, cmp. destruct (lo ?= hi) eqn:D.
      * apply Qeq_alt in D. exists lo. repeat split; auto; lra.
      * exists hi. repeat split; auto; lra.
      * apply Qgt_alt in D. lra.
    + apply Qgt_alt in C. unfold Math_max, cmp. destruct (lo ?= x) eqn:D.
      * apply Qeq_alt in D. exists lo. repeat split; auto; lra.
      * apply Qlt_alt in D. exists x. repeat split; auto; lra.
      * apply Qgt_alt in D. exists lo. repeat split; auto; lra.
  - cbn [Math_min cmp]. unfold Math_max, cmp. destruct (lo ?= hi) eqn:D.
    + apply Qeq_alt in D. exists lo. repeat split; auto; lra.
    + exists hi. repeat split; auto; lra.
    + apply Qgt_alt in D. lra.
  - cbn. exists lo. repeat split; auto; lra.
Qed.

Lemma clamp_inverted (lo hi : Q) (v : num) :
  hi < lo -> v <> NaN ->
  Math_max (Fin lo) (Math_min (Fin hi) v) = Fin lo.
Proof.
  intros Hr Hv.
  assert (exists m, Math_min (Fin hi) v = Fin m /\ m <= hi \/
                    Math_min (Fin hi) v = NInf) as Hm.
  { destruct v as [x| | |]; [| | |congruence].
    - unfold Math_min, cmp. destruct (hi ?= x) eqn:C.
      + exists hi. left. split; [reflexivity|lra].
      + exists hi. left. split; [reflexivity|lra].
      + apply Qgt_alt in C. exists x. left. split; [reflexivity|lra].
    - exists hi. left. split; [reflexivity|lra].
    - exists 0. right. reflexivity. }
  destruct Hm as (m & [(-> & Hm)| ->]); [|reflexivity].
  unfold Math_max, cmp. destruct (lo ?= m) eqn:D; try reflexivity.
  apply Qlt_alt in D. lra.
Qed.

Lemma setValue_fields (d : DialSlider) (v : num) (isInput : bool) :
  let r := Math_max (options_min d) (Math_min (options_max d) v) in
  let d' := setValue d v isInput in
  value d' = r
  /\ options_min d' = options_min d
  /\ options_max d' = options_max d
  /\ options_step d' = options_step d
  /\ isDragging d' = isDragging d
  /\ tickMarks d' = tickMarks d
  /\ aria_valuenow d' = r
  /\ thumb_left d'
     = ((r - options_min d) / (options_max d - options_min d) * Fin 100)%num
  /\ callbacks d' = callbacks d ++ (if isInput then [OnInput r] else []).
Proof.
  destruct isInput; cbn; rewrite ?app_nil_r; repeat split; reflexivity.
Qed.

Lemma percent_range (lo hi r : Q) :
  lo < hi -> lo <= r <= hi ->
  exists p,
    ((Fin r - Fin lo) / (Fin hi - Fin lo) * Fin 100)%num = Fin p
    /\ 0 <= p <= 100.
Proof.
  intros Hr [H1 H2]. cbn [sub add neg div mul].
  assert (Qeq_bool (hi + - lo) 0 = false) as ->.
  { apply not_true_iff_false. intros E. apply Qeq_bool_eq in E. lra. }
  cbn [mul]. eexists. split; [reflexivity|].
  set (rho := (r + - lo) / (hi + - lo)).
  assert (rho * (hi + - lo) == r + - lo) as Hrho by (unfold rho; field; lra).
  assert (0 <= rho) as R0.
  { unfold rho, Qdiv. apply Qmult_le_0_compat; [lra|].
    apply Qinv_le_0_compat. lra. }
  assert (rho <= 1) as R1.
  { apply Qnot_lt_le. intros C.
    assert (0 < (rho - 1) * (hi + - lo)) by (apply Qmult_lt_0_compat; lra).
    lra. }
  lra.
Qed.

Lemma or_else_truthy (a b : num) :
  truthy b = true -> truthy (or_else a b) = true.
Proof. intros Hb. unfold or_else. destruct (truthy a) eqn:E; assumption. Qed.

Lemma iterations_le_capped (X : num) :
  exists k, iterations_le (Math_min (Fin 20) X) = Some k /\ (k <= 21)%nat.
Proof.
  assert (forall q, q <= 20 -> (Z.to_nat (Qfloor q + 1) <= 21)%nat) as Hcap.
  { intros q Hq. pose proof (Qfloor_le q) as Hf.
    assert (inject_Z (Qfloor q) <= inject_Z 20) as L
      by (change (inject_Z 20) with 20; lra).
    rewrite <- Zle_Qle in L. lia. }
  destruct X as [x| | |].
  - unfold Math_min, cmp. destruct (20 ?= x) eqn:C.
    + eexists. split; [reflexivity|]. apply Hcap. lra.
    + eexists. split; [reflexivity|]. apply Hcap. lra.
    + apply Qgt_alt in C. eexists. split; [reflexivity|]. apply Hcap. lra.
  - eexists. split; [reflexivity|]. apply Hcap. lra.
  - exists 0%nat. split; [reflexivity|lia].
  - exists 0%nat. split; [reflexivity|lia].
Qed.

Lemma rem_zero_dividend (b : num) :
  truthy b = true -> strict_eq (rem (of_nat 0) b) zero = true.
Proof.
  destruct b as [q| | |]; cbn [truthy]; intros Hb; try discriminate;
    try reflexivity.
  apply negb_true_iff in Hb. unfold rem, of_nat. rewrite Hb.
  assert (inject_Z (Z.of_nat 0) / q == 0) as Ez.
  { change (inject_Z (Z.of_nat 0)) with 0. unfold Qdiv. ring. }
  assert (Qle_bool 0 (inject_Z (Z.of_nat 0) / q) = true) as ->.
  { apply Qle_bool_iff. rewrite Ez. lra. }
  rewrite (Qfloor_comp _ _ Ez). change (Qfloor 0) with 0%Z.
  unfold strict_eq, zero, cmp.
  assert ((inject_Z (Z.of_nat 0) - q * inject_Z 0 ?= 0) = Eq) as ->.
  { apply Qeq_alt. change (inject_Z (Z.of_nat 0)) with 0.
    change (inject_Z 0) with 0. ring. }
  reflexivity.
Qed.

(** X21.  Whatever numbers [parseFloat] gives for [min], [max], [step] and
    [value], and whatever [majorTickInterval] is given (a number, a string,
    nothing), [new DialSlider] returns: the tick loop of [build] ends, with
    at most 21 tick marks.  The first mark, if any, is a major one unless the
    interval converts to 0 or NaN (as the strings "0" and "abc" do).  The
    slider it returns has a step and a maximum that are neither 0 nor NaN, is
    not being dragged and has called no callback. *)
Theorem a_new_dial_has_at_most_21_ticks :
  forall (min max step value0 : num) (ticks : bool)
         (majorTickInterval : jsvalue),
    exists d,
      newDialSlider min max step value0 ticks majorTickInterval = Some d
      /\ (List.length (tickMarks d) <= 21)%nat
      /\ (hd true (tickMarks d) = true
          \/ truthy (js_number (js_or majorTickInterval (js_of_num (Fin 5))))
             = false)
      /\ truthy (options_step d) = true
      /\ truthy (options_max d) = true
      /\ isDragging d = false
      /\ callbacks d = [].
Proof.
  intros min max step value0 ticks interval. unfold newDialSlider.
  destruct ticks.
  - unfold buildTicks.
    destruct (iterations_le_capped
                (Math_floor
                   ((or_else max (Fin 100) - or_else min (Fin 0))
                    / or_else step (Fin 1))%num)) as (k & -> & Hk).
    eexists. split; [reflexivity|]. cbn [tickMarks updatePosition
      set_thumb_left options_step options_max isDragging callbacks].
    rewrite length_map, length_seq. split; [exact Hk|].
    split.
    { destruct (truthy (js_number (js_or interval (js_of_num (Fin 5)))))
        eqn:T; [left|now right].
      destruct k as [|k]; [reflexivity|]. cbn [seq map hd].
      now apply rem_zero_dividend. }
    split; [now apply or_else_truthy|].
    split; [now apply or_else_truthy|]. split; reflexivity.
  - eexists. split; [reflexivity|]. cbn [tickMarks updatePosition
      set_thumb_left options_step options_max isDragging callbacks].
    split; [cbn; lia|]. split; [now left|].
    split; [now apply or_else_truthy|].
    split; [now apply or_else_truthy|]. split; reflexivity.
Qed.

(** X22.  With finite bounds [min < max], [setValue] of anything but NaN
    leaves a value between the bounds, writes the same value to
    [aria-valuenow] and puts the thumb between 0% and 100%. *)
Theorem setValue_keeps_the_value_in_range :
  forall (d : DialSlider) (lo hi : Q) (v : num) (isInput : bool),
    options_min d = Fin lo -> options_max d = Fin hi -> lo < hi ->
    v <> NaN ->
    exists r p,
      value (setValue d v isInput) = Fin r
      /\ lo <= r <= hi
      /\ aria_valuenow (setValue d v isInput) = Fin r
      /\ thumb_left (setValue d v isInput) = Fin p
      /\ 0 <= p <= 100.
Proof.
  intros d lo hi v isInput Hlo Hhi Hr Hv.
  destruct (setValue_fields d v isInput)
    as (Ev & _ & _ & _ & _ & _ & Ea & Et & _).
  rewrite Hlo, Hhi in *.
  destruct (clamp_range lo hi v) as (r & Er & Hin & _); [lra|exact Hv|].
  rewrite Er in *.
  destruct (percent_range lo hi r Hr Hin) as (p & Ep & Hp).
  exists r, p. rewrite Ev, Ea, Et, Ep. repeat split; lra.
Qed.

Lemma setValue_keeps_the_value_in_range_witness :
  exists r p,
    value (setValue (mkDialSlider (Fin 0) (Fin 10) (Fin 1) (Fin 3) false
                       (Fin 30) (Fin 3) [] []) (Fin 42) true) = Fin r
    /\ 0 <= r <= 10
    /\ aria_valuenow
         (setValue (mkDialSlider (Fin 0) (Fin 10) (Fin 1) (Fin 3) false
                      (Fin 30) (Fin 3) [] []) (Fin 42) true) = Fin r
    /\ thumb_left
         (setValue (mkDialSlider (Fin 0) (Fin 10) (Fin 1) (Fin 3) false
                      (Fin 30) (Fin 3) [] []) (Fin 42) true) = Fin p
    /\ 0 <= p <= 100.
Proof.
  apply (setValue_keeps_the_value_in_range
           (mkDialSlider (Fin 0) (Fin 10) (Fin 1) (Fin 3) false
              (Fin 30) (Fin 3) [] []) 0 10 (Fin 42) true).
  - reflexivity.
  - reflexivity.
  - reflexivity.
  - discriminate.
Defined.

(** X23.  With a maximum below the minimum, [setValue] of anything but NaN
    leaves the minimum as the value, which is above the maximum, and puts
    the thumb at 0%. *)
Theorem inverted_bounds_pin_the_value_to_min :
  forall (d : DialSlider) (lo hi : Q) (v : num) (isInput : bool),
    options_min d = Fin lo -> options_max d = Fin hi -> hi < lo ->
    v <> NaN ->
    value (setValue d v isInput) = Fin lo
    /\ eqv (thumb_left (setValue d v isInput)) (Fin 0).
Proof.
  intros d lo hi v isInput Hlo Hhi Hr Hv.
  destruct (setValue_fields d v isInput)
    as (Ev & _ & _ & _ & _ & _ & _ & Et & _).
  rewrite Hlo, Hhi in *. rewrite (clamp_inverted lo hi v Hr Hv) in *.
  split; [exact Ev|]. rewrite Et. cbn [sub add neg div].
  assert (Qeq_bool (hi + - lo) 0 = false) as ->.
  { apply not_true_iff_false. intros E. apply Qeq_bool_eq in E. lra. }
  cbn [mul eqv]. field. lra.
Qed.

Lemma inverted_bounds_pin_the_value_to_min_witness :
  value (setValue (mkDialSlider (Fin 10) (Fin 0) (Fin 1) (Fin 3) false
                     (Fin 30) (Fin 3) [] []) (Fin 4) false) = Fin 10
  /\ eqv (thumb_left
            (setValue (mkDialSlider (Fin 10) (Fin 0) (Fin 1) (Fin 3) false
                         (Fin 30) (Fin 3) [] []) (Fin 4) false)) (Fin 0).
Proof.
  apply (inverted_bounds_pin_the_value_to_min
           (mkDialSlider (Fin 10) (Fin 0) (Fin 1) (Fin 3) false
              (Fin 30) (Fin 3) [] []) 10 0 (Fin 4) false).
  - reflexivity.
  - reflexivity.
  - reflexivity.
  - discriminate.
Defined.

(** X24.  With equal finite bounds, [setValue] of anything but NaN leaves
    the thumb at NaN%: [updatePosition] divides zero by zero. *)
Theorem equal_bounds_give_no_position :
  forall (d : DialSlider) (lo hi : Q) (v : num) (isInput : bool),
    options_min d = Fin lo -> options_max d = Fin hi -> lo == hi ->
    v <> NaN ->
    thumb_left (setValue d v isInput) = NaN.
Proof.
  intros d lo hi v isInput Hlo Hhi Hr Hv.
  destruct (setValue_fields d v isInput)
    as (_ & _ & _ & _ & _ & _ & _ & Et & _).
  rewrite Hlo, Hhi in *.
  destruct (clamp_range lo hi v) as (r & Er & Hin & _); [lra|exact Hv|].
  rewrite Er in Et. rewrite Et. cbn [sub add neg div].
  assert (Qeq_bool (hi + - lo) 0 = true) as ->
    by (apply Qeq_bool_iff; lra).
  assert ((r + - lo ?= 0) = Eq) as -> by (apply Qeq_alt; lra).
  reflexivity.
Qed.

Lemma equal_bounds_give_no_position_witness :
  thumb_left (setValue (mkDialSlider (Fin 5) (Fin 5) (Fin 1) (Fin 5) false
                          (Fin 0) (Fin 5) [] []) (Fin 7) false) = NaN.
Proof.
  apply (equal_bounds_give_no_position
           (mkDialSlider (Fin 5) (Fin 5) (Fin 1) (Fin 5) false
              (Fin 0) (Fin 5) [] []) 5 5 (Fin 7) false).
  - reflexivity.
  - reflexivity.
  - reflexivity.
  - discriminate.
Defined.

Lemma Qeq_bool_false (q : Q) : ~ q == 0 -> Qeq_bool q 0 = false.
Proof.
  intros H. apply not_true_iff_false. intros E. apply Qeq_bool_eq in E.
  contradiction.
Qed.

Lemma steppedValue_Fin (d : DialSlider) (lo hi s cx l w : Q) :
  options_min d = Fin lo -> options_max d = Fin hi ->
  options_step d = Fin s -> ~ s == 0 -> ~ w == 0 ->
  exists k : Z,
    steppedValue d (Fin cx) (Fin l) (Fin w) = Fin (inject_Z k * s).
Proof.
  intros Hlo Hhi Hs Hs0 Hw0. unfold steppedValue.
  rewrite Hlo, Hhi, Hs. cbn [sub add neg div].
  rewrite (Qeq_bool_false w Hw0).
  destruct (clamp_range 0 1 (Fin ((cx + - l) / w)))
    as (r & -> & _ & _); [lra|discriminate|].
  cbn [mul add div]. rewrite (Qeq_bool_false s Hs0).
  cbn [Math_round mul]. eexists. reflexivity.
Qed.

Lemma strict_eq_Fin (a : Q) (b : num) :
  strict_eq (Fin a) b = true -> exists q, b = Fin q /\ q == a.
Proof.
  unfold strict_eq, cmp. destruct b as [q| | |]; try discriminate.
  destruct (a ?= q) eqn:C; try discriminate. intros _.
  apply Qeq_alt in C. exists q. split; [reflexivity|lra].
Qed.

(** X25.  While the thumb is dragged over a track of non-zero width, with
    finite bounds [min <= max] and a finite non-zero step, [drag] leaves a
    value that is a multiple of the step or one of the two bounds.  Either
    it changes nothing, or the new value lies between the bounds and is
    reported by exactly one [onInput]. *)
Theorem drag_snaps_to_the_step :
  forall (d : DialSlider) (lo hi s cx l w : Q),
    isDragging d = true ->
    options_min d = Fin lo -> options_max d = Fin hi -> lo <= hi ->
    options_step d = Fin s -> ~ s == 0 -> ~ w == 0 ->
    exists r,
      value (drag d (Fin cx) (Fin l) (Fin w)) = Fin r
      /\ on_step_or_bound lo hi s r
      /\ (drag d (Fin cx) (Fin l) (Fin w) = d
          \/ (lo <= r <= hi
              /\ callbacks (drag d (Fin cx) (Fin l) (Fin w))
                 = callbacks d ++ [OnInput (Fin r)])).
Proof.
  intros d lo hi s cx l w Hdrag Hlo Hhi Hr Hs Hs0 Hw0. unfold drag.
  rewrite Hdrag. cbn [negb].
  destruct (steppedValue_Fin d lo hi s cx l w Hlo Hhi Hs Hs0 Hw0) as (k & ->).
  destruct (strict_eq (Fin (inject_Z k * s)) (value d)) eqn:E; cbn [negb].
  - apply strict_eq_Fin in E. destruct E as (q & Eq & Hq).
    exists q. split; [exact Eq|]. split; [|now left].
    left. exists k. exact Hq.
  - destruct (setValue_fields d (Fin (inject_Z k * s)) true)
      as (Ev & _ & _ & _ & _ & _ & _ & _ & Ec).
    rewrite Hlo, Hhi in *.
    destruct (clamp_range lo hi (Fin (inject_Z k * s)))
      as (r & Er & Hin & Hcase); [exact Hr|discriminate|].
    rewrite Er in *. exists r. split; [exact Ev|]. split.
    + destruct Hcase as [Ek|[->| ->]].
      * left. exists k. injection Ek as <-. reflexivity.
      * right. now left.
      * right. now right.
    + right. split; [exact Hin|exact Ec].
Qed.

Lemma drag_snaps_to_the_step_witness :
  exists r,
    value (drag (mkDialSlider (Fin (1 # 2)) (Fin 10) (Fin 2) (Fin 3) true
                   (Fin 30) (Fin 3) [] []) (Fin 130) (Fin 100) (Fin 200))
    = Fin r
    /\ on_step_or_bound (1 # 2) 10 2 r
    /\ (drag (mkDialSlider (Fin (1 # 2)) (Fin 10) (Fin 2) (Fin 3) true
                (Fin 30) (Fin 3) [] []) (Fin 130) (Fin 100) (Fin 200)
        = mkDialSlider (Fin (1 # 2)) (Fin 10) (Fin 2) (Fin 3) true
            (Fin 30) (Fin 3) [] []
        \/ ((1 # 2) <= r <= 10
            /\ callbacks
                 (drag (mkDialSlider (Fin (1 # 2)) (Fin 10) (Fin 2) (Fin 3)
                          true (Fin 30) (Fin 3) [] [])
                    (Fin 130) (Fin 100) (Fin 200))
               = callbacks
                   (mkDialSlider (Fin (1 # 2)) (Fin 10) (Fin 2) (Fin 3) true
                      (Fin 30) (Fin 3) [] [])
                 ++ [OnInput (Fin r)])).
Proof.
  apply (drag_snaps_to_the_step
           (mkDialSlider (Fin (1 # 2)) (Fin 10) (Fin 2) (Fin 3) true
              (Fin 30) (Fin 3) [] []) (1 # 2) 10 2 130 100 200).
  - reflexivity.
  - reflexivity.
  - reflexivity.
  - discriminate.
  - reflexivity.
  - discriminate.
  - discriminate.
Defined.

(** X26.  While the thumb is dragged, a track of width 0 with the pointer
    on its left edge makes [drag] set the value to NaN, whatever the bounds
    and the step: the NaN is reported through [onInput] and written to
    [aria-valuenow] and to the thumb position. *)
Theorem a_collapsed_track_drags_to_NaN :
  forall (d : DialSlider) (cx l w : Q),
    isDragging d = true -> w == 0 -> cx == l ->
    value (drag d (Fin cx) (Fin l) (Fin w)) = NaN
    /\ aria_valuenow (drag d (Fin cx) (Fin l) (Fin w)) = NaN
    /\ thumb_left (drag d (Fin cx) (Fin l) (Fin w)) = NaN
    /\ callbacks (drag d (Fin cx) (Fin l) (Fin w))
       = callbacks d ++ [OnInput NaN].
Proof.
  intros d cx l w Hdrag Hw Hcx. unfold drag. rewrite Hdrag. cbn [negb].
  assert (steppedValue d (Fin cx) (Fin l) (Fin w) = NaN) as ->.
  { unfold steppedValue. cbn [sub add neg div].
    assert (Qeq_bool w 0 = true) as -> by (apply Qeq_bool_iff; exact Hw).
    assert ((cx + - l ?= 0) = Eq) as -> by (apply Qeq_alt; lra).
    cbn [inf_of_sign]. cbn [Math_min cmp]. rewrite Math_max_NaN_r.
    assert (forall a b : num, (a + NaN * b)%num = NaN) as ->
      by (intros a b; destruct a; reflexivity).
    reflexivity. }
  cbn [strict_eq cmp negb].
  destruct (setValue_fields d NaN true)
    as (Ev & _ & _ & _ & _ & _ & Ea & Et & Ec).
  assert (Math_max (options_min d) (Math_min (options_max d) NaN) = NaN) as En.
  { destruct (options_max d); cbn [Math_min cmp]; apply Math_max_NaN_r. }
  rewrite En in *. rewrite Ev, Ea, Et, Ec.
  repeat split; reflexivity.
Qed.

Lemma a_collapsed_track_drags_to_NaN_witness :
  value (drag (mkDialSlider (Fin 0) (Fin 10) (Fin 1) (Fin 3) true
                 (Fin 30) (Fin 3) [] []) (Fin 100) (Fin 100) (Fin 0)) = NaN
  /\ aria_valuenow
       (drag (mkDialSlider (Fin 0) (Fin 10) (Fin 1) (Fin 3) true
                (Fin 30) (Fin 3) [] []) (Fin 100) (Fin 100) (Fin 0)) = NaN
  /\ thumb_left
       (drag (mkDialSlider (Fin 0) (Fin 10) (Fin 1) (Fin 3) true
                (Fin 30) (Fin 3) [] []) (Fin 100) (Fin 100) (Fin 0)) = NaN
  /\ callbacks
       (drag (mkDialSlider (Fin 0) (Fin 10) (Fin 1) (Fin 3) true
                (Fin 30) (Fin 3) [] []) (Fin 100) (Fin 100) (Fin 0))
     = callbacks (mkDialSlider (Fin 0) (Fin 10) (Fin 1) (Fin 3) true
                    (Fin 30) (Fin 3) [] [])
       ++ [OnInput NaN].
Proof.
  apply (a_collapsed_track_drags_to_NaN
           (mkDialSlider (Fin 0) (Fin 10) (Fin 1) (Fin 3) true
              (Fin 30) (Fin 3) [] []) 100 100 0).
  - reflexivity.
  - reflexivity.
  - reflexivity.
Defined.

Lemma drag_step (d : DialSlider) (clientX rectLeft rectWidth : num) :
  isDragging d = true ->
  drag d clientX rectLeft rectWidth = d
  \/ (isDragging (drag d clientX rectLeft rectWidth) = true
      /\ callbacks (drag d clientX rectLeft rectWidth)
         = callbacks d
           ++ [OnInput (value (drag d clientX rectLeft rectWidth))]).
Proof.
  intros Hdrag. unfold drag. rewrite Hdrag. cbn [negb].
  destruct (strict_eq _ _); cbn [negb]; [now left|]. right.
  destruct (setValue_fields d (steppedValue d clientX rectLeft rectWidth) true)
    as (Ev & _ & _ & _ & Ed & _ & _ & _ & Ec).
  rewrite Ed, Ec, Ev. split; [exact Hdrag|reflexivity].
Qed.

Lemma drags_report_inputs (moves : list (num * num * num)) :
  forall d,
    isDragging d = true ->
    let d' :=
      fold_left (fun d m => let '(clientX, rectLeft, rectWidth) := m in
                            drag d clientX rectLeft rectWidth) moves d in
    isDragging d' = true
    /\ exists inputs,
         callbacks d' = callbacks d ++ inputs
         /\ Forall is_OnInput inputs
         /\ (List.length inputs <= List.length moves)%nat
         /\ ((inputs = [] /\ value d' = value d)
             \/ exists pre, inputs = pre ++ [OnInput (value d')]).
Proof.
  induction moves as [|[[cx l] w] moves IH]; intros d Hdrag.
  - cbn. split; [exact Hdrag|]. exists []. rewrite app_nil_r.
    repeat split; auto.
  - cbn [fold_left].
    destruct (drag_step d cx l w Hdrag) as [->|[Hd Hc]].
    + destruct (IH d Hdrag) as (Hd' & inputs & Ec & Hall & Hlen & Hlast).
      split; [exact Hd'|]. exists inputs. repeat split; auto. cbn. lia.
    + destruct (IH _ Hd) as (Hd' & inputs & Ec & Hall & Hlen & Hlast).
      split; [exact Hd'|].
      exists (OnInput (value (drag d cx l w)) :: inputs).
      split; [rewrite Ec, Hc, <- app_assoc; reflexivity|].
      split; [constructor; [exact I|exact Hall]|].
      split; [cbn; lia|]. right.
      destruct Hlast as [[-> Ev]|(pre & ->)].
      * exists []. cbn [app]. rewrite Ev. reflexivity.
      * exists (OnInput (value (drag d cx l w)) :: pre). reflexivity.
Qed.

(** X27.  A pointer gesture (press on the thumb, any moves, release) calls
    [onInput] at most once per move and then [onChange] exactly once, with
    the value the slider ends on.  That value is the one of the last
    [onInput], or the value before the gesture when there was none; the
    slider is no longer being dragged. *)
Theorem a_gesture_ends_with_one_change :
  forall (d : DialSlider) (moves : list (num * num * num)),
    exists inputs,
      callbacks (gesture d moves)
      = callbacks d ++ inputs ++ [OnChange (value (gesture d moves))]
      /\ Forall is_OnInput inputs
      /\ (List.length inputs <= List.length moves)%nat
      /\ ((inputs = [] /\ value (gesture d moves) = value d)
          \/ exists pre, inputs = pre ++ [OnInput (value (gesture d moves))])
      /\ isDragging (gesture d moves) = false.
Proof.
  intros d moves. unfold gesture.
  destruct (drags_report_inputs moves (startDrag d) eq_refl)
    as (Hd' & inputs & Ec & Hall & Hlen & Hlast).
  cbn zeta in Hd', Ec, Hlast.
  set (d' := fold_left _ moves (startDrag d)) in *.
  unfold endDrag. rewrite Hd'. cbn.
  exists inputs. rewrite Ec. cbn in Hlast |- *.
  rewrite <- app_assoc. repeat split; auto.
Qed.

Lemma idle_moves (moves : list (num * num * num)) :
  forall d,
    isDragging d = false ->
    fold_left (fun d m => let '(clientX, rectLeft, rectWidth) := m in
                          drag d clientX rectLeft rectWidth) moves d = d.
Proof.
  induction moves as [|[[cx l] w] moves IH]; intros d Hd; [reflexivity|].
  cbn [fold_left]. unfold drag at 2. rewrite Hd. cbn [negb].
  now apply IH.
Qed.

(** X28.  A slider that is not being dragged ignores pointer moves and
    releases: any number of [drag] calls followed by [endDrag] leaves its
    state as it was and calls no callback. *)
Theorem moves_outside_a_drag_are_ignored :
  forall (d : DialSlider) (moves : list (num * num * num)),
    isDragging d = false ->
    endDrag
      (fold_left (fun d m => let '(clientX, rectLeft, rectWidth) := m in
                             drag d clientX rectLeft rectWidth) moves d)
    = d.
Proof.
  intros d moves Hd. rewrite (idle_moves moves d Hd).
  unfold endDrag. rewrite Hd. reflexivity.
Qed.

Lemma moves_outside_a_drag_are_ignored_witness :
  endDrag
    (fold_left (fun d m => let '(clientX, rectLeft, rectWidth) := m in
                           drag d clientX rectLeft rectWidth)
       [(Fin 130, Fin 100, Fin 200); (Fin 170, Fin 100, Fin 200)]
       (mkDialSlider (Fin 0) (Fin 10) (Fin 1) (Fin 3) false
          (Fin 30) (Fin 3) [] []))
  = mkDialSlider (Fin 0) (Fin 10) (Fin 1) (Fin 3) false
      (Fin 30) (Fin 3) [] [].
Proof.
  apply (moves_outside_a_drag_are_ignored
           (mkDialSlider (Fin 0) (Fin 10) (Fin 1) (Fin 3) false
              (Fin 30) (Fin 3) [] [])
           [(Fin 130, Fin 100, Fin 200); (Fin 170, Fin 100, Fin 200)]).
  reflexivity.
Defined.

Lemma set_then_change (d : DialSlider) (lo hi : Q) (v : num) :
  options_min d = Fin lo -> options_max d = Fin hi -> lo <= hi ->
  v <> NaN ->
  exists r,
    value (call (setValue d v false) (OnChange (value (setValue d v false))))
    = Fin r
    /\ lo <= r <= hi
    /\ (v = Fin r \/ r = lo \/ r = hi)
    /\ callbacks
         (call (setValue d v false) (OnChange (value (setValue d v false))))
       = callbacks d ++ [OnChange (Fin r)].
Proof.
  intros Hlo Hhi Hr Hv.
  destruct (setValue_fields d v false)
    as (Ev & _ & _ & _ & _ & _ & _ & _ & Ec).
  rewrite Hlo, Hhi in *.
  destruct (clamp_range lo hi v Hr Hv) as (r & Er & Hin & Hcase).
  rewrite Er in *. exists r. unfold call. cbn [value callbacks].
  rewrite Ev, Ec, app_nil_r. repeat split; auto; lra.
Qed.

Lemma Math_min_not_NaN (a b : Q) : Math_min (Fin a) (Fin b) <> NaN.
Proof. unfold Math_min, cmp. destruct (a ?= b); discriminate. Qed.

Lemma Math_max_not_NaN (a b : Q) : Math_max (Fin a) (Fin b) <> NaN.
Proof. unfold Math_max, cmp. destruct (a ?= b); discriminate. Qed.

(** X29.  With finite bounds [min <= max], a finite step and a finite
    value, [handleKeyboard] either gets one of the six keys it knows, and
    then leaves a value between the bounds, reports it by exactly one
    [onChange] and prevents the default action; or it gets another key and
    does nothing at all. *)
Theorem keys_keep_the_value_in_range :
  forall (d : DialSlider) (lo hi s v : Q) (key : string),
    options_min d = Fin lo -> options_max d = Fin hi -> lo <= hi ->
    options_step d = Fin s -> value d = Fin v ->
    (In key ["ArrowRight"; "ArrowUp"; "ArrowLeft"; "ArrowDown"; "Home";
             "End"]%string
     /\ exists r,
          value (fst (handleKeyboard d key)) = Fin r
          /\ lo <= r <= hi
          /\ callbacks (fst (handleKeyboard d key))
             = callbacks d ++ [OnChange (Fin r)]
          /\ snd (handleKeyboard d key) = true)
    \/ (~ In key ["ArrowRight"; "ArrowUp"; "ArrowLeft"; "ArrowDown"; "Home";
                  "End"]%string
        /\ handleKeyboard d key = (d, false)).
Proof.
  intros d lo hi s v key Hlo Hhi Hr Hs Hv.
  assert (forall nv, nv <> NaN ->
            exists r,
              value (call (setValue d nv false)
                       (OnChange (value (setValue d nv false)))) = Fin r
              /\ lo <= r <= hi
              /\ callbacks (call (setValue d nv false)
                              (OnChange (value (setValue d nv false))))
                 = callbacks d ++ [OnChange (Fin r)]
              /\ true = true) as Hgo.
  { intros nv Hnv.
    destruct (set_then_change d lo hi nv Hlo Hhi Hr Hnv)
      as (r & E1 & E2 & _ & E3).
    exists r. repeat split; auto; lra. }
  unfold handleKeyboard. rewrite Hlo, Hhi, Hs, Hv. cbn [add sub neg].
  destruct (String.eqb_spec key "ArrowRight") as [->|N1].
  { left. split; [cbn; auto|]. cbn [String.eqb Ascii.eqb orb fst snd].
    cbn -[setValue call Math_min Math_max].
    apply Hgo, Math_min_not_NaN. }
  destruct (String.eqb_spec key "ArrowUp") as [->|N2].
  { left. split; [cbn; auto|].
    cbn -[setValue call Math_min Math_max].
    apply Hgo, Math_min_not_NaN. }
  destruct (String.eqb_spec key "ArrowLeft") as [->|N3].
  { left. split; [cbn; auto|].
    cbn -[setValue call Math_min Math_max].
    apply Hgo, Math_max_not_NaN. }
  destruct (String.eqb_spec key "ArrowDown") as [->|N4].
  { left. split; [cbn; auto 6|].
    cbn -[setValue call Math_min Math_max].
    apply Hgo, Math_max_not_NaN. }
  destruct (String.eqb_spec key "Home") as [->|N5].
  { left. split; [cbn; auto 7|].
    cbn -[setValue call Math_min Math_max].
    apply Hgo. discriminate. }
  destruct (String.eqb_spec key "End") as [->|N6].
  { left. split; [cbn; auto 8|].
    cbn -[setValue call Math_min Math_max].
    apply Hgo. discriminate. }
  right. split; [|reflexivity].
  intros [H|[H|[H|[H|[H|[H|[]]]]]]]; congruence.
Qed.

Lemma keys_keep_the_value_in_range_witness :
  (In "ArrowUp"%string
     ["ArrowRight"; "ArrowUp"; "ArrowLeft"; "ArrowDown"; "Home"; "End"]%string
   /\ exists r,
        value (fst (handleKeyboard
                      (mkDialSlider (Fin 0) (Fin 10) (Fin 4) (Fin 9) false
                         (Fin 90) (Fin 9) [] []) "ArrowUp")) = Fin r
        /\ 0 <= r <= 10
        /\ callbacks (fst (handleKeyboard
                             (mkDialSlider (Fin 0) (Fin 10) (Fin 4) (Fin 9)
                                false (Fin 90) (Fin 9) [] []) "ArrowUp"))
           = callbacks (mkDialSlider (Fin 0) (Fin 10) (Fin 4) (Fin 9) false
                          (Fin 90) (Fin 9) [] [])
             ++ [OnChange (Fin r)]
        /\ snd (handleKeyboard
                  (mkDialSlider (Fin 0) (Fin 10) (Fin 4) (Fin 9) false
                     (Fin 90) (Fin 9) [] []) "ArrowUp") = true)
  \/ (~ In "ArrowUp"%string
        ["ArrowRight"; "ArrowUp"; "ArrowLeft"; "ArrowDown"; "Home";
         "End"]%string
      /\ handleKeyboard
           (mkDialSlider (Fin 0) (Fin 10) (Fin 4) (Fin 9) false
              (Fin 90) (Fin 9) [] []) "ArrowUp"
         = (mkDialSlider (Fin 0) (Fin 10) (Fin 4) (Fin 9) false
              (Fin 90) (Fin 9) [] [], false)).
Proof.
  apply (keys_keep_the_value_in_range
           (mkDialSlider (Fin 0) (Fin 10) (Fin 4) (Fin 9) false
              (Fin 90) (Fin 9) [] []) 0 10 4 9 "ArrowUp").
  - reflexivity.
  - reflexivity.
  - discriminate.
  - reflexivity.
  - reflexivity.
Defined.

(** X30.  A click on the track (not on the thumb) of non-zero width, with
    finite bounds [min <= max] and a finite non-zero step, leaves a value
    between the bounds that is a multiple of the step or one of the two
    bounds, and reports it by exactly one [onChange] and no [onInput]. *)
Theorem a_track_click_snaps_and_reports_once :
  forall (d : DialSlider) (lo hi s cx l w : Q),
    options_min d = Fin lo -> options_max d = Fin hi -> lo <= hi ->
    options_step d = Fin s -> ~ s == 0 -> ~ w == 0 ->
    exists r,
      value (handleTrackClick d false (Fin cx) (Fin l) (Fin w)) = Fin r
      /\ lo <= r <= hi
      /\ on_step_or_bound lo hi s r
      /\ callbacks (handleTrackClick d false (Fin cx) (Fin l) (Fin w))
         = callbacks d ++ [OnChange (Fin r)].
Proof.
  intros d lo hi s cx l w Hlo Hhi Hr Hs Hs0 Hw0. unfold handleTrackClick.
  destruct (steppedValue_Fin d lo hi s cx l w Hlo Hhi Hs Hs0 Hw0) as (k & ->).
  destruct (set_then_change d lo hi (Fin (inject_Z k * s)) Hlo Hhi Hr)
    as (r & E1 & E2 & Hcase & E3); [discriminate|].
  exists r. split; [exact E1|]. split; [exact E2|]. split; [|exact E3].
  destruct Hcase as [Ek|[->| ->]].
  - left. exists k. injection Ek as <-. reflexivity.
  - right. now left.
  - right. now right.
Qed.

Lemma a_track_click_snaps_and_reports_once_witness :
  exists r,
    value (handleTrackClick
             (mkDialSlider (Fin 0) (Fin 10) (Fin 3) (Fin 3) false
                (Fin 30) (Fin 3) [] [])
             false (Fin 300) (Fin 100) (Fin 200)) = Fin r
    /\ 0 <= r <= 10
    /\ on_step_or_bound 0 10 3 r
    /\ callbacks (handleTrackClick
                    (mkDialSlider (Fin 0) (Fin 10) (Fin 3) (Fin 3) false
                       (Fin 30) (Fin 3) [] [])
                    false (Fin 300) (Fin 100) (Fin 200))
       = callbacks (mkDialSlider (Fin 0) (Fin 10) (Fin 3) (Fin 3) false
                      (Fin 30) (Fin 3) [] [])
         ++ [OnChange (Fin r)].
Proof.
  apply (a_track_click_snaps_and_reports_once
           (mkDialSlider (Fin 0) (Fin 10) (Fin 3) (Fin 3) false
              (Fin 30) (Fin 3) [] []) 0 10 3 300 100 200).
  - reflexivity.
  - reflexivity.
  - discriminate.
  - reflexivity.
  - discriminate.
  - discriminate.
Defined.
